(** * Post actions of mattermost-redux, embedded in Rocq

    A shallow embedding of the post actions under [src/actions]: the
    post synchronisation thunks ([createPost], [deletePost], [removePost],
    [getPost], the reaction thunks), the compound fetch
    [getPostsAround], the dependency prefetcher
    ([getProfilesAndStatusesForPosts] with its two scans) and the
    read/unread policy of [lastPostActions].

    Conventions of the embedding:
    - a thunk [(dispatch, getState) => ...] is a function of the state
      it reads, of the values [Date.now()] yields and of the outcomes
      of the remote calls it awaits; it returns the list of actions it
      dispatched, in order, together with how it completed;
    - an optional JavaScript property is an [option]; truthiness is
      written out where the source relies on it;
    - a JavaScript object used as a dictionary by the code under study
      is a [gmap]; the [posts] object of a post list, whose enumeration
      order the code relies on, is an association list;
    - the members of other modules (constants, selectors, helpers) are
      gathered in the record [Imports]. *)

From Stdlib Require Import ZArith String Ascii DecimalString Bool.
From stdpp Require Import base option list sorting gmap strings.

Set Warnings "-register-all".

(** ** Data model *)

Record PostMetadata := { emojis : list string }.

Record AttachmentField := { value : string }.

Record Attachment := {
  fields : option (list AttachmentField);
  pretext : string;
  text : string;
}.

Record PostProps := {
  from_webhook : string;
  attachments : option (list Attachment);
}.

(** [types/posts]: the properties of a post the actions read or write.
    [id], [pending_post_id], [file_ids], [metadata] and [props] may be
    missing on a draft. *)
Record Post := {
  id : option string;
  pending_post_id : option string;
  channel_id : string;
  user_id : string;
  root_id : string;
  message : string;
  type : string;
  create_at : Z;
  update_at : Z;
  file_ids : option (list string);
  is_pinned : bool;
  failed : bool;
  metadata : option PostMetadata;
  props : option PostProps;
}.

(** [ExtendedPost = Post & { system_post_ids?: string[] }]. *)
Record ExtendedPost := {
  base : Post;
  system_post_ids : option (list string);
}.

(** A [Post] used where an [ExtendedPost] is expected. *)
Definition plain (p : Post) : ExtendedPost :=
  {| base := p; system_post_ids := None |}.

(** Object spread with one overridden property, [{...p, f: v}]. *)
Definition set_id (v : option string) (p : Post) : Post :=
  {| id := v; pending_post_id := pending_post_id p;
     channel_id := channel_id p; user_id := user_id p; root_id := root_id p;
     message := message p; type := type p; create_at := create_at p;
     update_at := update_at p; file_ids := file_ids p;
     is_pinned := is_pinned p; failed := failed p;
     metadata := metadata p; props := props p |}.

Definition set_pending_post_id (v : option string) (p : Post) : Post :=
  {| id := id p; pending_post_id := v;
     channel_id := channel_id p; user_id := user_id p; root_id := root_id p;
     message := message p; type := type p; create_at := create_at p;
     update_at := update_at p; file_ids := file_ids p;
     is_pinned := is_pinned p; failed := failed p;
     metadata := metadata p; props := props p |}.

Definition set_create_at (v : Z) (p : Post) : Post :=
  {| id := id p; pending_post_id := pending_post_id p;
     channel_id := channel_id p; user_id := user_id p; root_id := root_id p;
     message := message p; type := type p; create_at := v;
     update_at := update_at p; file_ids := file_ids p;
     is_pinned := is_pinned p; failed := failed p;
     metadata := metadata p; props := props p |}.

Definition set_update_at (v : Z) (p : Post) : Post :=
  {| id := id p; pending_post_id := pending_post_id p;
     channel_id := channel_id p; user_id := user_id p; root_id := root_id p;
     message := message p; type := type p; create_at := create_at p;
     update_at := v; file_ids := file_ids p;
     is_pinned := is_pinned p; failed := failed p;
     metadata := metadata p; props := props p |}.

Definition set_file_ids (v : option (list string)) (p : Post) : Post :=
  {| id := id p; pending_post_id := pending_post_id p;
     channel_id := channel_id p; user_id := user_id p; root_id := root_id p;
     message := message p; type := type p; create_at := create_at p;
     update_at := update_at p; file_ids := v;
     is_pinned := is_pinned p; failed := failed p;
     metadata := metadata p; props := props p |}.

Definition set_failed (v : bool) (p : Post) : Post :=
  {| id := id p; pending_post_id := pending_post_id p;
     channel_id := channel_id p; user_id := user_id p; root_id := root_id p;
     message := message p; type := type p; create_at := create_at p;
     update_at := update_at p; file_ids := file_ids p;
     is_pinned := is_pinned p; failed := v;
     metadata := metadata p; props := props p |}.

Record FileInfo := { file_id : string }.

Record UserProfile := { profile_id : string; username : string }.

Record CustomEmoji := { emoji_id : string; emoji_name : string }.

Record Reaction := {
  reaction_user_id : string;
  reaction_post_id : string;
  reaction_emoji_name : string;
}.

(** The [posts] object of a post list: keys in enumeration order. *)
Definition PostDict := list (string * Post).

(** [CombinedPostList]. *)
Record CombinedPostList := {
  posts : PostDict;
  order : list string;
  next_post_id : string;
  prev_post_id : string;
}.

(** What the remote client raises ([types/errors]). *)
Record ServerError := {
  server_error_id : option string;
  status_code : Z;
  error_message : string;
}.

(** A thrown value: the remote client's error, or the [TypeError] the
    runtime raises on a property access on [undefined]. *)
Inductive Exn :=
| ClientError (e : ServerError)
| TypeError.

(** [error.server_error_id]: [undefined] on a [TypeError]. *)
Definition exn_server_error_id (e : Exn) : option string :=
  match e with
  | ClientError e => server_error_id e
  | TypeError => None
  end.

(** The slices of [GlobalState] the actions and their selectors read. *)
Record GlobalState := {
  entities_users_currentUserId : string;
  entities_users_profiles : gmap string UserProfile;
  entities_users_statuses : gmap string string;
  entities_posts_posts : gmap string Post;
  entities_posts_pendingPostIds : list string;
  entities_files_files : gmap string FileInfo;
  entities_channels_currentChannelId : string;
  entities_general_config : gmap string string;
  entities_emojis_customEmoji : gmap string CustomEmoji;
  entities_emojis_nonExistentEmoji : gset string;
}.

(** The payload of a websocket [posted] event besides the post. *)
Record WebsocketMessageProps := {
  team_id : string;
  mentions : string;
  channel_type : string;
  channel_name : string;
}.

(** ** Results, remote outcomes, actions *)

(** The outcome of an awaited remote call. *)
Inductive ClientOutcome (A : Type) :=
| Resolved (a : A)
| Rejected (e : Exn).
Arguments Resolved {A} a.
Arguments Rejected {A} e.

(** The value under [data] in a result object. *)
Inductive Data :=
| DTrue
| DPost (p : Post)
| DPosts (l : CombinedPostList).

(** What a thunk hands back to its caller: [{data}], [{error}], or
    nothing at all when the function body has no [return]. *)
Inductive Returned :=
| RData (d : Data)
| RError (e : Exn)
| RUndefined.

(** How an evaluation ends: with a value, with a thrown exception (a
    rejected promise for an [async] function), or without an answer
    within the recursion budget of the model. *)
Inductive Outcome (A : Type) :=
| Returns (a : A)
| Throws (e : Exn)
| OutOfFuel.
Arguments Returns {A} a.
Arguments Throws {A} e.
Arguments OutOfFuel {A}.

(** The calls of the remote client that are deferred inside an action
    ([meta.offline.effect]). *)
Inductive ClientCall :=
| Client4_createPost (p : Post)
| Client4_deletePost (postId : option string).

(** Dispatched values: plain actions by their [type], the thunks of
    other modules by their name, [batchActions], and an action
    carrying [meta.offline] (effect, commit and rollback; the two
    handlers yield the actions they dispatch). *)
Inductive Action :=
| RECEIVED_POST (data : ExtendedPost)
| RECEIVED_NEW_POST (data : Post)
| RECEIVED_POSTS (data : CombinedPostList)
| RECEIVED_POSTS_IN_CHANNEL (channelId : string) (data : CombinedPostList)
    (recent oldest : bool)
| POST_DELETED (data : ExtendedPost)
| POST_REMOVED (data : ExtendedPost)
| GET_POSTS_SUCCESS
| GET_POSTS_FAILURE (error : Exn)
| CREATE_POST_SUCCESS
| CREATE_POST_FAILURE (error : Exn)
| INCREMENT_TOTAL_MSG_COUNT (channelId : string) (amount : Z)
| DECREMENT_UNREAD_MSG_COUNT (channelId : string) (amount : Z)
| RECEIVED_FILES_FOR_POST (postId : option string)
    (data : list (option FileInfo))
| RECEIVED_REACTION (data : Reaction)
| REACTION_DELETED (data : Reaction)
| STOP_TYPING (typingId : string) (userId : string) (now : Z)
| DO_NOTHING
| LOGOUT_SUCCESS
| logError (error : Exn)
| getProfilesByIds (userIds : gset string)
| getStatusesByIds (userIds : gset string)
| getProfilesByUsernames (usernames : gset string)
| getCustomEmojisByName (names : gset string)
| markChannelAsRead (channelId : string) (updateLastViewedAt : bool)
| markChannelAsViewed (channelId : string)
| markChannelAsUnread (teamId channelId : string) (mentions : string)
| batchActions (actions : list Action)
| OFFLINE (action : Action) (effect : ClientCall)
    (commit : Post → list Action)
    (rollback : GlobalState → Z → Exn → list Action * Outcome unit).

(** What a thunk did: the actions dispatched, in order, and how it
    completed. *)
Definition Run (A : Type) : Type := (list Action * Outcome A)%type.

(** The members of other modules the actions import. *)
Record Imports := {
  (* constants *)
  COMBINED_USER_ACTIVITY : string;
  SPECIAL_MENTIONS : list string;
  (* actions/emojis *)
  systemEmojis : gset string;
  (* selectors *)
  Selectors_getPost : GlobalState → string → option Post;
  Selectors_isPostIdSending : GlobalState → string → bool;
  getCurrentUserId : GlobalState → string;
  getCurrentChannelId : GlobalState → string;
  getConfig_EnableCustomEmoji : GlobalState → option string;
  getUsersByUsername : GlobalState → gmap string UserProfile;
  selectCustomEmojisByName : GlobalState → gmap string CustomEmoji;
  (* utils *)
  parseNeededCustomEmojisFromText :
    string → gset string → gmap string CustomEmoji → gset string → gset string;
  isFromWebhook : Post → bool;
  isSystemMessage : Post → bool;
  shouldIgnorePost : Post → bool;
  (* actions/helpers *)
  isSessionExpired : Exn → bool;
}.

(** ** JavaScript primitives *)

(** Truthiness of a possibly missing string. *)
Definition truthy_string (s : option string) : bool :=
  match s with
  | Some s => negb (String.eqb s "")
  | None => false
  end.

(** [Number.prototype.toString] on an integer (template literals). *)
Definition number_toString (n : Z) : string :=
  NilEmpty.string_of_int (Z.to_int n).

(** [a === b] on strings. *)
Definition str_eq (a b : string) : bool := String.eqb a b.

(** [a === b] where [a] may be [undefined]. *)
Definition opt_str_eq (a : option string) (b : string) : bool :=
  match a with
  | Some a => String.eqb a b
  | None => false
  end.

(** [a || b] on strings. *)
Definition or_else (a : option string) (b : string) : string :=
  match a with
  | Some a => if String.eqb a "" then b else a
  | None => b
  end.

(** The names every plain object inherits from [Object.prototype]. *)
Definition Object_prototype_keys : list string :=
  ["constructor"; "__defineGetter__"; "__defineSetter__"; "hasOwnProperty";
   "__lookupGetter__"; "__lookupSetter__"; "isPrototypeOf";
   "propertyIsEnumerable"; "toString"; "valueOf"; "__proto__";
   "toLocaleString"].

(** [obj[k]] tested for truth, on a plain object whose own properties
    are the entries of [obj], none of them falsy: the read finds an
    own property or, up the prototype chain, a member of
    [Object.prototype]. *)
Definition truthy_property {V : Type} (obj : gmap string V) (k : string) : bool :=
  bool_decide (is_Some (obj !! k)) || bool_decide (k ∈ Object_prototype_keys).

(** ** Running thunks *)

(** A loop whose body dispatches a thunk per element: the dispatched
    actions are concatenated; the result of each inner thunk is
    dropped, as the source drops the value of [dispatch]. *)
Fixpoint forEach {A : Type} (body : A → Run Returned) (l : list A) : Run unit :=
  match l with
  | [] => ([], Returns tt)
  | x :: l =>
      match body x with
      | (acts, Returns _) =>
          let '(acts', o) := forEach body l in (acts ++ acts', o)
      | (acts, Throws e) => (acts, Throws e)
      | (acts, OutOfFuel) => (acts, OutOfFuel)
      end
  end.

(** Modelled from the spec: [forceLogoutIfNecessary] of
    [actions/helpers], which is not among the sources: "if the error
    indicates an expired/invalid session, a process-wide sign-out is
    triggered". *)
Definition forceLogoutIfNecessary (imp : Imports) (error : Exn) : list Action :=
  if isSessionExpired imp error then [LOGOUT_SUCCESS] else [].

(** ** removePost and deletePost *)

(** [removePost]: the recursion of the source is bounded by [fuel]. *)
Fixpoint removePost_fuel (fuel : nat) (imp : Imports) (st : GlobalState)
    (post : ExtendedPost) : Run Returned :=
  match fuel with
  | O => ([], OutOfFuel)
  | S fuel =>
      match str_eq (type (base post)) (COMBINED_USER_ACTIVITY imp),
            system_post_ids post with
      | true, Some ids =>
          let state := st in
          match
            forEach (fun systemPostId =>
              match Selectors_getPost imp state systemPostId with
              | Some systemPost => removePost_fuel fuel imp st (plain systemPost)
              | None => ([], Returns RUndefined)
              end) ids
          with
          | (acts, Returns _) => (acts, Returns RUndefined)
          | (acts, Throws e) => (acts, Throws e)
          | (acts, OutOfFuel) => (acts, OutOfFuel)
          end
      | _, _ => ([POST_REMOVED post], Returns RUndefined)
      end
  end.

(** A stored post has no [system_post_ids], so one nested call is the
    deepest the recursion goes (see [removePost_fuel_enough]). *)
Definition removePost (imp : Imports) (st : GlobalState) (post : ExtendedPost)
    : Run Returned :=
  removePost_fuel 2 imp st post.

(** [deletePost], with the same bound on its recursion. *)
Fixpoint deletePost_fuel (fuel : nat) (imp : Imports) (st : GlobalState)
    (post : ExtendedPost) : Run Returned :=
  match fuel with
  | O => ([], OutOfFuel)
  | S fuel =>
      let state := st in
      let delPost := post in
      match str_eq (type (base delPost)) (COMBINED_USER_ACTIVITY imp),
            system_post_ids delPost with
      | true, Some ids =>
          match
            forEach (fun systemPostId =>
              match Selectors_getPost imp state systemPostId with
              | Some systemPost => deletePost_fuel fuel imp st (plain systemPost)
              | None => ([], Returns RUndefined)
              end) ids
          with
          | (acts, Returns _) => (acts, Returns (RData DTrue))
          | (acts, Throws e) => (acts, Throws e)
          | (acts, OutOfFuel) => (acts, OutOfFuel)
          end
      | _, _ =>
          ([OFFLINE (POST_DELETED delPost)
              (Client4_deletePost (id (base post)))
              (fun _ => [DO_NOTHING])
              (fun _ _ _ => ([RECEIVED_POST delPost], Returns tt))],
           Returns (RData DTrue))
      end
  end.

Definition deletePost (imp : Imports) (st : GlobalState) (post : ExtendedPost)
    : Run Returned :=
  deletePost_fuel 2 imp st post.

(** ** createPost *)

(** The server error identifiers on which a failed send is dropped. *)
Definition is_remove_on_failure (error : Exn) : bool :=
  opt_str_eq (exn_server_error_id error) "api.post.create_post.root_id.app_error"
  || opt_str_eq (exn_server_error_id error) "api.post.create_post.town_square_read_only"
  || opt_str_eq (exn_server_error_id error) "plugin.message_will_be_posted.dismiss_post".

(** [post.pending_post_id || `${currentUserId}:${timestamp}`]. *)
Definition createPost_pendingPostId (st : GlobalState) (timestamp : Z) (post : Post)
    : string :=
  or_else (pending_post_id post)
    (entities_users_currentUserId st +:+ ":" +:+ number_toString timestamp).

(** [{...newPost, id: pendingPostId, failed: true, update_at: Date.now()}]. *)
Definition createPost_failed_data (newPost : Post) (pendingPostId : string) (now : Z)
    : Post :=
  set_update_at now (set_failed true (set_id (Some pendingPostId) newPost)).

(** [meta.offline.rollback] of [createPost]. *)
Definition createPost_rollback (imp : Imports) (newPost : Post)
    (pendingPostId : string) (st : GlobalState) (now : Z) (error : Exn)
    : list Action * Outcome unit :=
  let data := createPost_failed_data newPost pendingPostId now in
  let failure := CREATE_POST_FAILURE error in
  if is_remove_on_failure error then
    match removePost imp st (plain data) with
    | (acts, Returns _) => (failure :: acts, Returns tt)
    | (acts, Throws e) => (failure :: acts, Throws e)
    | (acts, OutOfFuel) => (failure :: acts, OutOfFuel)
    end
  else ([failure; RECEIVED_POST (plain data)], Returns tt).

(** [meta.offline.commit] of [createPost]; [files] is an array, hence
    truthy, so the files are always re-attached. *)
Definition createPost_commit (newPost : Post) (files : list (option FileInfo))
    (payload : Post) : list Action :=
  [batchActions
     ([RECEIVED_POST (plain payload);
       CREATE_POST_SUCCESS;
       INCREMENT_TOTAL_MSG_COUNT (channel_id newPost) 1;
       DECREMENT_UNREAD_MSG_COUNT (channel_id newPost) 1]
      ++ [RECEIVED_FILES_FOR_POST (id payload) files])].

(** [{id: pendingPostId, ...newPost}]: an [id] of the draft wins. *)
Definition createPost_optimistic_data (newPost : Post) (pendingPostId : string)
    : Post :=
  match id newPost with
  | Some _ => newPost
  | None => set_id (Some pendingPostId) newPost
  end.

Definition createPost (imp : Imports) (st : GlobalState) (now : Z)
    (post : Post) (files : list (option FileInfo)) : Run Returned :=
  let state := st in
  let timestamp := now in
  let pendingPostId := createPost_pendingPostId state timestamp post in
  if Selectors_isPostIdSending imp state pendingPostId then
    ([], Returns (RData DTrue))
  else
    let newPost :=
      set_update_at timestamp
        (set_create_at timestamp
           (set_pending_post_id (Some pendingPostId) post)) in
    (* retrying a pending post that had files *)
    let files :=
      match file_ids newPost with
      | Some ids =>
          if Nat.eqb (length files) 0
          then (fun i => entities_files_files state !! i) <$> ids
          else files
      | None => files
      end in
    let send (newPost : Post) : Action :=
      OFFLINE (RECEIVED_NEW_POST (createPost_optimistic_data newPost pendingPostId))
        (Client4_createPost (set_create_at 0 newPost))
        (createPost_commit newPost files)
        (createPost_rollback imp newPost pendingPostId) in
    if negb (Nat.eqb (length files) 0) then
      (* [file.id] on a file the state does not hold throws *)
      match mapM (fmap file_id) files with
      | None => ([], Throws TypeError)
      | Some fileIds =>
          let newPost := set_file_ids (Some fileIds) newPost in
          ([RECEIVED_FILES_FOR_POST (Some pendingPostId) files; send newPost],
           Returns (RData DTrue))
      end
    else ([send newPost], Returns (RData DTrue)).

(** Modelled from the spec: the reducer of the normalized post store
    ([reducers/entities/posts], not among the sources), "a keyed
    mapping from post identifier to post record": a received post is
    stored under its identifier, a removed post leaves the mapping.
    Only the actions that carry a post to store or to remove are
    modelled; the others leave the mapping as it is. *)
Fixpoint posts_reducer (a : Action) (s : gmap string Post) {struct a}
    : gmap string Post :=
  match a with
  | RECEIVED_POST d =>
      match id (base d) with Some k => <[k := base d]> s | None => s end
  | RECEIVED_NEW_POST d =>
      match id d with Some k => <[k := d]> s | None => s end
  | POST_REMOVED d =>
      match id (base d) with Some k => delete k s | None => s end
  | batchActions l =>
      (fix go (l : list Action) (s : gmap string Post) :=
         match l with
         | [] => s
         | a :: l => go l (posts_reducer a s)
         end) l s
  | OFFLINE a _ _ _ => posts_reducer a s
  | _ => s
  end.

(** The store after a sequence of dispatches. *)
Definition dispatch_all (acts : list Action) (s : gmap string Post)
    : gmap string Post :=
  foldl (fun s a => posts_reducer a s) s acts.

(** ** The mention pattern [/\B@( ([a-z0-9_.-]* [a-z0-9_]) [.-]* )/gi]

    Messages are scanned as lists of characters.  The matcher follows
    the backtracking semantics of the pattern: greedy stars that give
    characters back when what follows them fails. *)

Definition in_range (lo hi : nat) (c : ascii) : bool :=
  (lo <=? nat_of_ascii c)%nat && (nat_of_ascii c <=? hi)%nat.

(** [[a-z0-9_]] under the [i] flag. *)
Definition class_word_i (c : ascii) : bool :=
  in_range 97 122 c || in_range 65 90 c || in_range 48 57 c
  || Ascii.eqb c "_".

(** [[.-]]. *)
Definition class_punct (c : ascii) : bool :=
  Ascii.eqb c "." || Ascii.eqb c "-".

(** [[a-z0-9_.-]] under the [i] flag. *)
Definition class_name_i (c : ascii) : bool :=
  class_word_i c || class_punct c.

(** The word characters of [\b] and [\B]; outside the string there is
    no word character. *)
Definition IsWordChar (c : option ascii) : bool :=
  match c with
  | Some c => class_word_i c
  | None => false
  end.

(** [[a-z0-9_.-]*[a-z0-9_]] at the head of [s]: the captured text and
    the rest of the input.  The star first takes the character and
    tries the rest; when that fails it stops, and the character has to
    match [[a-z0-9_]]. *)
Fixpoint match_group2 (s : list ascii) : option (list ascii * list ascii) :=
  match s with
  | [] => None
  | c :: s' =>
      let stop := if class_word_i c then Some ([c], s') else None in
      if class_name_i c then
        match match_group2 s' with
        | Some (g, r) => Some (c :: g, r)
        | None => stop
        end
      else stop
  end.

(** [[.-]*] at the head of [s], greedy; nothing after it can fail. *)
Fixpoint match_punct (s : list ascii) : list ascii * list ascii :=
  match s with
  | c :: s' =>
      if class_punct c
      then let '(t, r) := match_punct s' in (c :: t, r)
      else ([], s)
  | [] => ([], [])
  end.

(** A match: where it starts, where it ends ([lastIndex] afterwards),
    and the captures [match[1]] and [match[2]]. *)
Record RegExpMatch := {
  index : nat;
  lastIndex : nat;
  match_1 : string;
  match_2 : string;
}.

(** The pattern tried at position [i] of [s]: [\B] compares the
    characters on both sides of the position, then [@], then the two
    groups. *)
Definition match_at (s : list ascii) (i : nat) : option RegExpMatch :=
  let prev := match i with O => None | S j => s !! j end in
  match drop i s with
  | c :: rest =>
      if Bool.eqb (IsWordChar prev) (IsWordChar (Some c)) && Ascii.eqb c "@" then
        match match_group2 rest with
        | Some (g2, r) =>
            let '(t, _) := match_punct r in
            Some {| index := i;
                    lastIndex := i + 1 + length g2 + length t;
                    match_1 := string_of_list_ascii (g2 ++ t);
                    match_2 := string_of_list_ascii g2 |}
        | None => None
        end
      else None
  | [] => None
  end.

(** The start positions [i], [i+1], ... ([n] of them), leftmost first. *)
Fixpoint exec_from (s : list ascii) (n i : nat) : option RegExpMatch :=
  match n with
  | O => None
  | S n =>
      match match_at s i with
      | Some m => Some m
      | None => exec_from s n (S i)
      end
  end.

(** [pattern.exec(s)] with the [g] flag, from the pattern's
    [lastIndex]. *)
Definition exec (s : list ascii) (lastIndex : nat) : option RegExpMatch :=
  if (length s <? lastIndex)%nat then None
  else exec_from s (S (length s - lastIndex)) lastIndex.

(** ** Dependency prefetcher *)

(** [s.includes(c)] for a one-character needle. *)
Definition includes (c : ascii) (s : string) : bool :=
  existsb (Ascii.eqb c) (list_ascii_of_string s).

(** The body of the [while] loop of [getNeededAtMentionedUsernames].
    [usersByUsername] holds the own properties of the plain object the
    selector returns; [usersByUsername[match[1]]] is a property read
    on it. *)
Definition mention_step (imp : Imports) (usersByUsername : gmap string UserProfile)
    (m : RegExpMatch) (usernamesToLoad : gset string) : gset string :=
  if bool_decide (match_2 m ∈ SPECIAL_MENTIONS imp) then usernamesToLoad
  else if truthy_property usersByUsername (match_1 m)
          || truthy_property usersByUsername (match_2 m)
  then usernamesToLoad
  else {[match_2 m]} ∪ ({[match_1 m]} ∪ usernamesToLoad).

(** [while ((match = pattern.exec(post.message)) !== null) { ... }],
    with a bound on the number of iterations. *)
Fixpoint mention_loop (fuel : nat) (imp : Imports)
    (usersByUsername : gmap string UserProfile) (s : list ascii)
    (from : nat) (usernamesToLoad : gset string) : option (gset string) :=
  match fuel with
  | O => None
  | S fuel =>
      match exec s from with
      | None => Some usernamesToLoad
      | Some m =>
          mention_loop fuel imp usersByUsername s (lastIndex m)
            (mention_step imp usersByUsername m usernamesToLoad)
      end
  end.

(** [getNeededAtMentionedUsernames]; [None] when a loop exceeds its
    bound, which [getNeededAtMentionedUsernames_total] excludes. *)
Definition getNeededAtMentionedUsernames (imp : Imports) (st : GlobalState)
    (posts : list Post) : option (gset string) :=
  foldl (fun acc post =>
           usernamesToLoad ← acc;
           if negb (includes "@" (message post)) then Some usernamesToLoad
           else
             let usersByUsername := getUsersByUsername imp st in
             let s := list_ascii_of_string (message post) in
             mention_loop (S (length s)) imp usersByUsername s 0 usernamesToLoad)
        (Some ∅) posts.

Definition buildPostAttachmentText (attachments : list Attachment) : string :=
  foldl (fun attachmentText a =>
           let t1 :=
             match fields a with
             | Some fs =>
                 foldl (fun t f => t +:+ " " +:+ value f) attachmentText fs
             | None => attachmentText
             end in
           let t2 := if String.eqb (pretext a) "" then t1
                     else t1 +:+ " " +:+ pretext a in
           if String.eqb (text a) "" then t2 else t2 +:+ " " +:+ text a)
        "" attachments.

(** What one post adds to [customEmojisToLoad]: the body of the
    [forEach] of [getNeededCustomEmojis]. *)
Definition emoji_step (imp : Imports) (st : GlobalState)
    (customEmojisToLoad : gset string) (post : Post) : gset string :=
  let customEmojisByName := selectCustomEmojisByName imp st in
  let nonExistentEmoji := entities_emojis_nonExistentEmoji st in
  let fromMessage :=
    if includes ":" (message post) then
      let emojisFromPost :=
        parseNeededCustomEmojisFromText imp (message post) (systemEmojis imp)
          customEmojisByName nonExistentEmoji in
      if bool_decide (emojisFromPost ≠ ∅)
      then customEmojisToLoad ∪ emojisFromPost
      else customEmojisToLoad
    else customEmojisToLoad in
  match props post with
  | Some pr =>
      match attachments pr with
      | Some (a :: l) =>
          let attachmentText := buildPostAttachmentText (a :: l) in
          if String.eqb attachmentText "" then fromMessage
          else
            let emojisFromAttachment :=
              parseNeededCustomEmojisFromText imp attachmentText (systemEmojis imp)
                customEmojisByName nonExistentEmoji in
            if bool_decide (emojisFromAttachment ≠ ∅)
            then fromMessage ∪ emojisFromAttachment
            else fromMessage
      | _ => fromMessage
      end
  | None => fromMessage
  end.

(** [getNeededCustomEmojis]; [posts[0].metadata] on an empty array is
    a property access on [undefined]. *)
Definition getNeededCustomEmojis (imp : Imports) (st : GlobalState)
    (posts : list Post) : Outcome (gset string) :=
  if negb (opt_str_eq (getConfig_EnableCustomEmoji imp st) "true") then Returns ∅
  else
    match posts with
    | [] => Throws TypeError
    | post0 :: _ =>
        if bool_decide (is_Some (metadata post0)) then Returns ∅
        else Returns (foldl (emoji_step imp st) ∅ posts)
    end.

(** The argument of [getProfilesAndStatusesForPosts]: an array of
    posts or an object keyed by post identifier. *)
Inductive PostsArrayOrMap :=
| PostsArray (l : list Post)
| PostsMap (d : PostDict).

Definition Object_values (p : PostsArrayOrMap) : list Post :=
  match p with
  | PostsArray l => l
  | PostsMap d => d.*2
  end.

(** The first [forEach] of [getProfilesAndStatusesForPosts]: the
    pair [(userIdsToLoad, statusesToLoad)]. *)
Definition authors_step (st : GlobalState) (acc : gset string * gset string)
    (post : Post) : gset string * gset string :=
  let '(userIdsToLoad, statusesToLoad) := acc in
  let userId := user_id post in
  let statusesToLoad :=
    if negb (truthy_string (entities_users_statuses st !! userId))
    then {[userId]} ∪ statusesToLoad else statusesToLoad in
  if str_eq userId (entities_users_currentUserId st)
  then (userIdsToLoad, statusesToLoad)
  else if bool_decide (is_Some (entities_users_profiles st !! userId))
  then (userIdsToLoad, statusesToLoad)
  else ({[userId]} ∪ userIdsToLoad, statusesToLoad).

(** [getProfilesAndStatusesForPosts]: [None] stands for a [null] or
    [undefined] argument.  The fetches started are the actions of the
    run. *)
Definition getProfilesAndStatusesForPosts (imp : Imports) (st : GlobalState)
    (postsArrayOrMap : option PostsArrayOrMap) : Run unit :=
  match postsArrayOrMap with
  | None => ([], Returns tt)
  | Some postsArrayOrMap =>
      let posts := Object_values postsArrayOrMap in
      if Nat.eqb (length posts) 0 then ([], Returns tt)
      else
        let '(userIdsToLoad, statusesToLoad) :=
          foldl (authors_step st) (∅, ∅) posts in
        let promises :=
          (if bool_decide (userIdsToLoad ≠ ∅)
           then [getProfilesByIds userIdsToLoad] else [])
          ++ (if bool_decide (statusesToLoad ≠ ∅)
              then [getStatusesByIds statusesToLoad] else []) in
        match getNeededAtMentionedUsernames imp st posts with
        | None => (promises, OutOfFuel)
        | Some usernamesToLoad =>
            let promises :=
              promises ++
              (if bool_decide (usernamesToLoad ≠ ∅)
               then [getProfilesByUsernames usernamesToLoad] else []) in
            match getNeededCustomEmojis imp st posts with
            | Returns emojisToLoad =>
                (promises ++
                 (if bool_decide (emojisToLoad ≠ ∅)
                  then [getCustomEmojisByName emojisToLoad] else []),
                 Returns tt)
            | Throws e => (promises, Throws e)
            | OutOfFuel => (promises, OutOfFuel)
            end
        end
  end.

(** ** Fetching posts *)

(** The value of a decimal digit. *)
Definition digit_value (c : ascii) : option N :=
  let n := N_of_ascii c in
  if (48 <=? n)%N && (n <=? 57)%N then Some (n - 48)%N else None.

Fixpoint decimal_value (s : list ascii) (acc : N) : option N :=
  match s with
  | [] => Some acc
  | c :: s' => d ← digit_value c; decimal_value s' (10 * acc + d)%N
  end.

(** A property key that is an array index: the canonical decimal
    numeral (no leading zero) of an integer below [2^32 - 1]. *)
Definition array_index (k : string) : option N :=
  match list_ascii_of_string k with
  | [] => None
  | c :: s' =>
      if Ascii.eqb c "0" && negb (Nat.eqb (length s') 0) then None
      else
        n ← decimal_value (c :: s') 0;
        if (n <? 2 ^ 32 - 1)%N then Some n else None
  end.

(** The own keys of an object are enumerated with the array indices
    first, in ascending numeric order, then the other keys in order of
    creation. The rank of a key is its index, or [2^32 - 1], above
    every index. *)
Definition key_rank (k : string) : N := default (2 ^ 32 - 1)%N (array_index k).

(** Assignment to an existing property: the key keeps its place. *)
Fixpoint dict_replace (k : string) (v : Post) (d : PostDict) : PostDict :=
  match d with
  | [] => []
  | (k', v') :: d' =>
      if String.eqb k' k then (k, v) :: d' else (k', v') :: dict_replace k v d'
  end.

(** Creation of a property: an array index goes before the first key
    of higher rank, any other key last. *)
Fixpoint dict_insert (k : string) (v : Post) (d : PostDict) : PostDict :=
  match d with
  | [] => [(k, v)]
  | (k', v') :: d' =>
      if (key_rank k <? key_rank k')%N then (k, v) :: d
      else (k', v') :: dict_insert k v d'
  end.

(** Assignment of one property of a [posts] object. *)
Definition dict_set (k : string) (v : Post) (d : PostDict) : PostDict :=
  if bool_decide (k ∈ d.*1) then dict_replace k v d else dict_insert k v d.

(** The keys of [d] are in the order in which an object enumerates
    them. *)
Definition own_key_order (d : PostDict) : Prop :=
  StronglySorted (fun k k' => (key_rank k ≤ key_rank k')%N) d.*1.

(** [{...target, ...source}]: the own properties of [source], in the
    order in which it enumerates them, assigned to [target]. *)
Definition Object_spread (target source : PostDict) : PostDict :=
  foldl (fun d kv => dict_set kv.1 kv.2 d) target source.

(** [getPost], given the outcome of [Client4.getPost(postId)]. *)
Definition getPost (imp : Imports) (st : GlobalState)
    (response : ClientOutcome Post) : Run Returned :=
  let failure (dispatched : list Action) (error : Exn) : Run Returned :=
    (dispatched ++ forceLogoutIfNecessary imp error
       ++ [batchActions [GET_POSTS_FAILURE error; logError error]],
     Returns (RError error)) in
  match response with
  | Resolved post =>
      match getProfilesAndStatusesForPosts imp st (Some (PostsArray [post])) with
      | (fetches, Returns _) =>
          (fetches ++ [batchActions [RECEIVED_POST (plain post); GET_POSTS_SUCCESS]],
           Returns (RData (DPost post)))
      | (fetches, Throws error) => failure fetches error
      | (fetches, OutOfFuel) => (fetches, OutOfFuel)
      end
  | Rejected error => failure [] error
  end.

(** [Promise.all] over three remote calls: it resolves with the three
    values when all resolve, and rejects with the reason of a call
    that was rejected (the first one to settle so, which the outcomes
    alone do not determine). *)
Inductive Promise_all3 {A B C : Type} :
    ClientOutcome A → ClientOutcome B → ClientOutcome C →
    ClientOutcome (A * B * C) → Prop :=
| all_resolved a b c :
    Promise_all3 (Resolved a) (Resolved b) (Resolved c) (Resolved (a, b, c))
| rejected_1 e rb rc : Promise_all3 (Rejected e) rb rc (Rejected e)
| rejected_2 e ra rc : Promise_all3 ra (Rejected e) rc (Rejected e)
| rejected_3 e ra rb : Promise_all3 ra rb (Rejected e) (Rejected e).

(** [getPostsAround], given what [Promise.all] settled to. *)
Definition getPostsAround (imp : Imports) (st : GlobalState)
    (channelId postId : string)
    (joined : ClientOutcome (CombinedPostList * CombinedPostList * CombinedPostList))
    : Run Returned :=
  match joined with
  | Rejected error =>
      (forceLogoutIfNecessary imp error ++ [logError error],
       Returns (RError error))
  | Resolved (after, thread, before) =>
      (* the order is newest posts first *)
      let combined :=
        {| posts := Object_spread (Object_spread (Object_spread [] (posts after))
                                     (posts thread)) (posts before);
           order := order after ++ [postId] ++ order before;
           next_post_id := next_post_id after;
           prev_post_id := prev_post_id before |} in
      match getProfilesAndStatusesForPosts imp st (Some (PostsMap (posts combined))) with
      | (fetches, Returns _) =>
          (fetches ++
           [batchActions
              [RECEIVED_POSTS combined;
               RECEIVED_POSTS_IN_CHANNEL channelId combined
                 (str_eq (next_post_id after) "")
                 (str_eq (prev_post_id before) "")]],
           Returns (RData (DPosts combined)))
      | (fetches, Throws e) => (fetches, Throws e)
      | (fetches, OutOfFuel) => (fetches, OutOfFuel)
      end
  end.

(** The actions by which received posts reach the store. *)
Fixpoint is_receipt (a : Action) : bool :=
  match a with
  | RECEIVED_POST _ | RECEIVED_NEW_POST _ | RECEIVED_POSTS _
  | RECEIVED_POSTS_IN_CHANNEL _ _ _ _ => true
  | batchActions l => existsb is_receipt l
  | OFFLINE a _ _ _ => is_receipt a
  | _ => false
  end.

(** ** Reactions *)

Definition addReaction (imp : Imports) (st : GlobalState)
    (postId emojiName : string) (response : ClientOutcome Reaction)
    : Run Returned :=
  match response with
  | Rejected error =>
      (forceLogoutIfNecessary imp error ++ [logError error],
       Returns (RError error))
  | Resolved reaction => ([RECEIVED_REACTION reaction], Returns (RData DTrue))
  end.

Definition removeReaction (imp : Imports) (st : GlobalState)
    (postId emojiName : string) (response : ClientOutcome unit)
    : Run Returned :=
  let currentUserId := entities_users_currentUserId st in
  match response with
  | Rejected error =>
      (forceLogoutIfNecessary imp error ++ [logError error],
       Returns (RError error))
  | Resolved _ =>
      ([REACTION_DELETED {| reaction_user_id := currentUserId;
                            reaction_post_id := postId;
                            reaction_emoji_name := emojiName |}],
       Returns (RData DTrue))
  end.

(** ** Posts arriving over the websocket *)

Definition lastPostActions (imp : Imports) (st : GlobalState) (now : Z)
    (post : Post) (websocketMessageProps : WebsocketMessageProps)
    : Run Returned :=
  let state := st in
  let actions :=
    [RECEIVED_NEW_POST post;
     STOP_TYPING (channel_id post +:+ root_id post) (user_id post) now] in
  if shouldIgnorePost imp post then ([batchActions actions], Returns RUndefined)
  else
    let '(markAsRead, markAsReadOnServer) :=
      if str_eq (user_id post) (getCurrentUserId imp state)
         && negb (isSystemMessage imp post)
         && negb (isFromWebhook imp post)
      then (true, false)
      else if str_eq (channel_id post) (getCurrentChannelId imp state)
      then (true, true)
      else (false, false) in
    if markAsRead then
      ([batchActions actions;
        markChannelAsRead (channel_id post) markAsReadOnServer;
        markChannelAsViewed (channel_id post)],
       Returns RUndefined)
    else
      ([batchActions actions;
        markChannelAsUnread (team_id websocketMessageProps) (channel_id post)
          (mentions websocketMessageProps)],
       Returns RUndefined).

(** ** The claim of the specification on emoji scanning, as worded

    "Emoji scanning is skipped entirely for a post if that post
    already carries resolved emoji metadata from the server, and
    skipped globally if custom emoji are administratively disabled":
    each post is judged on its own metadata. *)
Definition getNeededCustomEmojis_per_post (imp : Imports) (st : GlobalState)
    (posts : list Post) : gset string :=
  if negb (opt_str_eq (getConfig_EnableCustomEmoji imp st) "true") then ∅
  else
    foldl (fun acc post =>
             if bool_decide (is_Some (metadata post)) then acc
             else emoji_step imp st acc post)
          ∅ posts.

(** ** A concrete instance of the imports

    Used to evaluate the actions on concrete inputs; the properties
    below are proved for every instance. *)

(** Modelled from the spec: [parseNeededCustomEmojisFromText] of
    [utils/emoji_utils], which is not among the sources: "custom emoji
    names referenced via ":name:" syntax [...] that are neither
    built-in, already-cached, nor previously confirmed non-existent".
    [cur] holds the name read since the last opening colon. *)
Fixpoint scan_emoji_names (s : list ascii) (cur : option (list ascii))
    : list string :=
  match s with
  | [] => []
  | c :: s' =>
      if Ascii.eqb c ":" then
        match cur with
        | Some (n :: ns) =>
            string_of_list_ascii (n :: ns) :: scan_emoji_names s' None
        | _ => scan_emoji_names s' (Some [])
        end
      else if class_word_i c || Ascii.eqb c "-" then
        scan_emoji_names s' ((fun n => n ++ [c]) <$> cur)
      else scan_emoji_names s' None
  end.

Definition parse_emoji_names (text : string) (systemEmojis : gset string)
    (customEmojisByName : gmap string CustomEmoji)
    (nonExistentEmoji : gset string) : gset string :=
  list_to_set
    (filter (fun n => (n ∉ systemEmojis) ∧ (n ∉ nonExistentEmoji)
                      ∧ (customEmojisByName !! n = None))
            (scan_emoji_names (list_ascii_of_string text) None)).

(** [s.startsWith(p)]. *)
Definition startsWith (p s : string) : bool := String.prefix p s.

Definition reference_imports : Imports :=
  {| COMBINED_USER_ACTIVITY := "system_combined_user_activity";
     SPECIAL_MENTIONS := ["all"; "channel"; "here"];
     systemEmojis := {["smile"]};
     Selectors_getPost := fun st postId => entities_posts_posts st !! postId;
     Selectors_isPostIdSending := fun st postId =>
       bool_decide (postId ∈ entities_posts_pendingPostIds st);
     getCurrentUserId := entities_users_currentUserId;
     getCurrentChannelId := entities_channels_currentChannelId;
     getConfig_EnableCustomEmoji := fun st =>
       entities_general_config st !! "EnableCustomEmoji";
     getUsersByUsername := fun st =>
       list_to_map ((fun p => (username p, p))
                      <$> (map_to_list (entities_users_profiles st)).*2);
     selectCustomEmojisByName := fun st =>
       list_to_map ((fun e => (emoji_name e, e))
                      <$> (map_to_list (entities_emojis_customEmoji st)).*2);
     parseNeededCustomEmojisFromText := parse_emoji_names;
     isFromWebhook := fun post =>
       match props post with
       | Some pr => str_eq (from_webhook pr) "true"
       | None => false
       end;
     isSystemMessage := fun post => startsWith "system_" (type post);
     shouldIgnorePost := fun post => str_eq (type post) "system_add_remove";
     isSessionExpired := fun error =>
       match error with
       | ClientError e => Z.eqb (status_code e) 401
       | TypeError => false
       end |}.

(** A post with a given identifier, author, channel and message. *)
Definition sample_post (i author channel msg : string) : Post :=
  {| id := Some i; pending_post_id := None; channel_id := channel;
     user_id := author; root_id := ""; message := msg; type := "";
     create_at := 1000; update_at := 1000; file_ids := None;
     is_pinned := false; failed := false; metadata := None; props := None |}.

(** A draft: no identifier yet. *)
Definition sample_draft (channel msg : string) : Post :=
  set_id None (sample_post "" "" channel msg).

Definition with_metadata (p : Post) : Post :=
  {| id := id p; pending_post_id := pending_post_id p;
     channel_id := channel_id p; user_id := user_id p; root_id := root_id p;
     message := message p; type := type p; create_at := create_at p;
     update_at := update_at p; file_ids := file_ids p;
     is_pinned := is_pinned p; failed := failed p;
     metadata := Some {| emojis := [] |}; props := props p |}.

Definition with_type (t : string) (p : Post) : Post :=
  {| id := id p; pending_post_id := pending_post_id p;
     channel_id := channel_id p; user_id := user_id p; root_id := root_id p;
     message := message p; type := t; create_at := create_at p;
     update_at := update_at p; file_ids := file_ids p;
     is_pinned := is_pinned p; failed := failed p;
     metadata := metadata p; props := props p |}.

(** A state: user [me] looking at channel [town], custom emoji on. *)
Definition sample_state (stored : gmap string Post) (pending : list string)
    : GlobalState :=
  {| entities_users_currentUserId := "me";
     entities_users_profiles := ∅;
     entities_users_statuses := ∅;
     entities_posts_posts := stored;
     entities_posts_pendingPostIds := pending;
     entities_files_files := ∅;
     entities_channels_currentChannelId := "town";
     entities_general_config := {["EnableCustomEmoji" := "true"]};
     entities_emojis_customEmoji := ∅;
     entities_emojis_nonExistentEmoji := ∅ |}.

(** The combined system-activity post over the members [ids]. *)
Definition sample_combined (imp : Imports) (i : string) (ids : list string)
    : ExtendedPost :=
  {| base := with_type (COMBINED_USER_ACTIVITY imp) (sample_post i "" "town" "");
     system_post_ids := Some ids |}.

Definition sample_page (ids : list string) : CombinedPostList :=
  {| posts := []; order := ids; next_post_id := ""; prev_post_id := "" |}.

(** ** Observations on a run *)

(** The remote deletes a run has issued: the post identifiers handed
    to [Client4.deletePost], in order. *)
Definition issued_deletes (acts : list Action) : list (option string) :=
  omap (fun a =>
          match a with
          | OFFLINE _ (Client4_deletePost postId) _ _ => Some postId
          | _ => None
          end) acts.

(** The posts a run has removed from the store, in order. *)
Definition removed_posts (acts : list Action) : list ExtendedPost :=
  omap (fun a => match a with POST_REMOVED d => Some d | _ => None end) acts.

(** What [deletePost] dispatches for a single post. *)
Definition delete_action (post : ExtendedPost) : Action :=
  OFFLINE (POST_DELETED post) (Client4_deletePost (id (base post)))
    (fun _ => [DO_NOTHING])
    (fun _ _ _ => ([RECEIVED_POST post], Returns tt)).

(** The store keeps every post under the post's own identifier. *)
Definition keyed_by_id (imp : Imports) (st : GlobalState) : Prop :=
  ∀ k p, Selectors_getPost imp st k = Some p → id p = Some k.

(** A uniform result object: [{data}] or [{error}]. *)
Definition is_uniform (r : Returned) : bool :=
  match r with
  | RData _ | RError _ => true
  | RUndefined => false
  end.

(** ** The claim of the specification on mention scanning, as worded

    "A leading @ followed by alphanumeric/._- characters, trimming
    trailing punctuation to produce a canonical candidate and a
    punctuation-preserving candidate". *)

(** The longest run of alphanumeric/._- characters at the head. *)
Fixpoint name_run (s : list ascii) : list ascii :=
  match s with
  | c :: s' => if class_name_i c then c :: name_run s' else []
  | [] => []
  end.

(** A run without its trailing punctuation. *)
Fixpoint trim_punct (run : list ascii) : list ascii :=
  match run with
  | [] => []
  | c :: r =>
      match trim_punct r with
      | [] => if class_punct c then [] else [c]
      | t => c :: t
      end
  end.

(** The two candidates of the mention that starts at position [i], if
    one does: the punctuation-preserving one, then the canonical one.
    The [@] is leading when no letter, digit or underscore precedes
    it; the run must keep a character once trimmed. *)
Definition mention_candidates (s : list ascii) (i : nat) : option (string * string) :=
  let prev := match i with O => None | S j => s !! j end in
  match drop i s with
  | c :: rest =>
      if Ascii.eqb c "@" && negb (IsWordChar prev) then
        match trim_punct (name_run rest) with
        | [] => None
        | t => Some (string_of_list_ascii (name_run rest), string_of_list_ascii t)
        end
      else None
  | [] => None
  end.

(** A candidate pair is demanded when its canonical form is not a
    reserved mention and neither form resolves to a cached profile. *)
Definition demanded (imp : Imports) (usersByUsername : gmap string UserProfile)
    (candidates : string * string) : Prop :=
  (candidates.2 ∉ SPECIAL_MENTIONS imp)
  ∧ usersByUsername !! candidates.1 = None
  ∧ usersByUsername !! candidates.2 = None.

(** What the code demands: a demanded pair neither form of which is
    the name of a member of [Object.prototype]. *)
Definition demanded_by_code (imp : Imports)
    (usersByUsername : gmap string UserProfile)
    (candidates : string * string) : Prop :=
  demanded imp usersByUsername candidates
  ∧ (candidates.1 ∉ Object_prototype_keys)
  ∧ (candidates.2 ∉ Object_prototype_keys).

(** ** The other thunks of the module

    The single-call fetches, pinning, the reaction list and
    [createPostImmediately]. *)

(** [obj[k]] on a [posts] object. *)
Fixpoint dict_get (k : string) (d : PostDict) : option Post :=
  match d with
  | [] => None
  | (k', v) :: d' => if String.eqb k' k then Some v else dict_get k d'
  end.

(** [{...p, is_pinned: v}]. *)
Definition set_is_pinned (v : bool) (p : Post) : Post :=
  {| id := id p; pending_post_id := pending_post_id p;
     channel_id := channel_id p; user_id := user_id p; root_id := root_id p;
     message := message p; type := type p; create_at := create_at p;
     update_at := update_at p; file_ids := file_ids p;
     is_pinned := v; failed := failed p;
     metadata := metadata p; props := props p |}.

(** [getPosts], given the outcome of [Client4.getPosts]. *)
Definition getPosts (imp : Imports) (st : GlobalState) (channelId : string)
    (page : Z) (response : ClientOutcome CombinedPostList) : Run Returned :=
  let failure (dispatched : list Action) (error : Exn) : Run Returned :=
    (dispatched ++ forceLogoutIfNecessary imp error ++ [logError error],
     Returns (RError error)) in
  match response with
  | Resolved received =>
      match getProfilesAndStatusesForPosts imp st (Some (PostsMap (posts received))) with
      | (fetches, Returns _) =>
          (fetches ++
           [batchActions
              [RECEIVED_POSTS received;
               RECEIVED_POSTS_IN_CHANNEL channelId received
                 (Z.eqb page 0) (str_eq (prev_post_id received) "")]],
           Returns (RData (DPosts received)))
      | (fetches, Throws error) => failure fetches error
      | (fetches, OutOfFuel) => (fetches, OutOfFuel)
      end
  | Rejected error => failure [] error
  end.

(** What the other thunks dispatch: the actions above, the further
    action types and thunks they use, and [batchActions] over both.
    [removePost_thunk post] is the thunk [removePost(post)] put, as a
    value, among the actions of a batch;
    [RECEIVED_POSTS_WITH_CHANNEL data channelId] is the action
    [{type: RECEIVED_POSTS, data, channelId}] of [getPostsUnread]. *)
Inductive PostAction :=
| ACTION (a : Action)
| EDIT_POST_REQUEST
| EDIT_POST_SUCCESS
| EDIT_POST_FAILURE (error : Exn)
| GET_POST_THREAD_REQUEST
| GET_POST_THREAD_SUCCESS
| GET_POST_THREAD_FAILURE (error : Exn)
| GET_POSTS_SINCE_SUCCESS
| RECEIVED_POSTS_IN_THREAD (data : CombinedPostList) (rootId : string)
| RECEIVED_POSTS_AFTER (channelId : string) (data : CombinedPostList)
    (afterPostId : string) (recent : bool)
| RECEIVED_POSTS_BEFORE (channelId : string) (data : CombinedPostList)
    (beforePostId : string) (oldest : bool)
| RECEIVED_POSTS_SINCE (channelId : string) (data : CombinedPostList)
| RECEIVED_POSTS_WITH_CHANNEL (data : CombinedPostList) (channelId : string)
| RECEIVED_REACTIONS (data : option (list Reaction)) (postId : string)
| getCustomEmojiByName (name : string)
| removePost_thunk (post : ExtendedPost)
| BATCH (actions : list PostAction).

Definition PostRun (A : Type) : Type := (list PostAction * Outcome A)%type.

(** A result object over any payload. *)
Inductive ResultOf (D : Type) :=
| WithData (d : D)
| WithError (e : Exn).
Arguments WithData {D} d.
Arguments WithError {D} e.

(** The [catch] block the single-call fetches share. *)
Definition fetch_failure {D : Type} (imp : Imports) (dispatched : list PostAction)
    (error : Exn) : PostRun (ResultOf D) :=
  (dispatched ++ (ACTION <$> forceLogoutIfNecessary imp error)
     ++ [ACTION (logError error)],
   Returns (WithError error)).

(** [getPostThread], given the outcome of [Client4.getPostThread]. *)
Definition getPostThread (imp : Imports) (st : GlobalState) (rootId : string)
    (response : ClientOutcome CombinedPostList)
    : PostRun (ResultOf CombinedPostList) :=
  let failure (dispatched : list PostAction) (error : Exn)
      : PostRun (ResultOf CombinedPostList) :=
    (dispatched ++ (ACTION <$> forceLogoutIfNecessary imp error)
       ++ [BATCH [GET_POST_THREAD_FAILURE error; ACTION (logError error)]],
     Returns (WithError error)) in
  match response with
  | Resolved received =>
      match getProfilesAndStatusesForPosts imp st (Some (PostsMap (posts received))) with
      | (fetches, Returns _) =>
          (GET_POST_THREAD_REQUEST :: (ACTION <$> fetches) ++
           [BATCH [ACTION (RECEIVED_POSTS received);
                   RECEIVED_POSTS_IN_THREAD received rootId;
                   GET_POST_THREAD_SUCCESS]],
           Returns (WithData received))
      | (fetches, Throws error) =>
          failure (GET_POST_THREAD_REQUEST :: (ACTION <$> fetches)) error
      | (fetches, OutOfFuel) =>
          (GET_POST_THREAD_REQUEST :: (ACTION <$> fetches), OutOfFuel)
      end
  | Rejected error => failure [GET_POST_THREAD_REQUEST] error
  end.

(** The shape [getPostsUnread], [getPostsSince], [getPostsBefore] and
    [getPostsAfter] share: prefetch inside the [try], then the
    dispatches of the success path. *)
Definition fetch_then (imp : Imports) (st : GlobalState)
    (response : ClientOutcome CombinedPostList)
    (success : CombinedPostList → list PostAction)
    : PostRun (ResultOf CombinedPostList) :=
  match response with
  | Resolved received =>
      match getProfilesAndStatusesForPosts imp st (Some (PostsMap (posts received))) with
      | (fetches, Returns _) =>
          ((ACTION <$> fetches) ++ success received, Returns (WithData received))
      | (fetches, Throws error) => fetch_failure imp (ACTION <$> fetches) error
      | (fetches, OutOfFuel) => (ACTION <$> fetches, OutOfFuel)
      end
  | Rejected error => fetch_failure imp [] error
  end.

Definition getPostsUnread (imp : Imports) (st : GlobalState) (channelId : string)
    (response : ClientOutcome CombinedPostList)
    : PostRun (ResultOf CombinedPostList) :=
  fetch_then imp st response (fun received =>
    [BATCH [ACTION (RECEIVED_POSTS received);
            ACTION (RECEIVED_POSTS_IN_CHANNEL channelId received
                      (str_eq (next_post_id received) "")
                      (str_eq (prev_post_id received) ""))];
     RECEIVED_POSTS_WITH_CHANNEL received channelId]).

Definition getPostsSince (imp : Imports) (st : GlobalState) (channelId : string)
    (response : ClientOutcome CombinedPostList)
    : PostRun (ResultOf CombinedPostList) :=
  fetch_then imp st response (fun received =>
    [BATCH [ACTION (RECEIVED_POSTS received);
            RECEIVED_POSTS_SINCE channelId received;
            GET_POSTS_SINCE_SUCCESS]]).

Definition getPostsBefore (imp : Imports) (st : GlobalState)
    (channelId postId : string) (response : ClientOutcome CombinedPostList)
    : PostRun (ResultOf CombinedPostList) :=
  fetch_then imp st response (fun received =>
    [BATCH [ACTION (RECEIVED_POSTS received);
            RECEIVED_POSTS_BEFORE channelId received postId
              (str_eq (prev_post_id received) "")]]).

Definition getPostsAfter (imp : Imports) (st : GlobalState)
    (channelId postId : string) (response : ClientOutcome CombinedPostList)
    : PostRun (ResultOf CombinedPostList) :=
  fetch_then imp st response (fun received =>
    [BATCH [ACTION (RECEIVED_POSTS received);
            RECEIVED_POSTS_AFTER channelId received postId
              (str_eq (next_post_id received) "")]]).

(** The body [pinPost] and [unpinPost] share, up to the flag they
    write. [st] is the state read after the remote call. *)
Definition pin_unpin {A : Type} (pinned : bool) (imp : Imports) (st : GlobalState)
    (now : Z) (postId : string) (response : ClientOutcome A)
    : PostRun (ResultOf A) :=
  match response with
  | Rejected error =>
      (EDIT_POST_REQUEST :: (ACTION <$> forceLogoutIfNecessary imp error)
         ++ [BATCH [EDIT_POST_FAILURE error; ACTION (logError error)]],
       Returns (WithError error))
  | Resolved ack =>
      let actions :=
        EDIT_POST_SUCCESS ::
        match Selectors_getPost imp st postId with
        | Some post =>
            [ACTION (RECEIVED_POST
                       (plain (set_update_at now (set_is_pinned pinned post))))]
        | None => []
        end in
      ([EDIT_POST_REQUEST; BATCH actions], Returns (WithData ack))
  end.

Definition pinPost {A : Type} := @pin_unpin A true.

Definition unpinPost {A : Type} := @pin_unpin A false.

(** The test on an emoji name the two reaction thunks share: a system
    emoji, a name known not to exist, or a cached custom emoji. *)
Definition emoji_is_known (imp : Imports) (st : GlobalState) (name : string) : bool :=
  bool_decide (name ∈ systemEmojis imp)
  || bool_decide (name ∈ entities_emojis_nonExistentEmoji st)
  || bool_decide (is_Some (selectCustomEmojisByName imp st !! name)).

(** What [getCustomEmojiForReaction] returns: [{data: true}], or
    whatever the dispatched [getCustomEmojiByName] returns. *)
Inductive EmojiLookup :=
| AlreadyKnown
| Delegated.

Definition getCustomEmojiForReaction (imp : Imports) (st : GlobalState)
    (name : string) : PostRun EmojiLookup :=
  if bool_decide (name ∈ systemEmojis imp) then ([], Returns AlreadyKnown)
  else if bool_decide (name ∈ entities_emojis_nonExistentEmoji st)
  then ([], Returns AlreadyKnown)
  else if bool_decide (is_Some (selectCustomEmojisByName imp st !! name))
  then ([], Returns AlreadyKnown)
  else ([getCustomEmojiByName name], Returns Delegated).

(** What [getReactionsForPost] returns: the reactions themselves on
    success, [{error}] on failure. *)
Inductive ReactionsReturned :=
| BareReactions (reactions : option (list Reaction))
| ReactionsError (e : Exn).

(** [getReactionsForPost]; the server may answer with [null]. *)
Definition getReactionsForPost (imp : Imports) (st : GlobalState)
    (postId : string) (response : ClientOutcome (option (list Reaction)))
    : PostRun ReactionsReturned :=
  match response with
  | Rejected error =>
      ((ACTION <$> forceLogoutIfNecessary imp error) ++ [ACTION (logError error)],
       Returns (ReactionsError error))
  | Resolved reactions =>
      let load :=
        match reactions with
        | Some (r :: l) =>
            let emojisToLoad : gset string :=
              foldl (fun emojisToLoad r =>
                       let name := reaction_emoji_name r in
                       if bool_decide (name ∈ systemEmojis imp) then emojisToLoad
                       else if bool_decide
                                 (name ∈ entities_emojis_nonExistentEmoji st)
                       then emojisToLoad
                       else if bool_decide
                                 (is_Some (selectCustomEmojisByName imp st !! name))
                       then emojisToLoad
                       else {[name]} ∪ emojisToLoad)
                    ∅ (r :: l) in
            [ACTION (getCustomEmojisByName emojisToLoad)]
        | _ => []
        end in
      (load ++ [BATCH [RECEIVED_REACTIONS reactions postId]],
       Returns (BareReactions reactions))
  end.

(** [createPostImmediately], given the outcome of
    [Client4.createPost]. *)
Definition createPostImmediately (imp : Imports) (st : GlobalState) (now : Z)
    (post : Post) (files : list (option FileInfo))
    (response : ClientOutcome Post) : PostRun Returned :=
  let state := st in
  let currentUserId := entities_users_currentUserId state in
  let timestamp := now in
  let pendingPostId := currentUserId +:+ ":" +:+ number_toString timestamp in
  let newPost :=
    set_update_at timestamp
      (set_create_at timestamp
         (set_pending_post_id (Some pendingPostId) post)) in
  let continue (first : list PostAction) (newPost : Post) : PostRun Returned :=
    let optimistic := ACTION (RECEIVED_NEW_POST
                                (createPost_optimistic_data newPost pendingPostId)) in
    match response with
    | Resolved created =>
        let newPost := set_id (id created) newPost in
        (first ++
         [optimistic;
          BATCH (ACTION <$>
                   [RECEIVED_POST (plain newPost);
                    CREATE_POST_SUCCESS;
                    INCREMENT_TOTAL_MSG_COUNT (channel_id newPost) 1;
                    DECREMENT_UNREAD_MSG_COUNT (channel_id newPost) 1;
                    RECEIVED_FILES_FOR_POST (id newPost) files])],
         Returns (RData (DPost newPost)))
    | Rejected error =>
        (first ++ [optimistic] ++ (ACTION <$> forceLogoutIfNecessary imp error)
           ++ [BATCH [ACTION (CREATE_POST_FAILURE error);
                      removePost_thunk
                        (plain (createPost_optimistic_data newPost pendingPostId));
                      ACTION (logError error)]],
         Returns (RError error))
    end in
  if negb (Nat.eqb (length files) 0) then
    match mapM (fmap file_id) files with
    | None => ([], Throws TypeError)
    | Some fileIds =>
        continue [ACTION (RECEIVED_FILES_FOR_POST (Some pendingPostId) files)]
          (set_file_ids (Some fileIds) newPost)
    end
  else continue [] newPost.

(** ** Observations on the dispatches of the other thunks *)

(** A receipt reaches the store: one of the receipt actions, alone or
    in a batch. *)
Fixpoint is_post_receipt (a : PostAction) : bool :=
  match a with
  | ACTION a => is_receipt a
  | RECEIVED_POSTS_IN_THREAD _ _ | RECEIVED_POSTS_AFTER _ _ _ _
  | RECEIVED_POSTS_BEFORE _ _ _ _ | RECEIVED_POSTS_SINCE _ _
  | RECEIVED_POSTS_WITH_CHANNEL _ _ => true
  | BATCH l => existsb is_post_receipt l
  | _ => false
  end.

(** The post lists an action hands to the store. *)
Fixpoint received_lists (a : Action) : list CombinedPostList :=
  match a with
  | RECEIVED_POSTS data => [data]
  | RECEIVED_POSTS_IN_CHANNEL _ data _ _ => [data]
  | batchActions l => flat_map received_lists l
  | OFFLINE a _ _ _ => received_lists a
  | _ => []
  end.

Fixpoint received_post_lists (a : PostAction) : list CombinedPostList :=
  match a with
  | ACTION a => received_lists a
  | RECEIVED_POSTS_IN_THREAD data _ | RECEIVED_POSTS_AFTER _ data _ _
  | RECEIVED_POSTS_BEFORE _ data _ _ | RECEIVED_POSTS_SINCE _ data
  | RECEIVED_POSTS_WITH_CHANNEL data _ => [data]
  | BATCH l => flat_map received_post_lists l
  | _ => []
  end.

(** The posts a run hands to the store with [RECEIVED_POST], batches
    included. *)
Fixpoint received_posts (a : PostAction) : list ExtendedPost :=
  match a with
  | ACTION (RECEIVED_POST d) => [d]
  | BATCH l => flat_map received_posts l
  | _ => []
  end.

(** The texts of a post that the emoji scan hands to the parser: the
    message when it holds a colon, and the text of the attachments
    when there are attachments and their text is not empty. *)
Definition scanned_texts (post : Post) : list string :=
  (if includes ":" (message post) then [message post] else [])
  ++ match props post with
     | Some pr =>
         match attachments pr with
         | Some (a :: l) =>
             if String.eqb (buildPostAttachmentText (a :: l)) "" then []
             else [buildPostAttachmentText (a :: l)]
         | _ => []
         end
     | None => []
     end.

(** * Properties *)

(** ** Fan-out over combined posts *)

Section FanOut.
Context (imp : Imports) (st : GlobalState).

Lemma forEach_returns {A : Type} (body : A → Run Returned)
    (g : A → list Action) (l : list A) :
  (∀ x, ∃ r, body x = (g x, Returns r)) →
  forEach body l = (concat (g <$> l), Returns tt).
Proof.
  intros Hbody. induction l as [|x l IH]; [done|].
  cbn [forEach]. destruct (Hbody x) as [r ->]. by rewrite IH.
Qed.

Lemma per_member_concat {B : Type} (f : Post → B) (ids : list string) :
  concat ((fun k => match Selectors_getPost imp st k with
                    | Some sp => [f sp]
                    | None => []
                    end) <$> ids)
  = f <$> omap (Selectors_getPost imp st) ids.
Proof.
  induction ids as [|k ids IH]; [done|].
  cbn. destruct (Selectors_getPost imp st k); cbn; by rewrite IH.
Qed.

(** A post that is not a combined record is removed as it is. *)
Lemma removePost_fuel_single fuel post :
  (str_eq (type (base post)) (COMBINED_USER_ACTIVITY imp) = false
   ∨ system_post_ids post = None) →
  removePost_fuel (S fuel) imp st post = ([POST_REMOVED post], Returns RUndefined).
Proof.
  intros H. cbn [removePost_fuel].
  destruct H as [-> | ->]; [done|]. by destruct (str_eq _ _).
Qed.

Lemma deletePost_fuel_single fuel post :
  (str_eq (type (base post)) (COMBINED_USER_ACTIVITY imp) = false
   ∨ system_post_ids post = None) →
  deletePost_fuel (S fuel) imp st post = ([delete_action post], Returns (RData DTrue)).
Proof.
  intros H. cbn [deletePost_fuel]. unfold delete_action.
  destruct H as [-> | ->]; [done|]. by destruct (str_eq _ _).
Qed.

Lemma removePost_fuel_combined fuel post ids :
  str_eq (type (base post)) (COMBINED_USER_ACTIVITY imp) = true →
  system_post_ids post = Some ids →
  removePost_fuel (S (S fuel)) imp st post
  = ((fun sp => POST_REMOVED (plain sp)) <$> omap (Selectors_getPost imp st) ids,
     Returns RUndefined).
Proof.
  intros Ht Hids. rewrite <- per_member_concat.
  change (removePost_fuel (S (S fuel)) imp st post) with
    (match str_eq (type (base post)) (COMBINED_USER_ACTIVITY imp),
           system_post_ids post with
     | true, Some ids =>
         match
           forEach (fun systemPostId =>
             match Selectors_getPost imp st systemPostId with
             | Some systemPost => removePost_fuel (S fuel) imp st (plain systemPost)
             | None => ([], Returns RUndefined)
             end) ids
         with
         | (acts, Returns _) => (acts, Returns RUndefined)
         | (acts, Throws e) => (acts, Throws e)
         | (acts, OutOfFuel) => (acts, OutOfFuel)
         end
     | _, _ => ([POST_REMOVED post], Returns RUndefined)
     end).
  rewrite Ht, Hids.
  erewrite forEach_returns; [done|].
  intros k. cbn beta.
  destruct (Selectors_getPost imp st k) as [sp|]; [|by eexists].
  rewrite removePost_fuel_single by (by right). by eexists.
Qed.

Lemma deletePost_fuel_combined fuel post ids :
  str_eq (type (base post)) (COMBINED_USER_ACTIVITY imp) = true →
  system_post_ids post = Some ids →
  deletePost_fuel (S (S fuel)) imp st post
  = ((fun sp => delete_action (plain sp)) <$> omap (Selectors_getPost imp st) ids,
     Returns (RData DTrue)).
Proof.
  intros Ht Hids. rewrite <- per_member_concat.
  change (deletePost_fuel (S (S fuel)) imp st post) with
    (match str_eq (type (base post)) (COMBINED_USER_ACTIVITY imp),
           system_post_ids post with
     | true, Some ids =>
         match
           forEach (fun systemPostId =>
             match Selectors_getPost imp st systemPostId with
             | Some systemPost => deletePost_fuel (S fuel) imp st (plain systemPost)
             | None => ([], Returns RUndefined)
             end) ids
         with
         | (acts, Returns _) => (acts, Returns (RData DTrue))
         | (acts, Throws e) => (acts, Throws e)
         | (acts, OutOfFuel) => (acts, OutOfFuel)
         end
     | _, _ => ([delete_action post], Returns (RData DTrue))
     end).
  rewrite Ht, Hids.
  erewrite forEach_returns; [done|].
  intros k. cbn beta.
  destruct (Selectors_getPost imp st k) as [sp|]; [|by eexists].
  rewrite deletePost_fuel_single by (by right). by eexists.
Qed.

(** The recursion never goes deeper than one nested call: more fuel
    than [removePost] and [deletePost] take changes nothing. *)
Lemma removePost_fuel_enough fuel post :
  removePost_fuel (S (S fuel)) imp st post = removePost imp st post.
Proof.
  unfold removePost.
  destruct (str_eq (type (base post)) (COMBINED_USER_ACTIVITY imp)) eqn:Ht.
  - destruct (system_post_ids post) as [ids|] eqn:Hids.
    + by rewrite !(removePost_fuel_combined _ _ ids).
    + by rewrite !removePost_fuel_single by (by right).
  - by rewrite !removePost_fuel_single by (by left).
Qed.

Lemma deletePost_fuel_enough fuel post :
  deletePost_fuel (S (S fuel)) imp st post = deletePost imp st post.
Proof.
  unfold deletePost.
  destruct (str_eq (type (base post)) (COMBINED_USER_ACTIVITY imp)) eqn:Ht.
  - destruct (system_post_ids post) as [ids|] eqn:Hids.
    + by rewrite !(deletePost_fuel_combined _ _ ids).
    + by rewrite !deletePost_fuel_single by (by right).
  - by rewrite !deletePost_fuel_single by (by left).
Qed.

Lemma removePost_returns post :
  (removePost imp st post).2 = Returns RUndefined.
Proof.
  unfold removePost.
  destruct (str_eq (type (base post)) (COMBINED_USER_ACTIVITY imp)) eqn:Ht.
  - destruct (system_post_ids post) as [ids|] eqn:Hids.
    + by rewrite (removePost_fuel_combined _ _ ids).
    + by rewrite removePost_fuel_single by (by right).
  - by rewrite removePost_fuel_single by (by left).
Qed.

Lemma deletePost_returns post :
  (deletePost imp st post).2 = Returns (RData DTrue).
Proof.
  unfold deletePost.
  destruct (str_eq (type (base post)) (COMBINED_USER_ACTIVITY imp)) eqn:Ht.
  - destruct (system_post_ids post) as [ids|] eqn:Hids.
    + by rewrite (deletePost_fuel_combined _ _ ids).
    + by rewrite deletePost_fuel_single by (by right).
  - by rewrite deletePost_fuel_single by (by left).
Qed.

Lemma issued_deletes_members (l : list Post) :
  issued_deletes ((fun sp => delete_action (plain sp)) <$> l) = id <$> l.
Proof. induction l as [|p l IH]; [done|]. cbn. by rewrite <- IH. Qed.

Lemma removed_posts_members (l : list Post) :
  removed_posts ((fun sp => POST_REMOVED (plain sp)) <$> l) = plain <$> l.
Proof. induction l as [|p l IH]; [done|]. cbn. by rewrite <- IH. Qed.

Lemma cached_member_ids (ids : list string) :
  keyed_by_id imp st →
  id <$> omap (Selectors_getPost imp st) ids
  = Some <$> filter (fun k => is_Some (Selectors_getPost imp st k)) ids.
Proof.
  intros Hkey. induction ids as [|k ids IH]; [done|].
  rewrite filter_cons. cbn [omap list_omap].
  destruct (Selectors_getPost imp st k) as [sp|] eqn:Hk.
  - rewrite decide_True by eauto. rewrite !fmap_cons, IH.
    by rewrite (Hkey _ _ Hk).
  - rewrite decide_False by (by intros [? ?]). done.
Qed.

Lemma all_cached_members (ids : list string) :
  (∀ k, k ∈ ids → is_Some (Selectors_getPost imp st k)) →
  filter (fun k => is_Some (Selectors_getPost imp st k)) ids = ids.
Proof.
  intros Hall. induction ids as [|k ids IH]; [done|].
  rewrite filter_cons, decide_True by (apply Hall; left).
  f_equal. apply IH. intros k' Hk'. apply Hall. by right.
Qed.

End FanOut.

(** The sample store holding the posts [a], [b] and [c]. *)
Lemma sample_store_keyed :
  keyed_by_id reference_imports
    (sample_state
       (<["a" := sample_post "a" "u" "town" ""]>
          (<["b" := sample_post "b" "u" "town" ""]>
             (<["c" := sample_post "c" "u" "town" ""]> ∅))) []).
Proof.
  intros k p. cbn.
  rewrite !lookup_insert, lookup_empty.
  repeat case_decide; naive_solver.
Qed.

(** C4, as amended: for a combined system-activity post with member
    ids [ids], [deletePost] issues one remote delete per member id
    that resolves to a post of the local store, in member order and
    for that stored post; members the store does not hold are skipped,
    so the deletes are as many as the members (three for [a, b, c])
    when all of them are cached.  [removePost] removes the same stored
    members.  When the combined record's identifier is not one of its
    own member ids, no delete and no removal targets it. *)
Theorem combined_post_fan_out (imp : Imports) (st : GlobalState)
    (post : ExtendedPost) (ids : list string) :
  type (base post) = COMBINED_USER_ACTIVITY imp →
  system_post_ids post = Some ids →
  keyed_by_id imp st →
  let cached := filter (fun k => is_Some (Selectors_getPost imp st k)) ids in
  let deleted := (deletePost imp st post).1 in
  let removed := (removePost imp st post).1 in
  deleted = (fun sp => delete_action (plain sp)) <$> omap (Selectors_getPost imp st) ids
  ∧ removed = (fun sp => POST_REMOVED (plain sp)) <$> omap (Selectors_getPost imp st) ids
  ∧ issued_deletes deleted = Some <$> cached
  ∧ (fun d => id (base d)) <$> removed_posts removed = Some <$> cached
  ∧ ((∀ k, k ∈ ids → is_Some (Selectors_getPost imp st k)) →
     issued_deletes deleted = Some <$> ids)
  ∧ (id (base post) ∉ (Some <$> ids) →
     (id (base post) ∉ issued_deletes deleted)
     ∧ (id (base post) ∉ ((fun d => id (base d)) <$> removed_posts removed))).
Proof.
  intros Ht Hids Hkey cached deleted removed.
  assert (str_eq (type (base post)) (COMBINED_USER_ACTIVITY imp) = true) as Hc
    by (by apply String.eqb_eq).
  assert (deleted = (fun sp => delete_action (plain sp))
                      <$> omap (Selectors_getPost imp st) ids) as Hdel.
  { subst deleted. unfold deletePost.
    by rewrite (deletePost_fuel_combined imp st 0 post ids Hc Hids). }
  assert (removed = (fun sp => POST_REMOVED (plain sp))
                      <$> omap (Selectors_getPost imp st) ids) as Hrem.
  { subst removed. unfold removePost.
    by rewrite (removePost_fuel_combined imp st 0 post ids Hc Hids). }
  assert (issued_deletes deleted = Some <$> cached) as Hiss.
  { rewrite Hdel, issued_deletes_members. by apply cached_member_ids. }
  assert ((fun d => id (base d)) <$> removed_posts removed = Some <$> cached)
    as Hrm.
  { rewrite Hrem, removed_posts_members, <- list_fmap_compose.
    by apply cached_member_ids. }
  split_and!; try done.
  - intros Hall. rewrite Hiss. subst cached. by rewrite all_cached_members.
  - intros Hnot. rewrite Hiss, Hrm. split.
    all: intros (k & Hk & Hin)%list_elem_of_fmap; apply Hnot.
    all: apply list_elem_of_fmap; exists k; split; [done|].
    all: subst cached; by apply list_elem_of_filter in Hin as [_ Hin].
Qed.

Lemma combined_post_fan_out_witness :
  let st :=
    sample_state
      (<["a" := sample_post "a" "u" "town" ""]>
         (<["b" := sample_post "b" "u" "town" ""]>
            (<["c" := sample_post "c" "u" "town" ""]> ∅))) [] in
  let post := sample_combined reference_imports "abc" ["a"; "b"; "c"] in
  type (base post) = COMBINED_USER_ACTIVITY reference_imports
  ∧ system_post_ids post = Some ["a"; "b"; "c"]
  ∧ keyed_by_id reference_imports st
  ∧ issued_deletes (deletePost reference_imports st post).1
    = [Some "a"; Some "b"; Some "c"].
Proof.
  intros st post.
  split_and!; [reflexivity | reflexivity | exact sample_store_keyed |].
  refine (proj1 (proj2 (proj2 (proj2 (proj2
    (combined_post_fan_out reference_imports st post ["a"; "b"; "c"]
       eq_refl eq_refl sample_store_keyed))))) _).
  intros k Hk. vm_compute in Hk.
  apply list_elem_of_In in Hk. cbn in Hk.
  destruct Hk as [<- | [<- | [<- | []]]]; vm_compute; eauto.
Defined.

(** C4, as the specification words it, fails: with none of the
    members [a], [b], [c] in the local store, deleting (or removing)
    the combined post issues no delete at all, not three. *)
Lemma combined_post_fan_out_counterexample :
  let st := sample_state ∅ [] in
  let post := sample_combined reference_imports "abc" ["a"; "b"; "c"] in
  issued_deletes (deletePost reference_imports st post).1 = []
  ∧ issued_deletes (deletePost reference_imports st post).1
    ≠ [Some "a"; Some "b"; Some "c"]
  ∧ removed_posts (removePost reference_imports st post).1 = [].
Proof. vm_compute. split_and!; [reflexivity | discriminate | reflexivity]. Qed.

(** ** Uniform results *)

(** C9: [removePost] hands no result object back.  Whatever the post,
    its body ends without a [return], so the caller receives
    [undefined], which is neither [{data}] nor [{error}]; [deletePost],
    which shares its structure, returns [{data: true}]. *)
Theorem removePost_returns_undefined (imp : Imports) (st : GlobalState)
    (post : ExtendedPost) :
  (removePost imp st post).2 = Returns RUndefined
  ∧ is_uniform RUndefined = false
  ∧ (deletePost imp st post).2 = Returns (RData DTrue)
  ∧ removePost reference_imports (sample_state ∅ [])
      (plain (sample_post "p" "me" "town" "hello"))
    = ([POST_REMOVED (plain (sample_post "p" "me" "town" "hello"))],
       Returns RUndefined).
Proof.
  split_and!; [apply removePost_returns | done | apply deletePost_returns | done].
Qed.

(** ** createPost *)

(** C1: the pending identifier of [createPost] is the supplied
    [pending_post_id] when the draft carries a (non-empty) one, and
    [currentUserId:timestamp] otherwise; when a send with that pending
    identifier is outstanding, [createPost] returns [{data: true}]
    having dispatched nothing: no optimistic update, and no deferred
    remote call, which only a dispatched action carries. *)
Theorem createPost_pending_id_dedup (imp : Imports) (st : GlobalState)
    (now : Z) (post : Post) (files : list (option FileInfo)) :
  let pendingPostId := createPost_pendingPostId st now post in
  (∀ supplied, pending_post_id post = Some supplied → supplied ≠ "" →
     pendingPostId = supplied)
  ∧ (truthy_string (pending_post_id post) = false →
     pendingPostId
     = entities_users_currentUserId st +:+ ":" +:+ number_toString now)
  ∧ (Selectors_isPostIdSending imp st pendingPostId = true →
     createPost imp st now post files = ([], Returns (RData DTrue))).
Proof.
  intros pendingPostId. subst pendingPostId.
  unfold createPost_pendingPostId, or_else, truthy_string. split_and!.
  - intros supplied -> Hne.
    destruct (String.eqb supplied "") eqn:He; [|done].
    by apply String.eqb_eq in He.
  - destruct (pending_post_id post) as [s|]; [|done].
    by destruct (String.eqb s "").
  - intros Hsending. unfold createPost.
    unfold createPost_pendingPostId, or_else in *. by rewrite Hsending.
Qed.

Lemma createPost_pending_id_dedup_witness :
  let st := sample_state ∅ ["me:1500"] in
  let post := sample_draft "town" "hello" in
  createPost_pendingPostId st 1500 post = "me:1500"
  ∧ Selectors_isPostIdSending reference_imports st "me:1500" = true
  ∧ createPost reference_imports st 1500 post [] = ([], Returns (RData DTrue)).
Proof.
  intros st post.
  pose proof (createPost_pending_id_dedup reference_imports st 1500 post [])
    as (_ & Hgen & Hdedup).
  split_and!.
  - exact (Hgen eq_refl).
  - reflexivity.
  - exact (Hdedup eq_refl).
Defined.

Lemma in_remove_on_failure (error : Exn) :
  is_remove_on_failure error = true ↔
  exn_server_error_id error ∈
    [Some "api.post.create_post.root_id.app_error";
     Some "api.post.create_post.town_square_read_only";
     Some "plugin.message_will_be_posted.dismiss_post"].
Proof.
  unfold is_remove_on_failure, opt_str_eq.
  rewrite !orb_true_iff, !elem_of_cons, elem_of_nil.
  destruct (exn_server_error_id error) as [s|].
  - rewrite !String.eqb_eq. intuition congruence.
  - intuition congruence.
Qed.

(** What the rollback of a failed send leaves in the store. *)
Lemma createPost_rollback_store (imp : Imports) (newPost : Post)
    (pendingPostId : string) (st : GlobalState) (now : Z) (error : Exn)
    (store : gmap string Post) :
  let data := createPost_failed_data newPost pendingPostId now in
  let run := createPost_rollback imp newPost pendingPostId st now error in
  run.2 = Returns tt
  ∧ (if is_remove_on_failure error
     then run.1 = [CREATE_POST_FAILURE error; POST_REMOVED (plain data)]
          ∧ dispatch_all run.1 store !! pendingPostId = None
     else run.1 = [CREATE_POST_FAILURE error; RECEIVED_POST (plain data)]
          ∧ dispatch_all run.1 store !! pendingPostId = Some data).
Proof.
  intros data run. subst run. unfold createPost_rollback. fold data.
  destruct (is_remove_on_failure error).
  - unfold removePost.
    rewrite removePost_fuel_single by (by right). cbn.
    split_and!; try done. apply lookup_delete_eq.
  - cbn. split_and!; try done. apply lookup_insert_eq.
Qed.

(** C2: when the remote call of [createPost] fails, its rollback
    builds the failed record (the draft under the pending identifier,
    [failed = true], the time of the rollback as update timestamp) and
    classifies the failure by the server error identifier. On one of
    the three known rejection reasons it dispatches the removal of
    that record, and the store holds nothing at the pending identifier
    afterwards; on any other failure it dispatches the record as a
    received post, and the store holds it at the pending identifier,
    with [failed = true] and the refreshed update timestamp. *)
Theorem createPost_failure_classification (imp : Imports) (st : GlobalState)
    (now : Z) (post : Post) (files : list (option FileInfo))
    (action : Action) (effect : ClientCall) (commit : Post → list Action)
    (rollback : GlobalState → Z → Exn → list Action * Outcome unit) :
  OFFLINE action effect commit rollback ∈ (createPost imp st now post files).1 →
  ∀ (st' : GlobalState) (now' : Z) (error : Exn) (store : gmap string Post),
    let pendingPostId := createPost_pendingPostId st now post in
    let known :=
      exn_server_error_id error ∈
        [Some "api.post.create_post.root_id.app_error";
         Some "api.post.create_post.town_square_read_only";
         Some "plugin.message_will_be_posted.dismiss_post"] in
    let dispatched := (rollback st' now' error).1 in
    let after := dispatch_all dispatched store in
    (rollback st' now' error).2 = Returns tt
    ∧ ∃ data,
        id data = Some pendingPostId
        ∧ failed data = true ∧ update_at data = now'
        ∧ message data = message post ∧ channel_id data = channel_id post
        ∧ (known →
           dispatched = [CREATE_POST_FAILURE error; POST_REMOVED (plain data)]
           ∧ after !! pendingPostId = None)
        ∧ (¬ known →
           dispatched = [CREATE_POST_FAILURE error; RECEIVED_POST (plain data)]
           ∧ after !! pendingPostId = Some data).
Proof.
  intros Hin st' now' error store pendingPostId known dispatched after.
  assert (∃ newPost, rollback = createPost_rollback imp newPost pendingPostId
                     ∧ message newPost = message post
                     ∧ channel_id newPost = channel_id post)
    as (newPost & -> & Hmsg & Hch).
  { revert Hin. unfold createPost. fold pendingPostId.
    destruct (Selectors_isPostIdSending imp st pendingPostId).
    { cbn. intros []%elem_of_nil. }
    match goal with
    | |- context [negb (Nat.eqb (length ?fs) 0)] =>
        destruct (negb (Nat.eqb (length fs) 0)); [destruct (mapM _ fs)|]
    end; cbn.
    - intros [Hin | [Hin | []%elem_of_nil]%elem_of_cons]%elem_of_cons;
        [discriminate|].
      injection Hin as _ _ _ ->. by eexists.
    - intros []%elem_of_nil.
    - intros [Hin | []%elem_of_nil]%elem_of_cons.
      injection Hin as _ _ _ ->. by eexists. }
  subst after dispatched.
  pose proof (createPost_rollback_store imp newPost pendingPostId st' now'
                error store) as (Hret & Hstore).
  cbn zeta in Hret, Hstore. split; [done|].
  exists (createPost_failed_data newPost pendingPostId now').
  split_and!; try done.
  - intros Hknown%in_remove_on_failure. by rewrite Hknown in Hstore.
  - intros Hother. destruct (is_remove_on_failure error) eqn:Hk; [|done].
    by apply in_remove_on_failure in Hk.
Qed.

Lemma createPost_failure_classification_witness :
  let st := sample_state ∅ [] in
  let post := sample_draft "town" "hello" in
  let newPost :=
    set_update_at 1500 (set_create_at 1500
      (set_pending_post_id (Some "me:1500") post)) in
  let rollback := createPost_rollback reference_imports newPost "me:1500" in
  let optimistic : gmap string Post :=
    {["me:1500" := createPost_optimistic_data newPost "me:1500"]} in
  let timeout :=
    ClientError {| server_error_id := None; status_code := 0;
                   error_message := "timeout" |} in
  OFFLINE (RECEIVED_NEW_POST (createPost_optimistic_data newPost "me:1500"))
    (Client4_createPost (set_create_at 0 newPost))
    (createPost_commit newPost []) rollback
    ∈ (createPost reference_imports st 1500 post []).1
  ∧ (rollback st 1600%Z timeout).2 = Returns tt
  ∧ ∃ data,
      id data = Some "me:1500" ∧ failed data = true ∧ update_at data = 1600%Z
      ∧ dispatch_all (rollback st 1600%Z timeout).1 optimistic !! "me:1500"
        = Some data.
Proof.
  intros st post newPost rollback optimistic timeout.
  assert (OFFLINE (RECEIVED_NEW_POST (createPost_optimistic_data newPost "me:1500"))
            (Client4_createPost (set_create_at 0 newPost))
            (createPost_commit newPost []) rollback
          ∈ (createPost reference_imports st 1500 post []).1) as Hin
    by (apply list_elem_of_here).
  destruct (createPost_failure_classification _ _ _ _ _ _ _ _ _
              Hin st 1600%Z timeout optimistic)
    as (Hret & data & Hid & Hfailed & Hupdate & _ & _ & _ & Hother).
  split_and!; [exact Hin | exact Hret |].
  exists data. split_and!; [exact Hid | exact Hfailed | exact Hupdate |].
  apply Hother. intros Hk%list_elem_of_In. cbn in Hk.
  destruct Hk as [Hk | [Hk | [Hk | []]]]; discriminate Hk.
Defined.

(** ** The mention pattern *)

Lemma class_punct_not_word (c : ascii) :
  class_punct c = true → class_word_i c = false.
Proof.
  unfold class_punct. intros [H | H]%orb_true_iff;
    apply Ascii.eqb_eq in H; by subst c.
Qed.

Lemma class_name_i_at : class_name_i "@" = false.
Proof. reflexivity. Qed.

(** The backtracking match of group 2 finds the name run without its
    trailing punctuation. *)
Lemma match_group2_trim (s : list ascii) :
  match_group2 s =
  match trim_punct (name_run s) with
  | [] => None
  | t => Some (t, drop (length t) s)
  end.
Proof.
  induction s as [|c s IH]; [done|].
  cbn [match_group2 name_run]. unfold class_name_i.
  destruct (class_word_i c) eqn:Hw; cbn [orb].
  - cbn [trim_punct]. rewrite IH.
    destruct (trim_punct (name_run s)) as [|c' t]; [|done].
    destruct (class_punct c) eqn:Hp; [|done].
    apply class_punct_not_word in Hp. congruence.
  - destruct (class_punct c) eqn:Hp; [|done].
    cbn [trim_punct]. rewrite IH.
    destruct (trim_punct (name_run s)) as [|c' t]; [|done].
    by rewrite Hp.
Qed.

Lemma match_punct_app (s : list ascii) :
  (match_punct s).1 ++ (match_punct s).2 = s.
Proof.
  induction s as [|c s IH]; [done|]. cbn.
  destruct (class_punct c); [|done].
  destruct (match_punct s) as [t r]. cbn in *. by rewrite IH.
Qed.

(** Putting the trimmed run and the punctuation that follows it back
    together gives the run, whatever comes after the run, as long as
    that does not start with punctuation. *)
Lemma trim_punct_restore (run rest : list ascii) :
  (∀ c, head rest = Some c → class_punct c = false) →
  trim_punct run
    ++ (match_punct (drop (length (trim_punct run)) (run ++ rest))).1
  = run.
Proof.
  intros Hrest. induction run as [|c r IH].
  - cbn. destruct rest as [|c rest]; [done|].
    cbn. by rewrite (Hrest c eq_refl).
  - cbn [trim_punct]. destruct (trim_punct r) as [|c' t] eqn:Ht.
    + cbn in IH. rewrite drop_0 in IH. destruct (class_punct c) eqn:Hp; cbn.
      * rewrite Hp. destruct (match_punct (r ++ rest)) as [t' r'].
        cbn in *. by rewrite IH.
      * rewrite drop_0. by rewrite IH.
    + cbn. cbn in IH. by rewrite IH.
Qed.

Lemma name_run_split (s : list ascii) :
  s = name_run s ++ drop (length (name_run s)) s
  ∧ ∀ c, head (drop (length (name_run s)) s) = Some c → class_name_i c = false.
Proof.
  induction s as [|c s [IH1 IH2]]; [done|].
  cbn. destruct (class_name_i c) eqn:Hc; cbn.
  - split; [by rewrite <- IH1 | done].
  - split; [done|]. by intros ? [= <-].
Qed.

Lemma name_run_Forall (s : list ascii) :
  Forall (fun c => class_name_i c = true) (name_run s).
Proof.
  induction s as [|c s IH]; cbn; [done|].
  destruct (class_name_i c) eqn:Hc; by constructor.
Qed.

Lemma name_run_length (s : list ascii) : length (name_run s) ≤ length s.
Proof.
  induction s as [|c s IH]; cbn; [done|].
  destruct (class_name_i c); cbn; lia.
Qed.

Lemma drop_cons_inv {A : Type} (s : list A) (i : nat) (c : A) (rest : list A) :
  drop i s = c :: rest → s !! i = Some c ∧ drop (S i) s = rest.
Proof.
  revert i. induction s as [|x s IH]; intros [|i] H; cbn in *; try done.
  - by injection H as -> ->.
  - by apply IH.
Qed.

(** What a match at position [i] is: the source's matcher and the
    candidates of the specification agree, and the match ends after
    the name run. *)
Lemma match_at_candidates (s : list ascii) (i : nat) :
  match match_at s i with
  | Some m =>
      mention_candidates s i = Some (match_1 m, match_2 m)
      ∧ index m = i
      ∧ lastIndex m = i + 1 + length (name_run (drop (S i) s))
      ∧ s !! i = Some "@"%char
  | None => mention_candidates s i = None
  end.
Proof.
  unfold match_at, mention_candidates.
  destruct (drop i s) as [|c rest] eqn:Hdrop; [done|].
  apply drop_cons_inv in Hdrop as Hd. destruct Hd as [Hi Hrest].
  destruct (Ascii.eqb c "@") eqn:Hc.
  2: { by rewrite andb_false_r. }
  apply Ascii.eqb_eq in Hc. subst c. rewrite andb_true_r, andb_true_l.
  change (IsWordChar (Some "@"%char)) with false.
  replace (Bool.eqb (IsWordChar match i with 0 => None | S j => s !! j end) false)
    with (negb (IsWordChar match i with 0 => None | S j => s !! j end))
    by (by destruct (IsWordChar _)).
  destruct (negb _); [|done].
  rewrite match_group2_trim.
  destruct (trim_punct (name_run rest)) as [|c t] eqn:Ht; [done|].
  cbv beta iota zeta.
  destruct (match_punct (drop (length (c :: t)) rest)) as [p r] eqn:Hp.
  destruct (name_run_split rest) as [Hsplit Hhead].
  assert (c :: t ++ p = name_run rest) as Hrun.
  { rewrite <- (trim_punct_restore (name_run rest)
                  (drop (length (name_run rest)) rest)).
    - rewrite <- Hsplit, Ht, Hp. done.
    - intros c' Hc'. apply Hhead in Hc'. unfold class_name_i in Hc'.
      by apply orb_false_iff in Hc' as [_ ?]. }
  cbn [match_1 match_2 index lastIndex].
  rewrite Hrest, <- Hrun. split_and!; try done.
  cbn [length]. rewrite length_app. lia.
Qed.

Lemma match_at_index (s : list ascii) (i : nat) (m : RegExpMatch) :
  match_at s i = Some m →
  index m = i ∧ i < lastIndex m ∧ lastIndex m ≤ length s
  ∧ ∀ j, i < j < lastIndex m → match_at s j = None.
Proof.
  intros Hm. pose proof (match_at_candidates s i) as H. rewrite Hm in H.
  destruct H as (_ & Hidx & Hlast & Hat).
  pose proof (name_run_length (drop (S i) s)) as Hlen.
  rewrite length_drop in Hlen.
  apply lookup_lt_Some in Hat as Hlt.
  split_and!; [done | lia | lia |].
  intros j Hj. unfold match_at.
  destruct (drop j s) as [|c rest] eqn:Hdrop; [done|].
  apply drop_cons_inv in Hdrop as Hd. destruct Hd as [Hjc _].
  assert (class_name_i c = true) as Hname.
  { pose proof (name_run_Forall (drop (S i) s)) as Hall.
    rewrite Forall_lookup in Hall. apply (Hall (j - S i)).
    destruct (name_run_split (drop (S i) s)) as [Hsplit _].
    assert (drop (S i) s !! (j - S i) = Some c) as Hd.
    { rewrite lookup_drop. by replace (S i + (j - S i)) with j by lia. }
    rewrite Hsplit in Hd. rewrite lookup_app_l in Hd by lia. done. }
  destruct (Ascii.eqb c "@") eqn:Hc; [|by rewrite andb_false_r].
  apply Ascii.eqb_eq in Hc. subst c. by rewrite class_name_i_at in Hname.
Qed.

Lemma match_at_beyond (s : list ascii) (i : nat) :
  length s ≤ i → match_at s i = None.
Proof. intros Hi. unfold match_at. by rewrite drop_ge. Qed.

Lemma exec_from_spec (s : list ascii) (n i : nat) :
  match exec_from s n i with
  | Some m => i ≤ index m < i + n ∧ match_at s (index m) = Some m
              ∧ ∀ j, i ≤ j < index m → match_at s j = None
  | None => ∀ j, i ≤ j < i + n → match_at s j = None
  end.
Proof.
  revert i. induction n as [|n IH]; intros i; cbn.
  - intros j Hj. lia.
  - destruct (match_at s i) as [m|] eqn:Hm.
    + apply match_at_index in Hm as Hidx. destruct Hidx as (Hidx & _).
      rewrite Hidx. split_and!; [lia | lia | done |]. intros j Hj. lia.
    + specialize (IH (S i)). destruct (exec_from s n (S i)) as [m|].
      * destruct IH as (Hr & Hat & Hbefore). split_and!; [lia | lia | done |].
        intros j Hj. destruct (decide (j = i)) as [->|]; [done|].
        apply Hbefore. lia.
      * intros j Hj. destruct (decide (j = i)) as [->|]; [done|].
        apply IH. lia.
Qed.

(** [exec] returns the leftmost match at or after [from], and [null]
    exactly when no position at or after [from] matches. *)
Lemma exec_spec (s : list ascii) (from : nat) :
  match exec s from with
  | Some m => from ≤ index m ∧ match_at s (index m) = Some m
              ∧ ∀ j, from ≤ j < index m → match_at s j = None
  | None => ∀ j, from ≤ j → match_at s j = None
  end.
Proof.
  unfold exec. destruct (length s <? from) eqn:Hlt.
  - apply Nat.ltb_lt in Hlt. intros j Hj. apply match_at_beyond. lia.
  - apply Nat.ltb_ge in Hlt.
    pose proof (exec_from_spec s (S (length s - from)) from) as H.
    destruct (exec_from s (S (length s - from)) from) as [m|].
    + destruct H as (Hr & Hat & Hbefore). split_and!; [lia | done | done].
    + intros j Hj. destruct (decide (j < length s)) as [Hjs|Hjs].
      * apply H. lia.
      * apply match_at_beyond. lia.
Qed.

(** ** Mention scanning *)

Section MentionScan.
Context (imp : Imports) (usersByUsername : gmap string UserProfile).

(** What a match adds to the demand set. *)
Lemma mention_step_elem (m : RegExpMatch) (acc : gset string) (u : string) :
  u ∈ mention_step imp usersByUsername m acc ↔
  u ∈ acc ∨ (demanded_by_code imp usersByUsername (match_1 m, match_2 m)
             ∧ (u = match_1 m ∨ u = match_2 m)).
Proof.
  assert (∀ k, truthy_property usersByUsername k = false
               ↔ usersByUsername !! k = None ∧ k ∉ Object_prototype_keys)
    as Hread.
  { intros k. unfold truthy_property. rewrite orb_false_iff.
    rewrite !bool_decide_eq_false, <- eq_None_not_Some. done. }
  unfold mention_step, demanded_by_code, demanded. cbn [fst snd].
  case_bool_decide as Hspecial; [tauto|].
  destruct (truthy_property usersByUsername (match_1 m)) eqn:H1; cbn [orb].
  { split; [tauto|]. intros [? | (((_ & Hn & _) & Hp & _) & _)]; [done|].
    assert (truthy_property usersByUsername (match_1 m) = false) as H1'
      by (apply Hread; tauto).
    congruence. }
  destruct (truthy_property usersByUsername (match_2 m)) eqn:H2.
  { split; [tauto|]. intros [? | (((_ & _ & Hn) & _ & Hp) & _)]; [done|].
    assert (truthy_property usersByUsername (match_2 m) = false) as H2'
      by (apply Hread; tauto).
    congruence. }
  apply Hread in H1, H2.
  rewrite !elem_of_union, !elem_of_singleton. tauto.
Qed.

(** The loop ends within [length s - from + 1] iterations, and has
    then collected what every match at or after [from] adds: no
    position is lost between two calls of [exec]. *)
Lemma mention_loop_spec (s : list ascii) (fuel from : nat) (acc : gset string) :
  length s - from < fuel →
  ∃ usernames,
    mention_loop fuel imp usersByUsername s from acc = Some usernames
    ∧ ∀ u, u ∈ usernames ↔
           u ∈ acc
           ∨ ∃ i m, from ≤ i ∧ match_at s i = Some m
                    ∧ demanded_by_code imp usersByUsername (match_1 m, match_2 m)
                    ∧ (u = match_1 m ∨ u = match_2 m).
Proof.
  revert from acc. induction fuel as [|fuel IH]; intros from acc Hfuel; [lia|].
  cbn [mention_loop]. pose proof (exec_spec s from) as Hexec.
  destruct (exec s from) as [m|].
  - destruct Hexec as (Hfrom & Hat & Hbefore).
    destruct (match_at_index _ _ _ Hat) as (_ & Hlt & Hle & Hinside).
    destruct (IH (lastIndex m) (mention_step imp usersByUsername m acc))
      as (usernames & Hloop & Hspec); [lia|].
    exists usernames. split; [done|]. intros u.
    rewrite Hspec, mention_step_elem. split.
    + intros [[? | [Hd Hu]] | (i & m' & Hi & Hrest)]; [by left | |].
      * right. exists (index m), m. by split_and!.
      * right. exists i, m'. split; [lia | done].
    + intros [? | (i & m' & Hi & Hm' & Hrest)]; [by left; left |].
      destruct (decide (i < index m)) as [Hlow|Hlow].
      { rewrite Hbefore in Hm' by lia. discriminate. }
      destruct (decide (i = index m)) as [->|Hne].
      { rewrite Hat in Hm'. injection Hm' as <-. by left; right. }
      destruct (decide (i < lastIndex m)) as [Hin|Hin].
      { rewrite Hinside in Hm' by lia. discriminate. }
      right. exists i, m'. split; [lia | done].
  - exists acc. split; [done|]. intros u. split; [by left|].
    intros [? | (i & m & Hi & Hm & _)]; [done|].
    rewrite Hexec in Hm by done. discriminate.
Qed.

End MentionScan.

Lemma includes_false_no_match (msg : string) (i : nat) :
  includes "@" msg = false → match_at (list_ascii_of_string msg) i = None.
Proof.
  unfold includes. intros Hno.
  pose proof (match_at_candidates (list_ascii_of_string msg) i) as H.
  destruct (match_at (list_ascii_of_string msg) i) as [m|]; [|done].
  destruct H as (_ & _ & _ & Hat).
  assert (existsb (Ascii.eqb "@") (list_ascii_of_string msg) = true) as Hyes.
  { apply existsb_exists. exists "@"%char. split; [|done].
    apply list_elem_of_In, list_elem_of_lookup. eauto. }
  congruence.
Qed.

(** The scan of a batch: total, and made of the matches of every
    message. *)
Lemma mention_fold_spec (imp : Imports) (st : GlobalState) (posts : list Post)
    (acc : gset string) :
  ∃ usernames,
    foldl (fun acc post =>
             usernamesToLoad ← acc;
             if negb (includes "@" (message post)) then Some usernamesToLoad
             else
               let usersByUsername := getUsersByUsername imp st in
               let s := list_ascii_of_string (message post) in
               mention_loop (S (length s)) imp usersByUsername s 0 usernamesToLoad)
          (Some acc) posts = Some usernames
    ∧ ∀ u, u ∈ usernames ↔
           u ∈ acc
           ∨ ∃ post i m, post ∈ posts
               ∧ match_at (list_ascii_of_string (message post)) i = Some m
               ∧ demanded_by_code imp (getUsersByUsername imp st) (match_1 m, match_2 m)
               ∧ (u = match_1 m ∨ u = match_2 m).
Proof.
  revert acc. induction posts as [|post posts IH]; intros acc.
  - exists acc. split; [done|]. intros u. split; [by left|].
    intros [? | (post & _ & _ & []%elem_of_nil & _)]. done.
  - cbn [foldl mbind option_bind].
    destruct (mention_loop_spec imp (getUsersByUsername imp st)
                (list_ascii_of_string (message post))
                (S (length (list_ascii_of_string (message post)))) 0 acc)
      as (acc1 & Hloop & Hacc1); [lia|].
    set (acc' := if negb (includes "@" (message post)) then acc else acc1).
    assert ((if negb (includes "@" (message post)) then Some acc
             else mention_loop
                    (S (length (list_ascii_of_string (message post)))) imp
                    (getUsersByUsername imp st)
                    (list_ascii_of_string (message post)) 0 acc)
            = Some acc') as Hstep.
    { subst acc'. by destruct (negb _). }
    assert (∀ u, u ∈ acc' ↔
                 u ∈ acc
                 ∨ ∃ i m, match_at (list_ascii_of_string (message post)) i = Some m
                     ∧ demanded_by_code imp (getUsersByUsername imp st) (match_1 m, match_2 m)
                     ∧ (u = match_1 m ∨ u = match_2 m)) as Hacc'.
    { intros u. subst acc'.
      destruct (includes "@" (message post)) eqn:Hinc; cbn [negb].
      - rewrite Hacc1. split.
        + intros [? | (i & m & _ & ?)]; [by left | right; eauto].
        + intros [? | (i & m & ?)]; [by left | right].
          exists i, m. split; [lia | done].
      - split; [by left|]. intros [? | (i & m & Hm & _)]; [done|].
        rewrite includes_false_no_match in Hm by done. discriminate. }
    cbv zeta. rewrite Hstep.
    destruct (IH acc') as (usernames & Hfold & Hspec).
    exists usernames. split; [done|]. intros u. rewrite Hspec, Hacc'. split.
    + intros [[? | (i & m & ?)] | (p & i & m & Hp & ?)]; [by left | |].
      * right. exists post, i, m. split; [left | done].
      * right. exists p, i, m. split; [by right | done].
    + intros [? | (p & i & m & [-> | Hp]%elem_of_cons & ?)]; [by left; left | |].
      * left. right. eauto.
      * right. eauto 10.
Qed.

(** [getNeededAtMentionedUsernames] always yields a set. *)
Lemma getNeededAtMentionedUsernames_total (imp : Imports) (st : GlobalState)
    (posts : list Post) :
  is_Some (getNeededAtMentionedUsernames imp st posts).
Proof.
  destruct (mention_fold_spec imp st posts ∅) as (usernames & H & _).
  exists usernames. exact H.
Qed.

(** The two mentions of the example message. *)
Lemma example_message_candidates (i : nat) :
  mention_candidates (list_ascii_of_string "hi @bob.smith, cc @all") i
  = if Nat.eqb i 3 then Some ("bob.smith", "bob.smith")
    else if Nat.eqb i 18 then Some ("all", "all")
    else None.
Proof.
  do 22 (destruct i as [|i]; [vm_compute; reflexivity|]).
  unfold mention_candidates. by rewrite drop_ge by (cbn; lia).
Qed.

(** The one mention of a message that names an inherited member. *)
Lemma inherited_name_candidates (i : nat) :
  mention_candidates (list_ascii_of_string "hi @constructor") i
  = if Nat.eqb i 3 then Some ("constructor", "constructor") else None.
Proof.
  do 15 (destruct i as [|i]; [vm_compute; reflexivity|]).
  unfold mention_candidates. by rewrite drop_ge by (cbn; lia).
Qed.

(** C8: [getNeededAtMentionedUsernames] returns a set made of
    candidates of the mentions of the messages: a mention is an [@]
    that no letter, digit or underscore precedes, followed by a run of
    alphanumeric/._- characters; its punctuation-preserving candidate
    is the whole run and its canonical candidate the run without its
    trailing punctuation. A mention whose canonical candidate is a
    reserved token is skipped, so is one with a candidate that
    resolves to a cached profile. Of the others both candidates are
    added, except when a candidate is the name of a member that every
    object inherits ([constructor], [toString], ...): the cache is a
    plain object and the test a property read, which then succeeds
    with no profile cached. On "hi @bob.smith, cc @all", with "all"
    reserved and "bob.smith" not cached, the demand set is
    ["bob.smith"] alone. On "hi @constructor" the candidates are
    "constructor" twice and the set is empty, also when "constructor"
    is neither reserved nor cached and so demanded. *)
Theorem mention_scan_demand_set (imp : Imports) (st : GlobalState)
    (posts : list Post) :
  (∃ usernames,
     getNeededAtMentionedUsernames imp st posts = Some usernames
     ∧ ∀ u, u ∈ usernames ↔
            ∃ post i candidates,
              post ∈ posts
              ∧ mention_candidates (list_ascii_of_string (message post)) i
                = Some candidates
              ∧ demanded_by_code imp (getUsersByUsername imp st) candidates
              ∧ (u = candidates.1 ∨ u = candidates.2))
  ∧ ((∀ post, post ∈ posts → message post = "hi @bob.smith, cc @all") →
     posts ≠ [] →
     "all" ∈ SPECIAL_MENTIONS imp →
     "bob.smith" ∉ SPECIAL_MENTIONS imp →
     getUsersByUsername imp st !! "bob.smith" = None →
     getNeededAtMentionedUsernames imp st posts = Some {["bob.smith"]})
  ∧ ((∀ post, post ∈ posts → message post = "hi @constructor") →
     getNeededAtMentionedUsernames imp st posts = Some ∅
     ∧ mention_candidates (list_ascii_of_string "hi @constructor") 3
       = Some ("constructor", "constructor")
     ∧ ("constructor" ∉ SPECIAL_MENTIONS imp →
        getUsersByUsername imp st !! "constructor" = None →
        demanded imp (getUsersByUsername imp st)
          ("constructor", "constructor"))).
Proof.
  assert (∃ usernames,
     getNeededAtMentionedUsernames imp st posts = Some usernames
     ∧ ∀ u, u ∈ usernames ↔
            ∃ post i candidates,
              post ∈ posts
              ∧ mention_candidates (list_ascii_of_string (message post)) i
                = Some candidates
              ∧ demanded_by_code imp (getUsersByUsername imp st) candidates
              ∧ (u = candidates.1 ∨ u = candidates.2)) as Hgen.
  { destruct (mention_fold_spec imp st posts ∅) as (usernames & Hfold & Hspec).
    exists usernames. split; [done|]. intros u. rewrite Hspec. split.
    - intros [[]%not_elem_of_empty | (post & i & m & Hp & Hm & Hd & Hu)].
      exists post, i, (match_1 m, match_2 m).
      pose proof (match_at_candidates (list_ascii_of_string (message post)) i) as H.
      rewrite Hm in H. by destruct H as (-> & _).
    - intros (post & i & [c1 c2] & Hp & Hc & Hd & Hu). right.
      pose proof (match_at_candidates (list_ascii_of_string (message post)) i) as H.
      destruct (match_at (list_ascii_of_string (message post)) i) as [m|] eqn:Hmat;
        [|congruence].
      destruct H as (Hm & _). rewrite Hc in Hm. injection Hm as -> ->.
      by exists post, i, m. }
  split; [exact Hgen|]. split.
  - intros Hmsg Hne Hall Hbob Hcache.
    destruct Hgen as (usernames & -> & Hspec). f_equal.
    apply set_eq. intros u. rewrite Hspec, elem_of_singleton. split.
    + intros (post & i & c & Hp & Hc & ((Hres & _) & _) & Hu).
      rewrite (Hmsg _ Hp), example_message_candidates in Hc.
      destruct (Nat.eqb i 3); [injection Hc as <-; by destruct Hu|].
      destruct (Nat.eqb i 18); [|discriminate]. by injection Hc as <-.
    + intros ->. destruct posts as [|post posts]; [done|].
      exists post, 3, ("bob.smith", "bob.smith").
      split; [left|]. rewrite (Hmsg post) by left.
      split; [by rewrite example_message_candidates|].
      assert ("bob.smith" ∉ Object_prototype_keys) as Hown
        by (apply (bool_decide_unpack _); by vm_compute).
      split; [by split_and! | by left].
  - intros Hmsg. split_and!.
    + destruct Hgen as (usernames & -> & Hspec). f_equal.
      apply set_eq. intros u. rewrite Hspec.
      split; [|by intros ?%not_elem_of_empty].
      intros (post & i & c & Hp & Hc & (_ & Hinh & _) & _). exfalso.
      rewrite (Hmsg _ Hp), inherited_name_candidates in Hc.
      destruct (Nat.eqb i 3); [|discriminate]. injection Hc as <-.
      apply Hinh. cbn [fst]. apply list_elem_of_here.
    + by rewrite inherited_name_candidates.
    + intros Hres Hcache. by split_and!.
Qed.

Lemma mention_scan_demand_set_witness :
  let st := sample_state ∅ [] in
  let posts := [sample_post "p" "u" "town" "hi @bob.smith, cc @all"] in
  let named := [sample_post "q" "u" "town" "hi @constructor"] in
  (∀ post, post ∈ posts → message post = "hi @bob.smith, cc @all")
  ∧ posts ≠ []
  ∧ "all" ∈ SPECIAL_MENTIONS reference_imports
  ∧ ("bob.smith" ∉ SPECIAL_MENTIONS reference_imports)
  ∧ getUsersByUsername reference_imports st !! "bob.smith" = None
  ∧ getNeededAtMentionedUsernames reference_imports st posts
    = Some {["bob.smith"]}
  ∧ (∀ post, post ∈ named → message post = "hi @constructor")
  ∧ getNeededAtMentionedUsernames reference_imports st named = Some ∅
  ∧ demanded reference_imports (getUsersByUsername reference_imports st)
      ("constructor", "constructor").
Proof.
  intros st posts named.
  assert (∀ post, post ∈ posts → message post = "hi @bob.smith, cc @all") as H1.
  { intros post Hp. apply list_elem_of_In in Hp. cbn in Hp.
    destruct Hp as [<- | []]. reflexivity. }
  assert (posts ≠ []) as H2 by discriminate.
  assert ("all" ∈ SPECIAL_MENTIONS reference_imports) as H3.
  { apply list_elem_of_In. cbn. tauto. }
  assert ("bob.smith" ∉ SPECIAL_MENTIONS reference_imports) as H4.
  { intros H. apply list_elem_of_In in H. cbn in H.
    destruct H as [H | [H | [H | []]]]; discriminate H. }
  assert (getUsersByUsername reference_imports st !! "bob.smith" = None) as H5
    by reflexivity.
  assert (∀ post, post ∈ named → message post = "hi @constructor") as H6.
  { intros post Hp. apply list_elem_of_In in Hp. cbn in Hp.
    destruct Hp as [<- | []]. reflexivity. }
  assert ("constructor" ∉ SPECIAL_MENTIONS reference_imports) as H7.
  { intros H. apply list_elem_of_In in H. cbn in H.
    destruct H as [H | [H | [H | []]]]; discriminate H. }
  split_and!; [exact H1 | exact H2 | exact H3 | exact H4 | exact H5 | | exact H6 | |].
  - exact (proj1 (proj2 (mention_scan_demand_set reference_imports st posts))
             H1 H2 H3 H4 H5).
  - exact (proj1 (proj2 (proj2 (mention_scan_demand_set reference_imports st named))
                    H6)).
  - exact (proj2 (proj2 (proj2 (proj2
             (mention_scan_demand_set reference_imports st named)) H6))
             H7 eq_refl).
Defined.

(** ** The prefetcher's guard *)

(** On a non-empty batch the emoji scan returns. *)
Lemma getNeededCustomEmojis_nonempty (imp : Imports) (st : GlobalState)
    (posts : list Post) :
  posts ≠ [] → ∃ emojis, getNeededCustomEmojis imp st posts = Returns emojis.
Proof.
  intros Hne. unfold getNeededCustomEmojis.
  destruct (negb _); [by eexists|].
  destruct posts as [|post0 rest]; [done|].
  destruct (bool_decide _); by eexists.
Qed.

(** The prefetcher neither throws nor exceeds a loop bound. *)
Lemma getProfilesAndStatusesForPosts_returns (imp : Imports) (st : GlobalState)
    (batch : option PostsArrayOrMap) :
  (getProfilesAndStatusesForPosts imp st batch).2 = Returns tt.
Proof.
  unfold getProfilesAndStatusesForPosts.
  destruct batch as [batch|]; [|done].
  destruct (Nat.eqb (length (Object_values batch)) 0) eqn:Hlen; [done|].
  apply Nat.eqb_neq in Hlen.
  destruct (foldl (authors_step st) (∅, ∅) (Object_values batch))
    as [userIdsToLoad statusesToLoad].
  destruct (getNeededAtMentionedUsernames_total imp st (Object_values batch))
    as [usernames ->].
  destruct (getNeededCustomEmojis_nonempty imp st (Object_values batch))
    as [emojis ->]; [|done].
  by destruct (Object_values batch).
Qed.

(** C10: on a [null] or [undefined] argument and on an empty array or
    object, [getProfilesAndStatusesForPosts] resolves at once, with no
    fetch started, whatever the state and whatever the scans would
    yield. The emoji scan reads the first element of its batch, which
    on an empty batch raises a [TypeError] when custom emoji are
    enabled; the prefetcher never ends that way, so it only ever runs
    the scan on a non-empty batch. *)
Theorem prefetch_skips_empty_batches (imp : Imports) (st : GlobalState) :
  getProfilesAndStatusesForPosts imp st None = ([], Returns tt)
  ∧ getProfilesAndStatusesForPosts imp st (Some (PostsArray [])) = ([], Returns tt)
  ∧ getProfilesAndStatusesForPosts imp st (Some (PostsMap [])) = ([], Returns tt)
  ∧ (getConfig_EnableCustomEmoji imp st = Some "true" →
     getNeededCustomEmojis imp st [] = Throws TypeError)
  ∧ (∀ batch, (getProfilesAndStatusesForPosts imp st batch).2 = Returns tt).
Proof.
  split_and!; try done.
  - intros Hon. unfold getNeededCustomEmojis. by rewrite Hon.
  - apply getProfilesAndStatusesForPosts_returns.
Qed.

Lemma prefetch_skips_empty_batches_witness :
  let st := sample_state ∅ [] in
  getConfig_EnableCustomEmoji reference_imports st = Some "true"
  ∧ getNeededCustomEmojis reference_imports st [] = Throws TypeError
  ∧ getProfilesAndStatusesForPosts reference_imports st (Some (PostsArray []))
    = ([], Returns tt).
Proof.
  intros st.
  pose proof (prefetch_skips_empty_batches reference_imports st)
    as (_ & Harr & _ & Hscan & _).
  split_and!; [reflexivity | exact (Hscan eq_refl) | exact Harr].
Defined.

(** ** getPostsAround *)

Lemma Promise_all3_total {A B C : Type} (ra : ClientOutcome A)
    (rb : ClientOutcome B) (rc : ClientOutcome C) :
  ∃ joined, Promise_all3 ra rb rc joined.
Proof.
  destruct ra as [a|e]; [|eexists; apply rejected_1].
  destruct rb as [b|e]; [|eexists; apply rejected_2].
  destruct rc as [c|e]; [|eexists; apply rejected_3].
  eexists; apply all_resolved.
Qed.

(** C3: when the three sub-fetches succeed, [getPostsAround] dispatches
    and returns a post list whose [order] is the after-page's order,
    then the pivot id, then the before-page's order; with after-page
    ids [5, 4], before-page ids [2, 1] and pivot 3 that is
    [5, 4, 3, 2, 1]. *)
Theorem getPostsAround_order (imp : Imports) (st : GlobalState)
    (channelId postId : string) (after thread before : CombinedPostList)
    (joined : ClientOutcome (CombinedPostList * CombinedPostList * CombinedPostList)) :
  Promise_all3 (Resolved after) (Resolved thread) (Resolved before) joined →
  ∃ fetches combined,
    getPostsAround imp st channelId postId joined
    = (fetches ++
       [batchActions
          [RECEIVED_POSTS combined;
           RECEIVED_POSTS_IN_CHANNEL channelId combined
             (str_eq (next_post_id after) "") (str_eq (prev_post_id before) "")]],
       Returns (RData (DPosts combined)))
    ∧ order combined = order after ++ postId :: order before
    ∧ (order after = ["5"; "4"] → postId = "3" → order before = ["2"; "1"] →
       order combined = ["5"; "4"; "3"; "2"; "1"]).
Proof.
  intros Hall. inversion Hall; subst. unfold getPostsAround.
  match goal with
  | |- context [getProfilesAndStatusesForPosts imp st ?b] =>
      pose proof (getProfilesAndStatusesForPosts_returns imp st b) as Hret;
      destruct (getProfilesAndStatusesForPosts imp st b) as [fetches o]
  end.
  cbn in Hret. subst o. do 2 eexists. split; [reflexivity|].
  cbn [order]. split; [done|]. by intros -> -> ->.
Qed.

Lemma getPostsAround_order_witness :
  let st := sample_state ∅ [] in
  let after := sample_page ["5"; "4"] in
  let before := sample_page ["2"; "1"] in
  let thread := sample_page ["3"] in
  Promise_all3 (Resolved after) (Resolved thread) (Resolved before)
    (Resolved (after, thread, before))
  ∧ ∃ fetches combined,
      getPostsAround reference_imports st "town" "3"
        (Resolved (after, thread, before))
      = (fetches ++
         [batchActions
            [RECEIVED_POSTS combined;
             RECEIVED_POSTS_IN_CHANNEL "town" combined true true]],
         Returns (RData (DPosts combined)))
      ∧ order combined = ["5"; "4"; "3"; "2"; "1"].
Proof.
  intros st after before thread.
  split; [apply all_resolved|].
  destruct (getPostsAround_order reference_imports st "town" "3"
              after thread before _ (all_resolved after thread before))
    as (fetches & combined & Hrun & _ & Hex).
  exists fetches, combined. split; [exact Hrun|].
  exact (Hex eq_refl eq_refl eq_refl).
Defined.

(** C5: when one of the three sub-fetches of [getPostsAround] fails,
    [Promise.all] rejects with the reason of a failed sub-fetch, and
    the operation returns [{error}] with that reason. All it has
    dispatched is the logout check and the error log: no receipt
    action, hence nothing of the sub-fetches that did succeed. *)
Theorem getPostsAround_all_or_nothing (imp : Imports) (st : GlobalState)
    (channelId postId : string)
    (r_after r_thread r_before : ClientOutcome CombinedPostList)
    (joined : ClientOutcome (CombinedPostList * CombinedPostList * CombinedPostList)) :
  Promise_all3 r_after r_thread r_before joined →
  (∃ e, r_after = Rejected e) ∨ (∃ e, r_thread = Rejected e)
  ∨ (∃ e, r_before = Rejected e) →
  ∃ error,
    joined = Rejected error
    ∧ (r_after = Rejected error ∨ r_thread = Rejected error
       ∨ r_before = Rejected error)
    ∧ getPostsAround imp st channelId postId joined
      = (forceLogoutIfNecessary imp error ++ [logError error],
         Returns (RError error))
    ∧ Forall (fun a => is_receipt a = false)
        (getPostsAround imp st channelId postId joined).1.
Proof.
  intros Hall Hfail.
  assert (∃ error, joined = Rejected error
                   ∧ (r_after = Rejected error ∨ r_thread = Rejected error
                      ∨ r_before = Rejected error)) as (error & -> & Hwhich).
  { inversion Hall; subst; eauto 6.
    destruct Hfail as [[? ?] | [[? ?] | [? ?]]]; discriminate. }
  exists error. split_and!; try done.
  cbn. unfold forceLogoutIfNecessary.
  destruct (isSessionExpired imp error); repeat constructor.
Qed.

Lemma getPostsAround_all_or_nothing_witness :
  let st := sample_state ∅ [] in
  let gone :=
    ClientError {| server_error_id := Some "app.post.get.app_error";
                   status_code := 404; error_message := "" |} in
  let after := Resolved (sample_page ["5"; "4"]) in
  let thread : ClientOutcome CombinedPostList := Rejected gone in
  let before := Resolved (sample_page ["2"; "1"]) in
  Promise_all3 after thread before (Rejected gone)
  ∧ getPostsAround reference_imports st "town" "3" (Rejected gone)
    = ([logError gone], Returns (RError gone)).
Proof.
  intros st gone after thread before.
  assert (Promise_all3 after thread before (Rejected gone)) as Hall
    by apply rejected_2.
  split; [exact Hall|].
  destruct (getPostsAround_all_or_nothing reference_imports st "town" "3"
              after thread before (Rejected gone) Hall
              (or_intror (or_introl (ex_intro _ gone eq_refl))))
    as (error & Herr & _ & Hrun & _).
  injection Herr as <-. exact Hrun.
Defined.

(** ** Emoji scanning *)

Lemma emoji_fold_per_post_none (imp : Imports) (st : GlobalState)
    (posts : list Post) (acc : gset string) :
  (∀ p, p ∈ posts → metadata p = None) →
  foldl (fun acc post =>
           if bool_decide (is_Some (metadata post)) then acc
           else emoji_step imp st acc post) acc posts
  = foldl (emoji_step imp st) acc posts.
Proof.
  revert acc. induction posts as [|p posts IH]; intros acc Hall; [done|].
  cbn [foldl]. rewrite (Hall p) by left.
  rewrite bool_decide_eq_false_2 by (by intros [? ?]).
  apply IH. intros p' Hp'. apply Hall. by right.
Qed.

Lemma emoji_fold_per_post_all (imp : Imports) (st : GlobalState)
    (posts : list Post) (acc : gset string) :
  (∀ p, p ∈ posts → is_Some (metadata p)) →
  foldl (fun acc post =>
           if bool_decide (is_Some (metadata post)) then acc
           else emoji_step imp st acc post) acc posts
  = acc.
Proof.
  revert acc. induction posts as [|p posts IH]; intros acc Hall; [done|].
  cbn [foldl]. rewrite bool_decide_eq_true_2 by (apply Hall; left).
  apply IH. intros p' Hp'. apply Hall. by right.
Qed.

(** What one post adds: what the parser finds in its scanned texts. *)
Lemma emoji_step_elem (imp : Imports) (st : GlobalState) (acc : gset string)
    (post : Post) (e : string) :
  e ∈ emoji_step imp st acc post ↔
  e ∈ acc
  ∨ ∃ t, t ∈ scanned_texts post
         ∧ e ∈ parseNeededCustomEmojisFromText imp t (systemEmojis imp)
                 (selectCustomEmojisByName imp st)
                 (entities_emojis_nonExistentEmoji st).
Proof.
  assert (∀ (acc' found : gset string),
            e ∈ (if bool_decide (found ≠ ∅) then acc' ∪ found else acc')
            ↔ e ∈ acc' ∨ e ∈ found) as Hadd.
  { intros acc' found. case_bool_decide as Hne; [by rewrite elem_of_union|].
    assert (found = ∅) as -> by (by destruct (decide (found = ∅))).
    split; [by left | by intros [? | ?%not_elem_of_empty]]. }
  unfold emoji_step, scanned_texts. cbv zeta.
  destruct (includes ":" (message post)), (props post) as [pr|];
    [destruct (attachments pr) as [[|a l]|];
       [| destruct (String.eqb (buildPostAttachmentText (a :: l)) "") |]
    | | destruct (attachments pr) as [[|a l]|];
       [| destruct (String.eqb (buildPostAttachmentText (a :: l)) "") |]
    | ];
    rewrite ?Hadd;
    repeat setoid_rewrite elem_of_app;
    repeat setoid_rewrite elem_of_cons;
    repeat setoid_rewrite elem_of_nil;
    (split;
     [ intros H; repeat (destruct H as [H | H]); eauto 8
     | intros [H | (t & Ht & H)]; [by eauto|];
       repeat (destruct Ht as [Ht | Ht]); subst; by eauto ]).
Qed.

Lemma emoji_fold_elem (imp : Imports) (st : GlobalState) (posts : list Post)
    (acc : gset string) (e : string) :
  e ∈ foldl (emoji_step imp st) acc posts ↔
  e ∈ acc
  ∨ ∃ post t, post ∈ posts ∧ t ∈ scanned_texts post
              ∧ e ∈ parseNeededCustomEmojisFromText imp t (systemEmojis imp)
                      (selectCustomEmojisByName imp st)
                      (entities_emojis_nonExistentEmoji st).
Proof.
  revert acc. induction posts as [|post posts IH]; intros acc; cbn [foldl].
  - split; [by left|]. by intros [? | (p & t & []%elem_of_nil & _)].
  - rewrite IH, emoji_step_elem. split.
    + intros [[? | (t & ? & ?)] | (p & t & ? & ?)]; [by left | |].
      * right. exists post, t. split; [left | done].
      * right. exists p, t. split; [by right | done].
    + intros [? | (p & t & [-> | ?]%elem_of_cons & ?)];
        [by left; left | left; right; eauto | right; eauto].
Qed.

(** C7, as amended: the emoji demand set is empty when custom emoji
    are disabled. Otherwise the first post of a non-empty batch
    decides for the whole batch: when it carries metadata nothing is
    scanned and the set is empty; when it does not, the message and
    attachments of every post of the batch are scanned, those of posts
    that carry metadata included: the set holds exactly what the
    parser finds in the scanned texts of the posts of the batch. The
    post-by-post reading of the specification holds on the non-empty
    batches in which either no post or every post carries metadata. *)
Theorem emoji_scan_first_post_decides (imp : Imports) (st : GlobalState)
    (post0 : Post) (rest : list Post) :
  (getConfig_EnableCustomEmoji imp st ≠ Some "true" →
   ∀ posts, getNeededCustomEmojis imp st posts = Returns ∅)
  ∧ (getConfig_EnableCustomEmoji imp st = Some "true" →
     (is_Some (metadata post0) →
      getNeededCustomEmojis imp st (post0 :: rest) = Returns ∅)
     ∧ (metadata post0 = None →
        ∃ emojis,
          getNeededCustomEmojis imp st (post0 :: rest) = Returns emojis
          ∧ (∀ e, e ∈ emojis ↔
                  ∃ post t,
                    post ∈ post0 :: rest ∧ t ∈ scanned_texts post
                    ∧ e ∈ parseNeededCustomEmojisFromText imp t
                            (systemEmojis imp) (selectCustomEmojisByName imp st)
                            (entities_emojis_nonExistentEmoji st))
          ∧ ∀ post t,
              post ∈ rest → is_Some (metadata post) → t ∈ scanned_texts post →
              parseNeededCustomEmojisFromText imp t
                (systemEmojis imp) (selectCustomEmojisByName imp st)
                (entities_emojis_nonExistentEmoji st) ⊆ emojis))
  ∧ ((∀ p, p ∈ post0 :: rest → metadata p = None)
     ∨ (∀ p, p ∈ post0 :: rest → is_Some (metadata p)) →
     getNeededCustomEmojis imp st (post0 :: rest)
     = Returns (getNeededCustomEmojis_per_post imp st (post0 :: rest))).
Proof.
  split_and!.
  - intros Hoff posts. unfold getNeededCustomEmojis, opt_str_eq.
    destruct (getConfig_EnableCustomEmoji imp st) as [v|]; [|done].
    destruct (String.eqb v "true") eqn:Hv; [|done].
    apply String.eqb_eq in Hv. by subst v.
  - intros Hon. unfold getNeededCustomEmojis, opt_str_eq. rewrite Hon.
    change (String.eqb "true" "true") with true. cbn [negb].
    split.
    + intros Hmeta. by rewrite bool_decide_eq_true_2.
    + intros Hnone. rewrite Hnone.
      rewrite bool_decide_eq_false_2 by (by intros [? ?]).
      eexists. split; [reflexivity|].
      assert (∀ e, e ∈ foldl (emoji_step imp st) ∅ (post0 :: rest) ↔
                   ∃ post t,
                     post ∈ post0 :: rest ∧ t ∈ scanned_texts post
                     ∧ e ∈ parseNeededCustomEmojisFromText imp t
                             (systemEmojis imp) (selectCustomEmojisByName imp st)
                             (entities_emojis_nonExistentEmoji st)) as Hscan.
      { intros e. rewrite emoji_fold_elem.
        split; [by intros [[]%not_elem_of_empty | ?] | by right]. }
      split; [exact Hscan|].
      intros post t Hpost _ Ht e He. apply Hscan.
      exists post, t. split; [by right | done].
  - intros Hhom.
    unfold getNeededCustomEmojis, getNeededCustomEmojis_per_post, opt_str_eq.
    destruct (negb match getConfig_EnableCustomEmoji imp st with
                   | Some a => String.eqb a "true"
                   | None => false
                   end); [done|].
    destruct Hhom as [Hnone | Hall].
    + rewrite emoji_fold_per_post_none by done.
      rewrite (Hnone post0) by left.
      by rewrite bool_decide_eq_false_2 by (by intros [? ?]).
    + rewrite emoji_fold_per_post_all by done.
      by rewrite bool_decide_eq_true_2 by (apply Hall; left).
Qed.

Lemma emoji_scan_first_post_decides_witness :
  let st := sample_state ∅ [] in
  let first := sample_post "p1" "u" "town" "a :party:" in
  let second := with_metadata (sample_post "p2" "u" "town" "and :confetti:") in
  getConfig_EnableCustomEmoji reference_imports st = Some "true"
  ∧ metadata first = None
  ∧ ∃ emojis,
      getNeededCustomEmojis reference_imports st [first; second]
      = Returns emojis
      ∧ "confetti" ∈ emojis.
Proof.
  intros st first second.
  split_and!; [reflexivity | reflexivity |].
  destruct (proj2 (proj1 (proj2
              (emoji_scan_first_post_decides reference_imports st first [second]))
              eq_refl) eq_refl) as (emojis & Hrun & _ & Htagged).
  exists emojis. split; [exact Hrun|].
  apply (Htagged second "and :confetti:").
  - apply list_elem_of_here.
  - by eexists.
  - apply list_elem_of_here.
  - by vm_compute.
Defined.

(** C7, as the specification words it, fails both ways. A batch whose
    first post carries metadata is not scanned at all, so a later post
    without metadata adds nothing; and in a batch whose first post
    carries none, a later post that does carry metadata is scanned
    all the same. *)
Lemma emoji_scan_per_post_counterexample :
  let st := sample_state ∅ [] in
  let tagged := with_metadata (sample_post "p1" "u" "town" "a :party:") in
  let untagged := sample_post "p2" "u" "town" "and :confetti:" in
  (getNeededCustomEmojis reference_imports st [tagged; untagged] = Returns ∅
   ∧ getNeededCustomEmojis_per_post reference_imports st [tagged; untagged]
     = {["confetti"]})
  ∧ (getNeededCustomEmojis reference_imports st [untagged; tagged]
     = Returns {["confetti"; "party"]}
     ∧ getNeededCustomEmojis_per_post reference_imports st [untagged; tagged]
       = {["confetti"]})
  ∧ getNeededCustomEmojis reference_imports st [tagged; untagged]
    ≠ Returns (getNeededCustomEmojis_per_post reference_imports st
                 [tagged; untagged]).
Proof.
  intros st tagged untagged.
  assert (getNeededCustomEmojis reference_imports st [tagged; untagged]
          = Returns ∅) as H1 by reflexivity.
  assert (getNeededCustomEmojis_per_post reference_imports st [tagged; untagged]
          = {["confetti"]}) as H2 by (by vm_compute).
  split; [split; [exact H1 | exact H2] | split; [split; by vm_compute|]].
  intros Heq. rewrite H1, H2 in Heq.
  assert ((∅ : gset string) = {["confetti"]}) as H by congruence.
  assert ("confetti" ∈ (∅ : gset string)) as Hin
    by (rewrite H; by apply elem_of_singleton).
  by apply not_elem_of_empty in Hin.
Qed.

(** ** Read/unread policy *)

(** C6: for a new post that the ignore predicate lets through,
    [lastPostActions] first dispatches the receipt and the stop-typing
    signal, then: when the author is the current user and the post is
    neither a system message nor from a webhook, it marks the channel
    read without notifying the server, whether or not the channel is
    the focused one; else, when the post's channel is the focused
    channel, it marks the channel read and notifies the server;
    otherwise it marks the channel unread with the team and the
    mentions of the event. *)
Theorem new_post_read_policy (imp : Imports) (st : GlobalState) (now : Z)
    (post : Post) (websocketMessageProps : WebsocketMessageProps) :
  shouldIgnorePost imp post = false →
  let own :=
    user_id post = getCurrentUserId imp st
    ∧ isSystemMessage imp post = false ∧ isFromWebhook imp post = false in
  let focused := channel_id post = getCurrentChannelId imp st in
  let received :=
    batchActions
      [RECEIVED_NEW_POST post;
       STOP_TYPING (channel_id post +:+ root_id post) (user_id post) now] in
  let dispatched := (lastPostActions imp st now post websocketMessageProps).1 in
  (own →
   dispatched = [received; markChannelAsRead (channel_id post) false;
                 markChannelAsViewed (channel_id post)])
  ∧ (¬ own → focused →
     dispatched = [received; markChannelAsRead (channel_id post) true;
                   markChannelAsViewed (channel_id post)])
  ∧ (¬ own → ¬ focused →
     dispatched = [received;
                   markChannelAsUnread (team_id websocketMessageProps)
                     (channel_id post) (mentions websocketMessageProps)]).
Proof.
  intros Hpass own focused received dispatched.
  subst dispatched. unfold lastPostActions. rewrite Hpass.
  assert (str_eq (user_id post) (getCurrentUserId imp st)
          && negb (isSystemMessage imp post) && negb (isFromWebhook imp post)
          = true ↔ own) as Hown.
  { subst own. unfold str_eq.
    rewrite !andb_true_iff, !negb_true_iff, String.eqb_eq. tauto. }
  assert (str_eq (channel_id post) (getCurrentChannelId imp st) = true ↔ focused)
    as Hfocused by apply String.eqb_eq.
  destruct (str_eq (user_id post) (getCurrentUserId imp st)
            && negb (isSystemMessage imp post) && negb (isFromWebhook imp post)).
  { split_and!; [done | intros Hn | intros Hn]; destruct Hn; by apply Hown. }
  destruct (str_eq (channel_id post) (getCurrentChannelId imp st)).
  - split_and!; [intros Ho; by apply Hown in Ho | done |].
    intros _ Hn. destruct Hn. by apply Hfocused.
  - split_and!; [intros Ho; by apply Hown in Ho | | done].
    intros _ Hf. by apply Hfocused in Hf.
Qed.

Lemma new_post_read_policy_witness :
  let st := sample_state ∅ [] in
  let post := sample_post "p" "me" "elsewhere" "hello" in
  let props := {| team_id := "t"; mentions := "[]";
                  channel_type := "O"; channel_name := "elsewhere" |} in
  shouldIgnorePost reference_imports post = false
  ∧ (user_id post = getCurrentUserId reference_imports st
     ∧ isSystemMessage reference_imports post = false
     ∧ isFromWebhook reference_imports post = false)
  ∧ channel_id post ≠ getCurrentChannelId reference_imports st
  ∧ (lastPostActions reference_imports st 1700 post props).1
    = [batchActions [RECEIVED_NEW_POST post; STOP_TYPING "elsewhere" "me" 1700];
       markChannelAsRead "elsewhere" false; markChannelAsViewed "elsewhere"].
Proof.
  intros st post props.
  split_and!; [reflexivity | reflexivity | reflexivity | reflexivity
              | discriminate |].
  exact (proj1 (new_post_read_policy reference_imports st 1700 post props eq_refl)
           (conj eq_refl (conj eq_refl eq_refl))).
Defined.

(** ** The thunks that do return a result object *)

(** [deletePost], [getPost] and the two reaction thunks return
    [{data}] or [{error}] on every path, a rejected remote call
    included. *)
Lemma sibling_thunks_uniform (imp : Imports) (st : GlobalState) :
  (∀ post, ∃ r, (deletePost imp st post).2 = Returns r ∧ is_uniform r = true)
  ∧ (∀ response, ∃ r, (getPost imp st response).2 = Returns r
                      ∧ is_uniform r = true)
  ∧ (∀ postId emojiName response,
       ∃ r, (addReaction imp st postId emojiName response).2 = Returns r
            ∧ is_uniform r = true)
  ∧ (∀ postId emojiName response,
       ∃ r, (removeReaction imp st postId emojiName response).2 = Returns r
            ∧ is_uniform r = true).
Proof.
  split_and!.
  - intros post. rewrite deletePost_returns. by eexists.
  - intros [post|error]; [|by eexists]. unfold getPost.
    match goal with
    | |- context [getProfilesAndStatusesForPosts imp st ?b] =>
        pose proof (getProfilesAndStatusesForPosts_returns imp st b) as Hret;
        destruct (getProfilesAndStatusesForPosts imp st b) as [fetches o]
    end.
    cbn in Hret. subst o. by eexists.
  - intros postId emojiName [reaction|error]; by eexists.
  - intros postId emojiName [[]|error]; by eexists.
Qed.

(** * Further properties of the code *)

(** ** createPost: attached files and what is sent *)



(** When [createPost] goes ahead, it defers exactly one remote call,
    carried by the optimistic action, which is dispatched last, after
    the files of the pending post if there are any. The post sent has
    [create_at] zeroed and keeps the draft's [id]; the post shown has
    the local timestamp twice and the draft's [id] if it has one, the
    pending identifier otherwise. On commit one batch is dispatched:
    the confirmed post, the two counters of the draft's channel, and
    the files under the confirmed identifier, even when there are
    none. *)
Theorem createPost_send_shape (imp : Imports) (st : GlobalState)
    (now : Z) (post : Post) (files : list (option FileInfo)) (r : Returned) :
  Selectors_isPostIdSending imp st (createPost_pendingPostId st now post) = false →
  (createPost imp st now post files).2 = Returns r →
  let pendingPostId := createPost_pendingPostId st now post in
  ∃ attached shown sent commit rollback first,
    (createPost imp st now post files).1
    = first ++ [OFFLINE (RECEIVED_NEW_POST shown) (Client4_createPost sent)
                  commit rollback]
    ∧ (attached = [] ∧ first = [] ∧ file_ids sent = file_ids post
       ∨ attached ≠ [] ∧ first = [RECEIVED_FILES_FOR_POST (Some pendingPostId) attached]
         ∧ mapM (fmap file_id) attached = file_ids sent)
    ∧ create_at sent = 0%Z ∧ update_at sent = now
    ∧ pending_post_id sent = Some pendingPostId ∧ id sent = id post
    ∧ message sent = message post ∧ channel_id sent = channel_id post
    ∧ create_at shown = now ∧ update_at shown = now
    ∧ pending_post_id shown = Some pendingPostId
    ∧ id shown = Some (default pendingPostId (id post))
    ∧ file_ids shown = file_ids sent ∧ message shown = message post
    ∧ ∀ payload,
        commit payload
        = [batchActions
             [RECEIVED_POST (plain payload);
              CREATE_POST_SUCCESS;
              INCREMENT_TOTAL_MSG_COUNT (channel_id post) 1;
              DECREMENT_UNREAD_MSG_COUNT (channel_id post) 1;
              RECEIVED_FILES_FOR_POST (id payload) attached]].
Proof.
  intros Hsend Hret pendingPostId. revert Hret. unfold createPost.
  rewrite Hsend. fold pendingPostId.
  match goal with
  | |- context [negb (Nat.eqb (length ?fs) 0)] => set (attached := fs)
  end.
  destruct (negb (Nat.eqb (length attached) 0)) eqn:Hlen.
  - destruct (mapM (fmap file_id) attached) as [fileIds|] eqn:Hm;
      [|discriminate].
    intros _. exists attached. do 4 eexists.
    exists [RECEIVED_FILES_FOR_POST (Some pendingPostId) attached].
    split; [reflexivity|]. split.
    { right. split_and!; [|done|done]. intros He. by rewrite He in Hlen. }
    unfold createPost_optimistic_data, createPost_commit. cbn.
    destruct (id post) eqn:Hid; cbn; rewrite ?Hid; by split_and!.
  - intros _. apply negb_false_iff, Nat.eqb_eq in Hlen.
    exists attached. do 4 eexists. exists [].
    split; [reflexivity|]. split.
    { left. by destruct attached. }
    destruct attached; [|discriminate].
    unfold createPost_optimistic_data, createPost_commit. cbn.
    destruct (id post) eqn:Hid; cbn; rewrite ?Hid; by split_and!.
Qed.

Lemma createPost_send_shape_witness :
  let st := sample_state ∅ [] in
  let post := sample_draft "town" "hello" in
  Selectors_isPostIdSending reference_imports st
    (createPost_pendingPostId st 1500 post) = false
  ∧ (createPost reference_imports st 1500 post []).2 = Returns (RData DTrue)
  ∧ ∃ shown sent commit rollback,
      (createPost reference_imports st 1500 post []).1
      = [OFFLINE (RECEIVED_NEW_POST shown) (Client4_createPost sent)
           commit rollback]
      ∧ create_at sent = 0%Z ∧ id sent = None
      ∧ create_at shown = 1500%Z ∧ id shown = Some "me:1500".
Proof.
  intros st post.
  destruct (createPost_send_shape reference_imports st 1500 post []
              (RData DTrue) eq_refl eq_refl)
    as (attached & shown & sent & commit & rollback & first & Hrun
        & Hfiles & Hc & _ & _ & Hid & _ & _ & Hcs & _ & _ & Hids & _).
  split_and!; [reflexivity | reflexivity |].
  exists shown, sent, commit, rollback.
  destruct Hfiles as [(_ & -> & _) | (_ & Hfirst & _)].
  - split_and!; [exact Hrun | exact Hc | exact Hid | exact Hcs | exact Hids].
  - exfalso. rewrite Hfirst in Hrun. vm_compute in Hrun. discriminate Hrun.
Defined.

(** ** Fan-out: when nothing is dispatched *)

Lemma omap_nil_iff {A B : Type} (f : A → option B) (l : list A) :
  omap f l = [] ↔ ∀ k, k ∈ l → f k = None.
Proof.
  induction l as [|x l IH]; cbn.
  - split; [by intros _ k ?%elem_of_nil | done].
  - destruct (f x) eqn:Hx.
    + split; [discriminate|]. intros H. specialize (H x). rewrite Hx in H.
      discriminate H. left.
    + rewrite IH. split.
      * intros H k [-> | Hk]%elem_of_cons; [done | by apply H].
      * intros H k Hk. apply H. by right.
Qed.

(** [deletePost] and [removePost] dispatch nothing at all exactly on a
    combined post none of whose members is in the local store (an
    empty member list included): neither the members nor the combined
    record are touched, and [deletePost] still reports success. Every
    other post gives rise to at least one dispatch. *)
Theorem fan_out_dispatches_nothing (imp : Imports) (st : GlobalState)
    (post : ExtendedPost) :
  let uncached :=
    type (base post) = COMBINED_USER_ACTIVITY imp
    ∧ ∃ ids, system_post_ids post = Some ids
             ∧ ∀ k, k ∈ ids → Selectors_getPost imp st k = None in
  ((deletePost imp st post).1 = [] ↔ uncached)
  ∧ ((removePost imp st post).1 = [] ↔ uncached)
  ∧ (uncached → deletePost imp st post = ([], Returns (RData DTrue))).
Proof.
  intros uncached. subst uncached. unfold deletePost, removePost.
  destruct (str_eq (type (base post)) (COMBINED_USER_ACTIVITY imp)) eqn:Ht.
  - apply String.eqb_eq in Ht as Hty.
    destruct (system_post_ids post) as [ids|] eqn:Hids.
    + rewrite (deletePost_fuel_combined imp st 0 post ids Ht Hids).
      rewrite (removePost_fuel_combined imp st 0 post ids Ht Hids).
      cbn [fst].
      assert (∀ (B : Type) (f : Post → B),
                f <$> omap (Selectors_getPost imp st) ids = [] ↔
                ∀ k, k ∈ ids → Selectors_getPost imp st k = None) as Hnil.
      { intros B f. rewrite <- omap_nil_iff.
        destruct (omap (Selectors_getPost imp st) ids); by split. }
      split_and!.
      * rewrite Hnil. split; [by eauto|]. by intros (_ & ids' & [= <-] & H).
      * rewrite Hnil. split; [by eauto|]. by intros (_ & ids' & [= <-] & H).
      * intros (_ & ids' & [= <-] & H). by rewrite (proj2 (Hnil _ _) H).
    + rewrite deletePost_fuel_single, removePost_fuel_single by (by right).
      split_and!; try (split; [discriminate|]);
        by intros (_ & ids & ? & _).
  - assert (type (base post) ≠ COMBINED_USER_ACTIVITY imp) as Hne.
    { intros He. apply String.eqb_eq in He. unfold str_eq in Ht. congruence. }
    rewrite deletePost_fuel_single, removePost_fuel_single by (by left).
    split_and!; try (split; [discriminate|]); by intros (? & _).
Qed.

Lemma fan_out_dispatches_nothing_witness :
  let st := sample_state ∅ [] in
  let post := sample_combined reference_imports "abc" [] in
  (type (base post) = COMBINED_USER_ACTIVITY reference_imports
   ∧ ∃ ids, system_post_ids post = Some ids
            ∧ ∀ k, k ∈ ids → Selectors_getPost reference_imports st k = None)
  ∧ deletePost reference_imports st post = ([], Returns (RData DTrue)).
Proof.
  intros st post.
  assert (type (base post) = COMBINED_USER_ACTIVITY reference_imports
          ∧ ∃ ids, system_post_ids post = Some ids
                   ∧ ∀ k, k ∈ ids
                          → Selectors_getPost reference_imports st k = None)
    as Hun.
  { split; [reflexivity|]. exists []. split; [reflexivity|].
    by intros k ?%elem_of_nil. }
  split; [exact Hun|].
  exact (proj2 (proj2 (fan_out_dispatches_nothing reference_imports st post)) Hun).
Defined.

(** ** The captures of the mention pattern *)

Lemma match_punct_Forall (s : list ascii) :
  Forall (fun c => class_punct c = true) (match_punct s).1.
Proof.
  induction s as [|c s IH]; cbn; [done|].
  destruct (class_punct c) eqn:Hc; [|done].
  destruct (match_punct s) as [t r]. cbn in *. by constructor.
Qed.

Lemma trim_punct_split (run : list ascii) :
  ∃ punct, run = trim_punct run ++ punct
           ∧ Forall (fun c => class_punct c = true) punct.
Proof.
  exists (match_punct (drop (length (trim_punct run)) (run ++ []))).1.
  split; [|apply match_punct_Forall].
  symmetry. apply trim_punct_restore. by intros c [=].
Qed.

Lemma trim_punct_last (run : list ascii) (c : ascii) :
  last (trim_punct run) = Some c → class_punct c = false.
Proof.
  induction run as [|c0 r IH]; cbn [trim_punct]; [done|].
  destruct (trim_punct r) as [|c' t].
  - destruct (class_punct c0) eqn:Hc0; [done|]. by intros [= <-].
  - rewrite last_cons_cons. exact IH.
Qed.

(** The two candidates of a mention, character by character. *)
Lemma mention_candidates_captures (s : list ascii) (i : nat)
    (full trimmed : string) :
  mention_candidates s i = Some (full, trimmed) →
  ∃ name punct,
    trimmed = string_of_list_ascii name
    ∧ full = string_of_list_ascii (name ++ punct)
    ∧ (∃ c, last name = Some c ∧ class_word_i c = true)
    ∧ Forall (fun c => class_name_i c = true) name
    ∧ Forall (fun c => class_punct c = true) punct
    ∧ s !! i = Some "@"%char
    ∧ name ++ punct = name_run (drop (S i) s).
Proof.
  unfold mention_candidates.
  destruct (drop i s) as [|c rest] eqn:Hdrop; [done|].
  apply drop_cons_inv in Hdrop as [Hi Hrest].
  destruct (Ascii.eqb c "@") eqn:Hc; [|done].
  apply Ascii.eqb_eq in Hc. subst c.
  destruct (negb _); [|done]. cbn [andb].
  destruct (trim_punct (name_run rest)) as [|c t] eqn:Ht; [done|].
  intros [= <- <-].
  destruct (trim_punct_split (name_run rest)) as (punct & Hsplit & Hpunct).
  rewrite Ht in Hsplit.
  pose proof (name_run_Forall rest) as Hname.
  rewrite Hsplit in Hname. apply Forall_app in Hname as [Hname _].
  exists (c :: t), punct. rewrite Hrest, <- Hsplit.
  split_and!; try done.
  destruct (last (c :: t)) as [l|] eqn:Hlast;
    [|by apply last_None in Hlast].
  exists l. split; [done|].
  assert (class_name_i l = true) as Hl.
  { rewrite Forall_forall in Hname. apply Hname.
    by apply last_Some_elem_of. }
  rewrite <- Ht in Hlast. apply trim_punct_last in Hlast.
  unfold class_name_i in Hl. rewrite Hlast, orb_false_r in Hl. done.
Qed.

(** What a match captures: after the [@], [match[2]] is a non-empty
    run of alphanumeric/._- characters that ends with a letter, a
    digit or an underscore, and [match[1]] is that run followed by
    nothing but [.] and [-]; together they are the whole run of such
    characters that follows the [@]. *)
Theorem mention_match_captures (s : list ascii) (i : nat) (m : RegExpMatch) :
  match_at s i = Some m →
  ∃ name punct,
    match_2 m = string_of_list_ascii name
    ∧ match_1 m = string_of_list_ascii (name ++ punct)
    ∧ (∃ c, last name = Some c ∧ class_word_i c = true)
    ∧ Forall (fun c => class_name_i c = true) name
    ∧ Forall (fun c => class_punct c = true) punct
    ∧ s !! i = Some "@"%char
    ∧ name ++ punct = name_run (drop (S i) s)
    ∧ lastIndex m = i + 1 + length (name ++ punct).
Proof.
  intros Hm. pose proof (match_at_candidates s i) as H. rewrite Hm in H.
  destruct H as (Hc & _ & Hlast & _).
  destruct (mention_candidates_captures _ _ _ _ Hc)
    as (name & punct & H2 & H1 & Hw & Hn & Hp & Hat & Hrun).
  exists name, punct. rewrite Hlast, <- Hrun. by split_and!.
Qed.

Lemma mention_match_captures_witness :
  let s := list_ascii_of_string "cc @ann-marie.- ok" in
  let m := {| index := 3; lastIndex := 15;
              match_1 := "ann-marie.-"; match_2 := "ann-marie" |} in
  match_at s 3 = Some m
  ∧ ∃ name punct,
      match_2 m = string_of_list_ascii name
      ∧ match_1 m = string_of_list_ascii (name ++ punct)
      ∧ Forall (fun c => class_punct c = true) punct.
Proof.
  intros s m.
  assert (match_at s 3 = Some m) as Hm by reflexivity.
  split; [exact Hm|].
  destruct (mention_match_captures s 3 m Hm)
    as (name & punct & H2 & H1 & _ & _ & Hp & _).
  exists name, punct. split_and!; [exact H2 | exact H1 | exact Hp].
Defined.

(** ** What the mention scan never demands *)

(** The demand set, by the matches of the messages. *)
Lemma getNeededAtMentionedUsernames_matches (imp : Imports) (st : GlobalState)
    (posts : list Post) :
  ∃ usernames,
    getNeededAtMentionedUsernames imp st posts = Some usernames
    ∧ ∀ u, u ∈ usernames ↔
           ∃ post i m, post ∈ posts
             ∧ match_at (list_ascii_of_string (message post)) i = Some m
             ∧ demanded_by_code imp (getUsersByUsername imp st) (match_1 m, match_2 m)
             ∧ (u = match_1 m ∨ u = match_2 m).
Proof.
  destruct (mention_fold_spec imp st posts ∅) as (usernames & Hfold & Hspec).
  exists usernames. split; [exact Hfold|]. intros u. rewrite Hspec.
  split; [by intros [[]%not_elem_of_empty | ?] | by right].
Qed.

(** An [@] that follows a letter, a digit or an underscore starts no
    mention: a batch in which every [@] is of that kind, as in mail
    addresses, demands no username. *)
Theorem no_mention_inside_words (imp : Imports) (st : GlobalState)
    (posts : list Post) :
  (∀ post i, post ∈ posts →
     list_ascii_of_string (message post) !! i = Some "@"%char →
     ∃ j c, i = S j ∧ list_ascii_of_string (message post) !! j = Some c
            ∧ class_word_i c = true) →
  getNeededAtMentionedUsernames imp st posts = Some ∅.
Proof.
  intros Hword.
  destruct (getNeededAtMentionedUsernames_matches imp st posts)
    as (usernames & -> & Hspec).
  f_equal.
  apply set_eq. intros u. rewrite Hspec. split; [|by intros ?%not_elem_of_empty].
  intros (post & i & m & Hp & Hm & _). exfalso.
  pose proof (match_at_candidates (list_ascii_of_string (message post)) i) as H.
  rewrite Hm in H. destruct H as (_ & _ & _ & Hat).
  destruct (Hword post i Hp Hat) as (j & c & -> & Hj & Hc).
  revert Hm. unfold match_at. rewrite Hj.
  destruct (drop (S j) (list_ascii_of_string (message post))) as [|c' rest] eqn:Hd;
    [done|].
  apply drop_cons_inv in Hd as [Hd _]. rewrite Hat in Hd. injection Hd as <-.
  cbn [IsWordChar]. rewrite Hc. done.
Qed.

Lemma no_mention_inside_words_witness :
  let posts := [sample_post "p" "u" "town" "mail bob@example.com"] in
  (∀ post i, post ∈ posts →
     list_ascii_of_string (message post) !! i = Some "@"%char →
     ∃ j c, i = S j ∧ list_ascii_of_string (message post) !! j = Some c
            ∧ class_word_i c = true)
  ∧ getNeededAtMentionedUsernames reference_imports (sample_state ∅ []) posts
    = Some ∅.
Proof.
  intros posts.
  assert (∀ post i, post ∈ posts →
            list_ascii_of_string (message post) !! i = Some "@"%char →
            ∃ j c, i = S j ∧ list_ascii_of_string (message post) !! j = Some c
                   ∧ class_word_i c = true) as Hword.
  { intros post i Hp. apply list_elem_of_In in Hp. cbn in Hp.
    destruct Hp as [<- | []]. intros Hat.
    assert (i = 8) as ->.
    { do 20 (destruct i as [|i];
             [first [reflexivity | vm_compute in Hat; discriminate Hat]|]).
      vm_compute in Hat. discriminate Hat. }
    exists 7, "b"%char. by split_and!. }
  split; [exact Hword|].
  exact (no_mention_inside_words reference_imports (sample_state ∅ []) posts Hword).
Defined.

(** The demand set never holds a username that resolves to a cached
    profile; and, the reserved mentions ending with no [.] or [-], it
    never holds a reserved mention. *)
Theorem mention_demand_excludes (imp : Imports) (st : GlobalState)
    (posts : list Post) (usernames : gset string) (u : string) :
  getNeededAtMentionedUsernames imp st posts = Some usernames →
  u ∈ usernames →
  getUsersByUsername imp st !! u = None
  ∧ ((∀ r c, r ∈ SPECIAL_MENTIONS imp →
        last (list_ascii_of_string r) = Some c → class_punct c = false) →
     u ∉ SPECIAL_MENTIONS imp).
Proof.
  intros Hrun Hu.
  destruct (getNeededAtMentionedUsernames_matches imp st posts)
    as (usernames' & Hfold & Hspec).
  rewrite Hfold in Hrun. injection Hrun as ->. apply Hspec in Hu.
  destruct Hu as (post & i & m & _ & Hm & Hd & Hu).
  destruct Hd as ((Hres & H1 & H2) & _). cbn [fst snd] in *.
  split; [by destruct Hu as [-> | ->]|].
  intros Hplain Hin. destruct Hu as [-> | ->]; [|done].
  pose proof (match_at_candidates (list_ascii_of_string (message post)) i)
    as Hcand.
  rewrite Hm in Hcand. destruct Hcand as (Hcand & _).
  destruct (mention_candidates_captures _ _ _ _ Hcand)
    as (name & punct & Hm2 & Hm1 & _ & _ & Hp & _).
  destruct (last punct) as [c|] eqn:Hlast.
  - assert (class_punct c = true) as Hc.
    { rewrite Forall_forall in Hp. apply Hp. by apply last_Some_elem_of. }
    assert (class_punct c = false) as Hc'; [|congruence].
    apply (Hplain _ _ Hin).
    rewrite Hm1, list_ascii_of_string_of_list_ascii.
    rewrite last_app, Hlast. done.
  - apply last_None in Hlast. subst punct. rewrite app_nil_r in Hm1.
    apply Hres. by rewrite Hm2, <- Hm1.
Qed.

Lemma mention_demand_excludes_witness :
  let posts := [sample_post "p" "u" "town" "ask @ann. or @channel"] in
  let st := sample_state ∅ [] in
  getNeededAtMentionedUsernames reference_imports st posts = Some {["ann."; "ann"]}
  ∧ "ann" ∈ ({["ann."; "ann"]} : gset string)
  ∧ getUsersByUsername reference_imports st !! "ann" = None.
Proof.
  intros posts st.
  assert (getNeededAtMentionedUsernames reference_imports st posts
          = Some {["ann."; "ann"]}) as Hrun by (by vm_compute).
  assert ("ann" ∈ ({["ann."; "ann"]} : gset string)) as Hin
    by (apply elem_of_union; right; by apply elem_of_singleton).
  split_and!; [exact Hrun | exact Hin |].
  exact (proj1 (mention_demand_excludes reference_imports st posts _ "ann"
                  Hrun Hin)).
Defined.

(** ** Scanning a batch in parts *)

(** The demand set of a batch is the union of the demand sets of its
    parts: posts are scanned independently of one another, and the
    order of the batch does not matter. *)
Theorem mention_scan_app (imp : Imports) (st : GlobalState)
    (posts1 posts2 : list Post) :
  ∃ usernames1 usernames2,
    getNeededAtMentionedUsernames imp st posts1 = Some usernames1
    ∧ getNeededAtMentionedUsernames imp st posts2 = Some usernames2
    ∧ getNeededAtMentionedUsernames imp st (posts1 ++ posts2)
      = Some (usernames1 ∪ usernames2)
    ∧ getNeededAtMentionedUsernames imp st (posts2 ++ posts1)
      = Some (usernames1 ∪ usernames2).
Proof.
  destruct (getNeededAtMentionedUsernames_matches imp st posts1)
    as (u1 & H1 & Hs1).
  destruct (getNeededAtMentionedUsernames_matches imp st posts2)
    as (u2 & H2 & Hs2).
  destruct (getNeededAtMentionedUsernames_matches imp st (posts1 ++ posts2))
    as (u12 & H12 & Hs12).
  destruct (getNeededAtMentionedUsernames_matches imp st (posts2 ++ posts1))
    as (u21 & H21 & Hs21).
  exists u1, u2. rewrite H12, H21.
  split_and!; try done; f_equal; apply set_eq;
    intros u; rewrite elem_of_union, Hs1, Hs2.
  - rewrite Hs12. setoid_rewrite elem_of_app. split.
    + intros (p & i & m & [Hp | Hp] & H); [left | right]; eauto 10.
    + intros [(p & i & m & Hp & H) | (p & i & m & Hp & H)];
        exists p, i, m; eauto.
  - rewrite Hs21. setoid_rewrite elem_of_app. split.
    + intros (p & i & m & [Hp | Hp] & H); [right | left]; eauto 10.
    + intros [(p & i & m & Hp & H) | (p & i & m & Hp & H)];
        exists p, i, m; eauto.
Qed.

(** ** The prefetcher: whose profiles and statuses are fetched *)

Lemma authors_fold_spec (st : GlobalState) (posts : list Post)
    (U0 S0 : gset string) :
  let U := (foldl (authors_step st) (U0, S0) posts).1 in
  let S := (foldl (authors_step st) (U0, S0) posts).2 in
  (∀ u, u ∈ U ↔
        u ∈ U0
        ∨ ∃ post, post ∈ posts ∧ user_id post = u
                  ∧ u ≠ entities_users_currentUserId st
                  ∧ entities_users_profiles st !! u = None)
  ∧ (∀ u, u ∈ S ↔
          u ∈ S0
          ∨ ∃ post, post ∈ posts ∧ user_id post = u
                    ∧ truthy_string (entities_users_statuses st !! u) = false).
Proof.
  revert U0 S0. induction posts as [|post posts IH]; intros U0 S0.
  - cbn. split; intros u; (split; [by left|]);
      by intros [? | (p & []%elem_of_nil & _)].
  - cbn [foldl].
    set (S1 := if negb (truthy_string (entities_users_statuses st !! user_id post))
               then {[user_id post]} ∪ S0 else S0).
    set (U1 := if str_eq (user_id post) (entities_users_currentUserId st)
               then U0
               else if bool_decide
                         (is_Some (entities_users_profiles st !! user_id post))
               then U0 else {[user_id post]} ∪ U0).
    assert (authors_step st (U0, S0) post = (U1, S1)) as ->.
    { unfold authors_step. fold S1. subst U1.
      destruct (str_eq _ _); [done|]. by destruct (bool_decide _). }
    destruct (IH U1 S1) as [HU HS]. split; intros u.
    + rewrite HU. subst U1. unfold str_eq.
      destruct (String.eqb (user_id post) (entities_users_currentUserId st))
        eqn:Hcur.
      * apply String.eqb_eq in Hcur. split.
        -- intros [? | (p & Hp & ?)]; [by left | right].
           exists p. split; [by right | done].
        -- intros [? | (p & [-> | Hp]%elem_of_cons & Hu & Hne & ?)];
             [by left | congruence | right; eauto].
      * apply String.eqb_neq in Hcur.
        destruct (entities_users_profiles st !! user_id post) as [prof|] eqn:Hp.
        -- rewrite bool_decide_eq_true_2 by eauto. split.
           ++ intros [? | (p & Hin & ?)]; [by left | right].
              exists p. split; [by right | done].
           ++ intros [? | (p & [-> | Hin]%elem_of_cons & Hu & Hne & Hnone)];
                [by left | subst u; congruence | right; eauto].
        -- rewrite bool_decide_eq_false_2 by (by intros [? ?]).
           rewrite elem_of_union, elem_of_singleton. split.
           ++ intros [[-> | ?] | (p & Hin & ?)].
              ** right. exists post. split; [left | done].
              ** by left.
              ** right. exists p. split; [by right | done].
           ++ intros [? | (p & [-> | Hin]%elem_of_cons & Hu & ?)];
                [by left; right | by left; left | right; eauto].
    + rewrite HS. subst S1.
      destruct (truthy_string (entities_users_statuses st !! user_id post))
        eqn:Hst; cbn [negb].
      * split.
        -- intros [? | (p & Hin & ?)]; [by left | right].
           exists p. split; [by right | done].
        -- intros [? | (p & [-> | Hin]%elem_of_cons & Hu & Hf)];
             [by left | subst u; congruence | right; eauto].
      * rewrite elem_of_union, elem_of_singleton. split.
        -- intros [[-> | ?] | (p & Hin & ?)].
           ++ right. exists post. split; [left | done].
           ++ by left.
           ++ right. exists p. split; [by right | done].
        -- intros [? | (p & [-> | Hin]%elem_of_cons & Hu & ?)];
             [by left; right | by left; left | right; eauto].
Qed.

(** The fetches of the prefetcher on a non-empty batch: at most one
    of each kind, in this order, none for an empty set. *)
Lemma prefetch_dispatches (imp : Imports) (st : GlobalState)
    (batch : PostsArrayOrMap) :
  Object_values batch ≠ [] →
  ∃ usernames emojis,
    getNeededAtMentionedUsernames imp st (Object_values batch) = Some usernames
    ∧ getNeededCustomEmojis imp st (Object_values batch) = Returns emojis
    ∧ (getProfilesAndStatusesForPosts imp st (Some batch)).1
      = (if bool_decide
              ((foldl (authors_step st) (∅, ∅) (Object_values batch)).1 ≠ ∅)
         then [getProfilesByIds
                 (foldl (authors_step st) (∅, ∅) (Object_values batch)).1]
         else [])
        ++ (if bool_decide
                 ((foldl (authors_step st) (∅, ∅) (Object_values batch)).2 ≠ ∅)
            then [getStatusesByIds
                    (foldl (authors_step st) (∅, ∅) (Object_values batch)).2]
            else [])
        ++ (if bool_decide (usernames ≠ ∅)
            then [getProfilesByUsernames usernames] else [])
        ++ (if bool_decide (emojis ≠ ∅)
            then [getCustomEmojisByName emojis] else []).
Proof.
  intros Hne. unfold getProfilesAndStatusesForPosts.
  destruct (Nat.eqb (length (Object_values batch)) 0) eqn:Hlen.
  { apply Nat.eqb_eq in Hlen. by destruct (Object_values batch). }
  destruct (foldl (authors_step st) (∅, ∅) (Object_values batch)) as [U S].
  destruct (getNeededAtMentionedUsernames_total imp st (Object_values batch))
    as [usernames ->].
  destruct (getNeededCustomEmojis_nonempty imp st (Object_values batch) Hne)
    as [emojis ->].
  exists usernames, emojis. cbn [fst snd]. by rewrite <- !app_assoc.
Qed.

(** The prefetcher asks for the profiles of exactly the authors of the
    batch, other than the current user, that the profile cache does
    not hold, and for the statuses of exactly the authors, the current
    user included, that have no status in the cache. *)
Theorem prefetch_author_demand (imp : Imports) (st : GlobalState)
    (batch : option PostsArrayOrMap) :
  let posts := match batch with Some b => Object_values b | None => [] end in
  let dispatched := (getProfilesAndStatusesForPosts imp st batch).1 in
  let wanted_profile u :=
    u ≠ entities_users_currentUserId st
    ∧ entities_users_profiles st !! u = None
    ∧ ∃ post, post ∈ posts ∧ user_id post = u in
  let wanted_status u :=
    truthy_string (entities_users_statuses st !! u) = false
    ∧ ∃ post, post ∈ posts ∧ user_id post = u in
  (∀ userIds, getProfilesByIds userIds ∈ dispatched →
     ∀ u, u ∈ userIds ↔ wanted_profile u)
  ∧ (∀ userIds, getStatusesByIds userIds ∈ dispatched →
       ∀ u, u ∈ userIds ↔ wanted_status u)
  ∧ (∀ u, wanted_profile u →
       ∃ userIds, getProfilesByIds userIds ∈ dispatched ∧ u ∈ userIds)
  ∧ (∀ u, wanted_status u →
       ∃ userIds, getStatusesByIds userIds ∈ dispatched ∧ u ∈ userIds).
Proof.
  intros posts dispatched wanted_profile wanted_status.
  assert (posts = [] → dispatched = []) as Hempty.
  { subst posts dispatched. destruct batch as [b|]; [|done].
    intros He. unfold getProfilesAndStatusesForPosts. by rewrite He. }
  destruct (decide (posts = [])) as [He | Hne].
  { rewrite (Hempty He). subst wanted_profile wanted_status. cbn beta.
    rewrite He. split_and!.
    - by intros ? ?%elem_of_nil.
    - by intros ? ?%elem_of_nil.
    - by intros u (_ & _ & p & ?%elem_of_nil & _).
    - by intros u (_ & p & ?%elem_of_nil & _). }
  clear Hempty. destruct batch as [b|]; [|done]. subst posts.
  destruct (prefetch_dispatches imp st b Hne)
    as (usernames & emojis & _ & _ & Hrun).
  subst dispatched. rewrite Hrun. clear Hrun.
  destruct (authors_fold_spec st (Object_values b) ∅ ∅) as [HU HS].
  cbn zeta in HU, HS.
  set (U := (foldl (authors_step st) (∅, ∅) (Object_values b)).1) in *.
  set (S := (foldl (authors_step st) (∅, ∅) (Object_values b)).2) in *.
  assert (∀ u, u ∈ U ↔ wanted_profile u) as HU'.
  { intros u. rewrite HU. subst wanted_profile. cbn beta. split.
    - intros [[]%not_elem_of_empty | (p & ? & ? & ? & ?)]. eauto 10.
    - intros (? & ? & p & ? & ?). right. eauto 10. }
  assert (∀ u, u ∈ S ↔ wanted_status u) as HS'.
  { intros u. rewrite HS. subst wanted_status. cbn beta. split.
    - intros [[]%not_elem_of_empty | (p & ? & ? & ?)]. eauto 10.
    - intros (? & p & ? & ?). right. eauto 10. }
  split_and!.
  - intros userIds Hin. rewrite !elem_of_app in Hin.
    destruct Hin as [Hin | [Hin | [Hin | Hin]]];
      case_bool_decide; try (by apply elem_of_nil in Hin);
      apply list_elem_of_In in Hin; cbn in Hin;
      destruct Hin as [Hin | []]; try discriminate Hin.
    injection Hin as <-. exact HU'.
  - intros userIds Hin. rewrite !elem_of_app in Hin.
    destruct Hin as [Hin | [Hin | [Hin | Hin]]];
      case_bool_decide; try (by apply elem_of_nil in Hin);
      apply list_elem_of_In in Hin; cbn in Hin;
      destruct Hin as [Hin | []]; try discriminate Hin.
    injection Hin as <-. exact HS'.
  - intros u Hu. exists U. split; [|by apply HU'].
    rewrite bool_decide_eq_true_2.
    + apply elem_of_app. left. left.
    + intros He. apply HU' in Hu. rewrite He in Hu.
      by apply not_elem_of_empty in Hu.
  - intros u Hu. exists S. split; [|by apply HS'].
    apply elem_of_app. right. rewrite bool_decide_eq_true_2.
    + apply elem_of_app. left. left.
    + intros He. apply HS' in Hu. rewrite He in Hu.
      by apply not_elem_of_empty in Hu.
Qed.

Lemma prefetch_author_demand_witness :
  let st := sample_state ∅ [] in
  let batch := Some (PostsArray [sample_post "p1" "me" "town" "mine";
                                 sample_post "p2" "ann" "town" "hers"]) in
  getProfilesAndStatusesForPosts reference_imports st batch
  = ([getProfilesByIds {["ann"]}; getStatusesByIds {["ann"; "me"]}], Returns tt)
  ∧ ∀ u, u ∈ ({["ann"]} : gset string) → u ≠ entities_users_currentUserId st.
Proof.
  intros st batch.
  assert (getProfilesAndStatusesForPosts reference_imports st batch
          = ([getProfilesByIds {["ann"]}; getStatusesByIds {["ann"; "me"]}],
             Returns tt)) as Hrun by (by vm_compute).
  split; [exact Hrun|]. intros u Hu.
  refine (proj1 (proj1 (proj1 (prefetch_author_demand reference_imports st batch)
                          {["ann"]} _ u) Hu)).
  rewrite Hrun. apply list_elem_of_here.
Defined.

(** The prefetcher starts no fetch for an empty demand set, and at
    most one fetch of each of its four kinds. *)
Theorem prefetch_fetches_nonempty (imp : Imports) (st : GlobalState)
    (batch : option PostsArrayOrMap) :
  let dispatched := (getProfilesAndStatusesForPosts imp st batch).1 in
  length dispatched ≤ 4
  ∧ ∀ a, a ∈ dispatched →
         ∃ demand : gset string,
           demand ≠ ∅
           ∧ (a = getProfilesByIds demand ∨ a = getStatusesByIds demand
              ∨ a = getProfilesByUsernames demand
              ∨ a = getCustomEmojisByName demand).
Proof.
  intros dispatched.
  assert (dispatched = [] ∨ ∃ b, batch = Some b ∧ Object_values b ≠ [])
    as [Hnil | (b & -> & Hne)].
  { subst dispatched. destruct batch as [b|]; [|by left].
    destruct (decide (Object_values b = [])) as [Hv | Hv]; [left | right; eauto].
    unfold getProfilesAndStatusesForPosts. by rewrite Hv. }
  { rewrite Hnil. split; [cbn; lia | by intros a ?%elem_of_nil]. }
  destruct (prefetch_dispatches imp st b Hne) as (usernames & emojis & _ & _ & Hrun).
  subst dispatched. rewrite Hrun. split.
  - rewrite !length_app. repeat case_bool_decide; cbn; lia.
  - intros a Hin. rewrite !elem_of_app in Hin.
    destruct Hin as [Hin | [Hin | [Hin | Hin]]];
      case_bool_decide; try (by apply elem_of_nil in Hin);
      apply list_elem_of_In in Hin; cbn in Hin;
      destruct Hin as [<- | []]; eauto 10.
Qed.

(** ** Where demanded emoji come from *)

(** An emoji is demanded exactly when custom emoji are enabled, the
    first post of the batch carries no metadata, and the parser finds
    the emoji in a scanned text of some post of the batch: a message
    that holds a colon, or the non-empty text of a post's attachments.
    Messages without a colon and empty attachment texts never reach
    the parser. *)
Theorem emoji_demand_provenance (imp : Imports) (st : GlobalState)
    (posts : list Post) (emojis : gset string) (e : string) :
  getNeededCustomEmojis imp st posts = Returns emojis →
  (e ∈ emojis ↔
   getConfig_EnableCustomEmoji imp st = Some "true"
   ∧ (∃ post0, head posts = Some post0 ∧ metadata post0 = None)
   ∧ ∃ post t, post ∈ posts ∧ t ∈ scanned_texts post
               ∧ e ∈ parseNeededCustomEmojisFromText imp t (systemEmojis imp)
                       (selectCustomEmojisByName imp st)
                       (entities_emojis_nonExistentEmoji st)).
Proof.
  unfold getNeededCustomEmojis, opt_str_eq.
  destruct (getConfig_EnableCustomEmoji imp st) as [v|] eqn:Hcfg.
  2: { intros [= <-]. split; [by intros ?%not_elem_of_empty | by intros ([=] & _)]. }
  destruct (String.eqb v "true") eqn:Hv; cbn [negb].
  2: { intros [= <-]. split; [by intros ?%not_elem_of_empty|].
       intros ([= ->] & _). by rewrite String.eqb_refl in Hv. }
  apply String.eqb_eq in Hv. subst v.
  destruct posts as [|post0 rest]; [discriminate|].
  destruct (metadata post0) as [md|] eqn:Hmd.
  - rewrite bool_decide_eq_true_2 by eauto. intros [= <-].
    split; [by intros ?%not_elem_of_empty|].
    intros (_ & (p & [= <-] & Hp) & _). congruence.
  - rewrite bool_decide_eq_false_2 by (by intros [? ?]). intros Heq.
    assert (emojis = foldl (emoji_step imp st) ∅ (post0 :: rest)) as ->
      by congruence.
    rewrite emoji_fold_elem. split.
    + intros [[]%not_elem_of_empty | H]. split_and!; [done | by eauto | done].
    + intros (_ & _ & H). by right.
Qed.

Lemma emoji_demand_provenance_witness :
  let st := sample_state ∅ [] in
  let posts := [sample_post "p1" "u" "town" "no emoji";
                sample_post "p2" "u" "town" "a :party:"] in
  getNeededCustomEmojis reference_imports st posts = Returns {["party"]}
  ∧ ("party" ∈ ({["party"]} : gset string) ↔
     getConfig_EnableCustomEmoji reference_imports st = Some "true"
     ∧ (∃ post0, head posts = Some post0 ∧ metadata post0 = None)
     ∧ ∃ post t, post ∈ posts ∧ t ∈ scanned_texts post
         ∧ "party" ∈ parseNeededCustomEmojisFromText reference_imports t
                        (systemEmojis reference_imports)
                        (selectCustomEmojisByName reference_imports st)
                        (entities_emojis_nonExistentEmoji st)).
Proof.
  intros st posts.
  assert (getNeededCustomEmojis reference_imports st posts
          = Returns {["party"]}) as Hrun by (by vm_compute).
  split; [exact Hrun|].
  exact (emoji_demand_provenance reference_imports st posts _ "party" Hrun).
Defined.

(** ** The text of attachments *)

Lemma string_app_nil_r (s : string) : s +:+ "" = s.
Proof.
  induction s as [|c s IH]; [done|].
  change (String c (s +:+ "") = String c s). by rewrite IH.
Qed.

Lemma string_app_assoc (s1 s2 s3 : string) :
  (s1 +:+ s2) +:+ s3 = s1 +:+ (s2 +:+ s3).
Proof.
  induction s1 as [|c s1 IH]; [done|].
  change (String c ((s1 +:+ s2) +:+ s3) = String c (s1 +:+ (s2 +:+ s3))).
  by rewrite IH.
Qed.

Lemma string_app_eq_nil (s1 s2 : string) :
  s1 +:+ s2 = "" ↔ s1 = "" ∧ s2 = "".
Proof.
  split; [|by intros [-> ->]].
  destruct s1 as [|c s1].
  - change (s2 = "" → "" = "" ∧ s2 = ""). by intros ->.
  - change (String c (s1 +:+ s2) = "" → String c s1 = "" ∧ s2 = "").
    discriminate.
Qed.

(** The [forEach] body of [buildPostAttachmentText], from the text
    built so far. *)
Lemma attachment_fields_from (fs : list AttachmentField) (acc : string) :
  foldl (fun t f => t +:+ " " +:+ value f) acc fs
  = acc +:+ foldl (fun t f => t +:+ " " +:+ value f) "" fs.
Proof.
  revert acc. induction fs as [|f fs IH]; intros acc; cbn [foldl].
  - by rewrite string_app_nil_r.
  - rewrite IH, (IH ("" +:+ " " +:+ value f)).
    change ("" +:+ " " +:+ value f) with (" " +:+ value f).
    by rewrite string_app_assoc.
Qed.

Lemma attachment_text_from (l : list Attachment) (acc : string) :
  foldl (fun attachmentText a =>
           let t1 :=
             match fields a with
             | Some fs =>
                 foldl (fun t f => t +:+ " " +:+ value f) attachmentText fs
             | None => attachmentText
             end in
           let t2 := if String.eqb (pretext a) "" then t1
                     else t1 +:+ " " +:+ pretext a in
           if String.eqb (text a) "" then t2 else t2 +:+ " " +:+ text a)
        acc l
  = acc +:+ buildPostAttachmentText l.
Proof.
  unfold buildPostAttachmentText.
  match goal with |- foldl ?f _ _ = _ => set (step := f) end.
  assert (∀ a acc, step acc a = acc +:+ step "" a) as Hstep.
  { intros a acc'. subst step. cbv beta zeta.
    destruct (fields a) as [fs|].
    - rewrite (attachment_fields_from fs acc').
      destruct (String.eqb (pretext a) ""), (String.eqb (text a) "");
        by rewrite ?string_app_assoc.
    - destruct (String.eqb (pretext a) ""), (String.eqb (text a) "");
        try done; by rewrite ?string_app_nil_r, ?string_app_assoc. }
  revert acc. induction l as [|a l IH]; intros acc; cbn [foldl].
  - by rewrite string_app_nil_r.
  - rewrite IH, (IH (step "" a)), (Hstep a acc).
    by rewrite string_app_assoc.
Qed.

(** The text of attachments is built attachment by attachment: that
    of two lists put together is the concatenation of their texts. It
    is empty exactly when no attachment has a field, a pretext or a
    text; a field adds a space even when its value is empty. *)
Theorem attachment_text_concat (l1 l2 : list Attachment) :
  buildPostAttachmentText (l1 ++ l2)
  = buildPostAttachmentText l1 +:+ buildPostAttachmentText l2
  ∧ (buildPostAttachmentText l1 = "" ↔
     ∀ a, a ∈ l1 →
          (fields a = None ∨ fields a = Some [])
          ∧ pretext a = "" ∧ text a = "").
Proof.
  split.
  - unfold buildPostAttachmentText at 1. rewrite foldl_app.
    fold (buildPostAttachmentText l1). apply attachment_text_from.
  - induction l1 as [|a l IH].
    + split; [by intros _ a ?%elem_of_nil | done].
    + change (a :: l) with ([a] ++ l).
      unfold buildPostAttachmentText at 1. rewrite foldl_app.
      rewrite attachment_text_from, string_app_eq_nil, IH.
      assert (foldl (fun attachmentText a =>
                let t1 :=
                  match fields a with
                  | Some fs =>
                      foldl (fun t f => t +:+ " " +:+ value f) attachmentText fs
                  | None => attachmentText
                  end in
                let t2 := if String.eqb (pretext a) "" then t1
                          else t1 +:+ " " +:+ pretext a in
                if String.eqb (text a) "" then t2 else t2 +:+ " " +:+ text a)
                "" [a] = ""
              ↔ (fields a = None ∨ fields a = Some [])
                ∧ pretext a = "" ∧ text a = "") as ->.
      { cbn [foldl]. cbv zeta.
        destruct (String.eqb (text a) "") eqn:Ht.
        2: { apply String.eqb_neq in Ht. rewrite string_app_eq_nil.
             split; [intros [_ H]; discriminate H | by intros (_ & _ & ?)]. }
        apply String.eqb_eq in Ht.
        destruct (String.eqb (pretext a) "") eqn:Hp.
        2: { apply String.eqb_neq in Hp. rewrite string_app_eq_nil.
             split; [intros [_ H]; discriminate H | by intros (_ & ? & _)]. }
        apply String.eqb_eq in Hp.
        destruct (fields a) as [[|f fs]|];
          [split; [intros _|]; by eauto | | split; [intros _|]; by eauto].
        cbn [foldl]. rewrite attachment_fields_from, string_app_eq_nil.
        split; [intros [H _]; discriminate H|].
        by intros ([[=] | [=]] & _). }
      split.
      * intros [Ha Hl] a' [-> | Hin]%elem_of_cons; [done | by apply Hl].
      * intros H. split; [apply H; left | intros a' Hin; apply H; by right].
Qed.

(** ** The merged [posts] object of getPostsAround *)

Lemma key_rank_bound (k : string) : (key_rank k ≤ 2 ^ 32 - 1)%N.
Proof.
  unfold key_rank, array_index.
  destruct (list_ascii_of_string k) as [|c s']; [done|].
  destruct (Ascii.eqb c "0" && negb (Nat.eqb (length s') 0)); [done|].
  destruct (decimal_value (c :: s') 0) as [n|]; [|done].
  cbn [mbind option_bind].
  destruct (n <? 2 ^ 32 - 1)%N eqn:Hn; cbn [default]; [|done].
  apply N.ltb_lt in Hn. change (n ≤ 2 ^ 32 - 1)%N. lia.
Qed.

Lemma key_rank_named (k : string) :
  array_index k = None → key_rank k = (2 ^ 32 - 1)%N.
Proof. unfold key_rank. by intros ->. Qed.

Lemma dict_replace_keys (k : string) (v : Post) (d : PostDict) :
  (dict_replace k v d).*1 = d.*1.
Proof.
  induction d as [|[k1 v1] d IH]; [done|]. cbn [dict_replace].
  destruct (String.eqb k1 k) eqn:H1.
  - apply String.eqb_eq in H1. by subst k1.
  - rewrite !fmap_cons. by rewrite IH.
Qed.

(** Where a new key is put: after keys of lower or equal rank, before
    a key of higher rank. *)
Lemma dict_insert_keys (k : string) (v : Post) (d : PostDict) :
  ∃ l1 l2,
    d.*1 = l1 ++ l2 ∧ (dict_insert k v d).*1 = l1 ++ k :: l2
    ∧ Forall (fun k' => (key_rank k' ≤ key_rank k)%N) l1
    ∧ ∀ k', head l2 = Some k' → (key_rank k < key_rank k')%N.
Proof.
  induction d as [|[k1 v1] d IH]; cbn [dict_insert].
  - exists [], []. by split_and!.
  - destruct (N.ltb_spec (key_rank k) (key_rank k1)) as [Hlt | Hge].
    + exists [], (k1 :: d.*1). split_and!; try done. by intros k' [= <-].
    + destruct IH as (l1 & l2 & H1 & H2 & H3 & H4).
      exists (k1 :: l1), l2. rewrite !fmap_cons, H1, H2.
      split_and!; try done. by constructor.
Qed.

Lemma dict_set_elem (x k : string) (v : Post) (d : PostDict) :
  x ∈ (dict_set k v d).*1 ↔ x = k ∨ x ∈ d.*1.
Proof.
  unfold dict_set. case_bool_decide as Hin.
  - rewrite dict_replace_keys. split; [by right | by intros [-> | ?]].
  - destruct (dict_insert_keys k v d) as (l1 & l2 & -> & -> & _).
    rewrite !elem_of_app, elem_of_cons. tauto.
Qed.

Lemma dict_set_NoDup (k : string) (v : Post) (d : PostDict) :
  NoDup d.*1 → NoDup (dict_set k v d).*1.
Proof.
  unfold dict_set. case_bool_decide as Hin; [by rewrite dict_replace_keys|].
  destruct (dict_insert_keys k v d) as (l1 & l2 & Hd & -> & _).
  rewrite Hd in Hin |- *. rewrite !NoDup_app, NoDup_cons.
  intros (Hl1 & Hdis & Hl2). rewrite elem_of_app in Hin.
  split_and!; try done; [|tauto].
  intros x Hx [-> | Hx2]%elem_of_cons; [tauto | by apply (Hdis x)].
Qed.

(** Assignment keeps the keys in enumeration order. *)
Lemma dict_set_order (k : string) (v : Post) (d : PostDict) :
  own_key_order d → own_key_order (dict_set k v d).
Proof.
  unfold own_key_order, dict_set.
  case_bool_decide as Hin; [by rewrite dict_replace_keys|].
  destruct (dict_insert_keys k v d) as (l1 & l2 & -> & -> & Hlow & Hhigh).
  rewrite !StronglySorted_app, StronglySorted_cons.
  intros (Hcross & Hs1 & Hs2).
  assert (Forall (fun k' => (key_rank k ≤ key_rank k')%N) l2) as Hup.
  { destruct l2 as [|k2 l2]; [done|].
    specialize (Hhigh k2 eq_refl).
    apply StronglySorted_cons in Hs2 as [Hall _].
    constructor; [lia|].
    eapply Forall_impl; [exact Hall|]. intros k' Hk'. cbn in Hk'. lia. }
  rewrite Forall_forall in Hlow, Hup. split_and!; try done.
  - intros x1 x2 Hx1 [-> | Hx2]%elem_of_cons;
      [by apply Hlow | by apply Hcross].
  - by apply Forall_forall.
Qed.

(** Among the keys that are no array index, a new one is enumerated
    last and the others keep their order. *)
Lemma dict_set_named (k : string) (v : Post) (d : PostDict) :
  filter (fun k' => array_index k' = None) (dict_set k v d).*1
  = filter (fun k' => array_index k' = None) d.*1
    ++ (if bool_decide (k ∈ d.*1) then []
        else if bool_decide (array_index k = None) then [k] else []).
Proof.
  unfold dict_set. case_bool_decide as Hin.
  { by rewrite dict_replace_keys, app_nil_r. }
  destruct (dict_insert_keys k v d) as (l1 & l2 & -> & -> & _ & Hhigh).
  case_bool_decide as Hk.
  - destruct l2 as [|k2 l2].
    + rewrite app_nil_r, filter_app, filter_cons_True by done. done.
    + specialize (Hhigh k2 eq_refl). pose proof (key_rank_bound k2).
      rewrite (key_rank_named k Hk) in Hhigh. lia.
  - rewrite !filter_app, filter_cons_False by done. by rewrite app_nil_r.
Qed.

Lemma dict_get_not_key (k : string) (d : PostDict) :
  k ∉ d.*1 → dict_get k d = None.
Proof.
  induction d as [|[k1 v1] d IH]; cbn; [done|].
  intros Hnot. destruct (String.eqb k1 k) eqn:H1.
  - apply String.eqb_eq in H1. subst k1. exfalso. apply Hnot. left.
  - apply IH. intros Hin. apply Hnot. by right.
Qed.

Lemma dict_get_replace (k k' : string) (v : Post) (d : PostDict) :
  k' ∈ d.*1 →
  dict_get k (dict_replace k' v d)
  = if String.eqb k' k then Some v else dict_get k d.
Proof.
  induction d as [|[k1 v1] d IH]; [by intros ?%elem_of_nil|].
  rewrite fmap_cons. cbn [fst dict_replace dict_get]. intros Hin.
  destruct (String.eqb k1 k') eqn:H1.
  - apply String.eqb_eq in H1. subst k1. cbn [dict_get].
    by destruct (String.eqb k' k).
  - apply String.eqb_neq in H1. cbn [dict_get].
    apply elem_of_cons in Hin as [-> | Hin]; [done|].
    rewrite (IH Hin). destruct (String.eqb k1 k) eqn:H2; [|done].
    apply String.eqb_eq in H2. subst k1.
    destruct (String.eqb k' k) eqn:H3; [|done].
    apply String.eqb_eq in H3. by subst k'.
Qed.

Lemma dict_get_insert (k k' : string) (v : Post) (d : PostDict) :
  k' ∉ d.*1 →
  dict_get k (dict_insert k' v d)
  = if String.eqb k' k then Some v else dict_get k d.
Proof.
  induction d as [|[k1 v1] d IH]; [done|].
  rewrite fmap_cons, not_elem_of_cons. cbn [fst dict_insert].
  intros [Hne Hnot].
  destruct (key_rank k' <? key_rank k1)%N; [done|].
  cbn [dict_get]. rewrite (IH Hnot).
  destruct (String.eqb k1 k) eqn:H2; [|done].
  apply String.eqb_eq in H2. subst k1.
  destruct (String.eqb k' k) eqn:H3; [|done].
  apply String.eqb_eq in H3. by subst k'.
Qed.

Lemma dict_get_set (k k' : string) (v : Post) (d : PostDict) :
  dict_get k (dict_set k' v d) = if String.eqb k' k then Some v else dict_get k d.
Proof.
  unfold dict_set. case_bool_decide.
  - by apply dict_get_replace.
  - by apply dict_get_insert.
Qed.

(** Spreading keeps keys unique and in enumeration order. *)
Lemma Object_spread_keys (target source : PostDict) :
  NoDup target.*1 → own_key_order target →
  NoDup (Object_spread target source).*1
  ∧ own_key_order (Object_spread target source).
Proof.
  unfold Object_spread. revert target.
  induction source as [|[k v] source IH]; intros target Hnd Hord; cbn [foldl];
    [done|].
  apply IH; [by apply dict_set_NoDup | by apply dict_set_order].
Qed.

(** Among the keys that are no array index, those of the target stay
    first, in their order. *)
Lemma Object_spread_named (target source : PostDict) :
  ∃ added,
    filter (fun k => array_index k = None) (Object_spread target source).*1
    = filter (fun k => array_index k = None) target.*1 ++ added.
Proof.
  unfold Object_spread. revert target.
  induction source as [|[k v] source IH]; intros target; cbn [foldl].
  - exists []. by rewrite app_nil_r.
  - cbn [fst snd]. destruct (IH (dict_set k v target)) as (added & ->).
    rewrite dict_set_named, <- app_assoc. by eexists.
Qed.

(** Spreading an object whose keys are new to the target keeps, among
    the keys that are no array index, the order of the source. *)
Lemma Object_spread_named_fresh (target source : PostDict) :
  NoDup source.*1 → (∀ k, k ∈ source.*1 → k ∉ target.*1) →
  filter (fun k => array_index k = None) (Object_spread target source).*1
  = filter (fun k => array_index k = None) target.*1
    ++ filter (fun k => array_index k = None) source.*1.
Proof.
  unfold Object_spread. revert target.
  induction source as [|[k v] source IH]; intros target Hnd Hfresh;
    cbn [foldl].
  - by rewrite app_nil_r.
  - rewrite fmap_cons in Hnd, Hfresh. cbn [fst snd] in *.
    apply NoDup_cons in Hnd as [Hk Hnd].
    rewrite IH; [|done|].
    + rewrite dict_set_named, fmap_cons.
      rewrite bool_decide_eq_false_2 by (apply Hfresh; left).
      rewrite <- app_assoc. f_equal. cbn [fst].
      case_bool_decide as Hidx.
      * by rewrite filter_cons_True.
      * by rewrite filter_cons_False.
    + intros k' Hk' [-> | Hin]%dict_set_elem; [done|].
      apply (Hfresh k'); [by right | done].
Qed.

(** A key of the source is read from the source, any other key from
    the target. *)
Lemma dict_get_spread (k : string) (target source : PostDict) :
  NoDup source.*1 →
  dict_get k (Object_spread target source)
  = match dict_get k source with
    | Some v => Some v
    | None => dict_get k target
    end.
Proof.
  unfold Object_spread. revert target.
  induction source as [|[k1 v1] source IH]; intros target Hnd; cbn [foldl];
    [done|].
  cbn [fst snd] in *. apply NoDup_cons in Hnd as [Hk1 Hnd].
  rewrite IH by done. cbn [dict_get]. rewrite dict_get_set.
  destruct (String.eqb k1 k) eqn:H1; [|done].
  apply String.eqb_eq in H1. subst k1. by rewrite dict_get_not_key.
Qed.

(** In the post list [getPostsAround] builds, a post that several of
    the sub-fetches returned is taken from the before-page, else from
    the thread, else from the after-page, and keys stay unique. The
    object enumerates its posts as any object does: identifiers that
    are array indices first, in ascending numeric order, whichever
    page they came from; then the other identifiers, those of the
    after-page first, in their order. The boundary markers come from
    the after-page and the before-page, those of the thread are
    dropped. *)
Theorem getPostsAround_merged_posts (imp : Imports) (st : GlobalState)
    (channelId postId : string) (after thread before combined : CombinedPostList) :
  NoDup (posts after).*1 → NoDup (posts thread).*1 → NoDup (posts before).*1 →
  (getPostsAround imp st channelId postId (Resolved (after, thread, before))).2
  = Returns (RData (DPosts combined)) →
  NoDup (posts combined).*1
  ∧ own_key_order (posts combined)
  ∧ (∃ added,
       filter (fun k => array_index k = None) (posts combined).*1
       = filter (fun k => array_index k = None) (posts after).*1 ++ added)
  ∧ (∀ k, dict_get k (posts combined)
          = match dict_get k (posts before) with
            | Some p => Some p
            | None =>
                match dict_get k (posts thread) with
                | Some p => Some p
                | None => dict_get k (posts after)
                end
            end)
  ∧ next_post_id combined = next_post_id after
  ∧ prev_post_id combined = prev_post_id before.
Proof.
  intros Ha Ht Hb. unfold getPostsAround.
  match goal with
  | |- context [getProfilesAndStatusesForPosts imp st ?b] =>
      pose proof (getProfilesAndStatusesForPosts_returns imp st b) as Hret;
      destruct (getProfilesAndStatusesForPosts imp st b) as [fetches o]
  end.
  cbn in Hret. subst o. cbn [snd]. intros [= <-]. cbn [posts next_post_id prev_post_id].
  destruct (Object_spread_keys [] (posts after)) as (Hnd1 & Hord1);
    [constructor | constructor |].
  destruct (Object_spread_keys _ (posts thread) Hnd1 Hord1) as (Hnd2 & Hord2).
  destruct (Object_spread_keys _ (posts before) Hnd2 Hord2) as (Hnd3 & Hord3).
  split_and!; try done.
  - destruct (Object_spread_named
                (Object_spread (Object_spread [] (posts after)) (posts thread))
                (posts before)) as (added3 & ->).
    destruct (Object_spread_named (Object_spread [] (posts after))
                (posts thread)) as (added2 & ->).
    rewrite (Object_spread_named_fresh [] (posts after) Ha)
      by (by intros k _ ?%elem_of_nil).
    exists (added2 ++ added3). by rewrite app_assoc.
  - intros k. rewrite !dict_get_spread by done. cbn [dict_get].
    by destruct (dict_get k (posts before)), (dict_get k (posts thread)),
         (dict_get k (posts after)).
Qed.

Lemma getPostsAround_merged_posts_witness :
  let st := sample_state ∅ [] in
  let p5 := sample_post "5" "me" "town" "five" in
  let p5' := sample_post "5" "me" "town" "five, edited" in
  let p3 := sample_post "3" "me" "town" "three" in
  let p2 := sample_post "2" "me" "town" "two" in
  let pz := sample_post "zk8" "me" "town" "newest" in
  let pa := sample_post "a17" "me" "town" "oldest" in
  let after := {| posts := [("5", p5); ("zk8", pz)]; order := ["zk8"; "5"];
                  next_post_id := ""; prev_post_id := "3" |} in
  let thread := {| posts := [("3", p3); ("5", p5')]; order := ["3"; "5"];
                   next_post_id := "x"; prev_post_id := "y" |} in
  let before := {| posts := [("2", p2); ("a17", pa)]; order := ["2"; "a17"];
                   next_post_id := "3"; prev_post_id := "" |} in
  let combined := {| posts := [("2", p2); ("3", p3); ("5", p5');
                               ("zk8", pz); ("a17", pa)];
                     order := ["zk8"; "5"; "3"; "2"; "a17"];
                     next_post_id := ""; prev_post_id := "" |} in
  NoDup (posts after).*1 ∧ NoDup (posts thread).*1 ∧ NoDup (posts before).*1
  ∧ (getPostsAround reference_imports st "town" "3"
       (Resolved (after, thread, before))).2
    = Returns (RData (DPosts combined))
  ∧ dict_get "5" (posts combined) = Some p5'
  ∧ own_key_order (posts combined).
Proof.
  intros st p5 p5' p3 p2 pz pa after thread before combined.
  assert (NoDup (posts after).*1) as Ha
    by (apply (bool_decide_unpack _); by vm_compute).
  assert (NoDup (posts thread).*1) as Ht
    by (apply (bool_decide_unpack _); by vm_compute).
  assert (NoDup (posts before).*1) as Hb
    by (apply (bool_decide_unpack _); by vm_compute).
  assert ((getPostsAround reference_imports st "town" "3"
             (Resolved (after, thread, before))).2
          = Returns (RData (DPosts combined))) as Hrun by (by vm_compute).
  split_and!; [exact Ha | exact Ht | exact Hb | exact Hrun | |].
  - destruct (getPostsAround_merged_posts reference_imports st "town" "3"
                after thread before combined Ha Ht Hb Hrun)
      as (_ & _ & _ & Hget & _).
    rewrite Hget. reflexivity.
  - exact (proj1 (proj2 (getPostsAround_merged_posts reference_imports st
                           "town" "3" after thread before combined
                           Ha Ht Hb Hrun))).
Defined.

(** ** Read and unread never both *)

(** Whatever the post, [lastPostActions] first dispatches the batch
    with the receipt and the stop-typing signal. For an ignored post
    that is all. Otherwise it marks the post's own channel either read
    (and then viewed) or unread, never both, and the channel it marks
    is always the channel of the post. *)
Theorem read_unread_exclusive (imp : Imports) (st : GlobalState) (now : Z)
    (post : Post) (websocketMessageProps : WebsocketMessageProps) :
  let received :=
    batchActions
      [RECEIVED_NEW_POST post;
       STOP_TYPING (channel_id post +:+ root_id post) (user_id post) now] in
  let dispatched := (lastPostActions imp st now post websocketMessageProps).1 in
  let read := ∃ onServer,
    dispatched = [received; markChannelAsRead (channel_id post) onServer;
                  markChannelAsViewed (channel_id post)] in
  let unread :=
    dispatched = [received;
                  markChannelAsUnread (team_id websocketMessageProps)
                    (channel_id post) (mentions websocketMessageProps)] in
  head dispatched = Some received
  ∧ (shouldIgnorePost imp post = true ↔ dispatched = [received])
  ∧ (shouldIgnorePost imp post = false ↔ read ∨ unread)
  ∧ ¬ (read ∧ unread)
  ∧ (∀ c b, markChannelAsRead c b ∈ dispatched → c = channel_id post ∧ read)
  ∧ (∀ t c m, markChannelAsUnread t c m ∈ dispatched →
       c = channel_id post ∧ unread).
Proof.
  intros received dispatched read unread.
  subst read unread dispatched. unfold lastPostActions.
  destruct (shouldIgnorePost imp post).
  { cbn. split; [done|].
    split; [done|].
    split; [split; [discriminate | intros [[? [=]] | [=]]]|].
    split; [intros [[? [=]] _]|].
    split.
    - intros c b [[=] | []%elem_of_nil]%elem_of_cons.
    - intros t c m [[=] | []%elem_of_nil]%elem_of_cons. }
  assert (∀ onServer,
            let d := [received; markChannelAsRead (channel_id post) onServer;
                      markChannelAsViewed (channel_id post)] in
            head d = Some received
            ∧ (false = true ↔ d = [received])
            ∧ (false = false ↔
               (∃ onServer', d = [received;
                                  markChannelAsRead (channel_id post) onServer';
                                  markChannelAsViewed (channel_id post)])
               ∨ d = [received;
                      markChannelAsUnread (team_id websocketMessageProps)
                        (channel_id post) (mentions websocketMessageProps)])
            ∧ ¬ ((∃ onServer', d = [received;
                                    markChannelAsRead (channel_id post) onServer';
                                    markChannelAsViewed (channel_id post)])
                 ∧ d = [received;
                        markChannelAsUnread (team_id websocketMessageProps)
                          (channel_id post) (mentions websocketMessageProps)])
            ∧ (∀ c b, markChannelAsRead c b ∈ d →
                 c = channel_id post
                 ∧ ∃ onServer', d = [received;
                                     markChannelAsRead (channel_id post) onServer';
                                     markChannelAsViewed (channel_id post)])
            ∧ (∀ t c m, markChannelAsUnread t c m ∈ d →
                 c = channel_id post
                 ∧ d = [received;
                        markChannelAsUnread (team_id websocketMessageProps)
                          (channel_id post) (mentions websocketMessageProps)]))
    as Hread.
  { intros onServer d. subst d.
    split; [done|].
    split; [split; [discriminate | intros [=]]|].
    split; [split; [intros _; left; by eexists | done]|].
    split; [intros [_ [=]]|].
    split.
    - intros c b Hin. apply list_elem_of_In in Hin. cbn in Hin.
      destruct Hin as [[=] | [[= <- <-] | [[=] | []]]].
      split; [done | by eexists].
    - intros t c m Hin. apply list_elem_of_In in Hin. cbn in Hin.
      destruct Hin as [[=] | [[=] | [[=] | []]]]. }
  destruct (str_eq (user_id post) (getCurrentUserId imp st)
            && negb (isSystemMessage imp post) && negb (isFromWebhook imp post));
    [exact (Hread false)|].
  destruct (str_eq (channel_id post) (getCurrentChannelId imp st));
    [exact (Hread true)|].
  cbn. split; [done|].
  split; [split; [discriminate | intros [=]]|].
  split; [split; [intros _; by right | done]|].
  split; [intros [[? [=]] _]|].
  split.
  - intros c b Hin. apply list_elem_of_In in Hin. cbn in Hin.
    destruct Hin as [[=] | [[=] | []]].
  - intros t c m Hin. apply list_elem_of_In in Hin. cbn in Hin.
    destruct Hin as [[=] | [[= <- <- <-] | []]]. done.
Qed.

(** ** The single-call fetches *)

(** The fetches the prefetcher starts hand no post list to the
    store. *)
Lemma prefetch_hands_nothing (imp : Imports) (st : GlobalState)
    (batch : option PostsArrayOrMap) :
  ∃ fetches,
    getProfilesAndStatusesForPosts imp st batch = (fetches, Returns tt)
    ∧ flat_map received_lists fetches = []
    ∧ flat_map received_post_lists (ACTION <$> fetches) = [].
Proof.
  pose proof (getProfilesAndStatusesForPosts_returns imp st batch) as Hret.
  assert (flat_map received_lists
            (getProfilesAndStatusesForPosts imp st batch).1 = []) as Hnone.
  { destruct batch as [b|]; [|done].
    destruct (decide (Object_values b = [])) as [Hv | Hv].
    - unfold getProfilesAndStatusesForPosts. by rewrite Hv.
    - destruct (prefetch_dispatches imp st b Hv) as (? & ? & _ & _ & ->).
      by repeat case_bool_decide. }
  destruct (getProfilesAndStatusesForPosts imp st batch) as [fetches o].
  cbn in Hret, Hnone. subst o. exists fetches. split_and!; [done | done |].
  clear -Hnone. induction fetches as [|a l IH]; [done|].
  cbn in Hnone |- *. apply app_eq_nil in Hnone as [Ha Hl].
  by rewrite Ha, (IH Hl).
Qed.

(** Each single-call fetch commits all or nothing. On a rejected call
    it returns [{error}] with the client's error and dispatches no
    receipt. On a resolved call it returns [{data}] with the post list
    the server sent; every post list it hands to the store is that
    list, and its last dispatch is a receipt that hands it over. It
    neither throws nor stops short, whatever the posts. *)
Theorem fetch_family_all_or_nothing (imp : Imports) (st : GlobalState)
    (channelId postId rootId : string) (page : Z) :
  let family :=
    [getPostThread imp st rootId; getPostsUnread imp st channelId;
     getPostsSince imp st channelId; getPostsBefore imp st channelId postId;
     getPostsAfter imp st channelId postId] in
  (∀ fetch error, fetch ∈ family →
     (fetch (Rejected error)).2 = Returns (WithError error)
     ∧ Forall (fun a => is_post_receipt a = false) (fetch (Rejected error)).1)
  ∧ (∀ fetch received, fetch ∈ family →
       (fetch (Resolved received)).2 = Returns (WithData received)
       ∧ Forall (eq received)
           (flat_map received_post_lists (fetch (Resolved received)).1)
       ∧ ∃ a, last (fetch (Resolved received)).1 = Some a
              ∧ is_post_receipt a = true
              ∧ received ∈ received_post_lists a)
  ∧ (∀ error,
       (getPosts imp st channelId page (Rejected error)).2
       = Returns (RError error)
       ∧ Forall (fun a => is_receipt a = false)
           (getPosts imp st channelId page (Rejected error)).1)
  ∧ (∀ received,
       (getPosts imp st channelId page (Resolved received)).2
       = Returns (RData (DPosts received))
       ∧ Forall (eq received)
           (flat_map received_lists
              (getPosts imp st channelId page (Resolved received)).1)
       ∧ last (getPosts imp st channelId page (Resolved received)).1
         = Some (batchActions
                   [RECEIVED_POSTS received;
                    RECEIVED_POSTS_IN_CHANNEL channelId received
                      (Z.eqb page 0) (str_eq (prev_post_id received) "")])).
Proof.
  intros family.
  assert (∀ error, Forall (fun a => is_post_receipt a = false)
                     (ACTION <$> forceLogoutIfNecessary imp error)) as Hlogout.
  { intros error. unfold forceLogoutIfNecessary.
    destruct (isSessionExpired imp error); repeat constructor. }
  split_and!.
  - intros fetch error Hin. subst family.
    apply list_elem_of_In in Hin. cbn in Hin.
    destruct Hin as [<- | [<- | [<- | [<- | [<- | []]]]]]; cbn;
      (split; [done|]); rewrite ?app_nil_l;
      try apply Forall_cons; rewrite ?Forall_app; repeat split;
      try apply Hlogout; repeat constructor.
  - intros fetch received Hin. subst family.
    destruct (prefetch_hands_nothing imp st (Some (PostsMap (posts received))))
      as (fetches & Hf & _ & Hnone).
    apply list_elem_of_In in Hin. cbn in Hin.
    destruct Hin as [<- | [<- | [<- | [<- | [<- | []]]]]];
      unfold getPostThread, getPostsUnread, getPostsSince, getPostsBefore,
        getPostsAfter, fetch_then; rewrite Hf; cbn [fst snd];
      (split; [done|]);
      (split;
       [ cbn [flat_map received_post_lists]; rewrite ?flat_map_app, Hnone;
         cbn; repeat constructor
       | eexists; rewrite ?app_comm_cons, ?last_app; cbn [last];
         split; [reflexivity|]; split; [reflexivity|];
         cbn; apply list_elem_of_here ]).
  - intros error. cbn. split; [done|].
    unfold forceLogoutIfNecessary.
    destruct (isSessionExpired imp error); repeat constructor.
  - intros received.
    destruct (prefetch_hands_nothing imp st (Some (PostsMap (posts received))))
      as (fetches & Hf & Hnone & _).
    unfold getPosts. rewrite Hf. cbn [fst snd]. split; [done|]. split.
    + rewrite flat_map_app, Hnone. cbn. repeat constructor.
    + by rewrite last_snoc.
Qed.

(** ** Pinning *)

(** [pinPost] and [unpinPost] announce the request first. On a
    rejected call they return [{error}] and hand no post to the store.
    On a resolved call they return [{data}] with the server's answer;
    the local record is patched only if the store holds the post: one
    post is then handed to the store, with the flag written and the
    current time as update timestamp, and equal to the stored post in
    everything else. *)
Theorem pin_unpin_local_patch {A : Type} (pinned : bool) (imp : Imports)
    (st : GlobalState) (now : Z) (postId : string) (response : ClientOutcome A) :
  let run := pin_unpin pinned imp st now postId response in
  head run.1 = Some EDIT_POST_REQUEST
  ∧ match response with
    | Rejected error =>
        run.2 = Returns (WithError error)
        ∧ flat_map received_posts run.1 = []
    | Resolved ack =>
        run.2 = Returns (WithData ack)
        ∧ match Selectors_getPost imp st postId with
          | None => flat_map received_posts run.1 = []
          | Some post =>
              ∃ patched,
                flat_map received_posts run.1 = [plain patched]
                ∧ is_pinned patched = pinned ∧ update_at patched = now
                ∧ set_update_at (update_at post)
                    (set_is_pinned (is_pinned post) patched) = post
          end
    end.
Proof.
  intros run. subst run. unfold pin_unpin.
  destruct response as [ack | error]; cbn [fst snd head].
  - split; [done|]. split; [done|].
    destruct (Selectors_getPost imp st postId) as [post|]; [|done].
    eexists. split; [reflexivity|]. split; [done|]. split; [done|].
    by destruct post.
  - split; [done|]. split; [done|].
    unfold forceLogoutIfNecessary. by destruct (isSessionExpired imp error).
Qed.

(** ** Reactions and the emoji they need *)

Lemma getCustomEmojiForReaction_known (imp : Imports) (st : GlobalState)
    (name : string) :
  (getCustomEmojiForReaction imp st name).2 = Returns Delegated
  ↔ emoji_is_known imp st name = false.
Proof.
  unfold getCustomEmojiForReaction, emoji_is_known.
  repeat case_bool_decide; cbn; split; intros; done.
Qed.

Lemma reaction_names_fold (imp : Imports) (st : GlobalState)
    (reactions : list Reaction) (acc : gset string) (n : string) :
  n ∈ foldl (fun emojisToLoad r =>
               let name := reaction_emoji_name r in
               if bool_decide (name ∈ systemEmojis imp) then emojisToLoad
               else if bool_decide (name ∈ entities_emojis_nonExistentEmoji st)
               then emojisToLoad
               else if bool_decide
                         (is_Some (selectCustomEmojisByName imp st !! name))
               then emojisToLoad
               else {[name]} ∪ emojisToLoad)
            acc reactions
  ↔ n ∈ acc
    ∨ (∃ r, r ∈ reactions ∧ reaction_emoji_name r = n)
      ∧ emoji_is_known imp st n = false.
Proof.
  revert acc. induction reactions as [|r reactions IH]; intros acc; cbn [foldl].
  - split; [by left|]. by intros [? | [(r & []%elem_of_nil & _) _]].
  - rewrite IH. cbv zeta.
    assert (emoji_is_known imp st (reaction_emoji_name r)
            = bool_decide (reaction_emoji_name r ∈ systemEmojis imp)
              || bool_decide (reaction_emoji_name r
                              ∈ entities_emojis_nonExistentEmoji st)
              || bool_decide (is_Some (selectCustomEmojisByName imp st
                                         !! reaction_emoji_name r)))
      as Hknown by done.
    destruct (bool_decide (reaction_emoji_name r ∈ systemEmojis imp)),
             (bool_decide (reaction_emoji_name r
                           ∈ entities_emojis_nonExistentEmoji st)),
             (bool_decide (is_Some (selectCustomEmojisByName imp st
                                      !! reaction_emoji_name r)));
      cbn [orb] in Hknown; rewrite ?elem_of_union, ?elem_of_singleton;
      (split;
       [ intros [H | [(r' & Hr' & Hn) Hk]];
         [ try destruct H as [-> | H]; eauto 8 using list_elem_of_here
         | right; split; [exists r'; split; [by right | done] | done] ]
       | intros [H | [(r' & [-> | Hr']%elem_of_cons & Hn) Hk]];
         [ by eauto
         | subst n; try congruence; by eauto
         | right; eauto 8 ] ]).
Qed.

(** On a resolved call [getReactionsForPost] returns the reactions as
    they are and dispatches them in a batch, last. When there is at
    least one reaction it first requests custom emoji: exactly the
    emoji names of the reactions for which [getCustomEmojiForReaction]
    would go to the server, a set that may be empty. With no reaction
    the batch is all it dispatches. On a rejected call it returns
    [{error}] and dispatches no reactions. *)
Theorem reactions_emoji_demand (imp : Imports) (st : GlobalState)
    (postId : string) :
  (∀ reactions,
     let run := getReactionsForPost imp st postId (Resolved reactions) in
     run.2 = Returns (BareReactions reactions)
     ∧ match reactions with
       | Some (r :: l) =>
           ∃ names,
             run.1 = [ACTION (getCustomEmojisByName names);
                      BATCH [RECEIVED_REACTIONS reactions postId]]
             ∧ ∀ n, n ∈ names ↔
                    (∃ r', r' ∈ r :: l ∧ reaction_emoji_name r' = n)
                    ∧ (getCustomEmojiForReaction imp st n).2 = Returns Delegated
       | _ => run.1 = [BATCH [RECEIVED_REACTIONS reactions postId]]
       end)
  ∧ (∀ error,
       let run := getReactionsForPost imp st postId (Rejected error) in
       run.2 = Returns (ReactionsError error)
       ∧ ∀ data p, BATCH [RECEIVED_REACTIONS data p] ∉ run.1).
Proof.
  split.
  - intros reactions run. subst run. split; [done|].
    destruct reactions as [[|r l]|]; [done | | done].
    eexists. split; [reflexivity|]. intros n.
    rewrite reaction_names_fold, getCustomEmojiForReaction_known.
    split; [by intros [[]%not_elem_of_empty | ?] | by right].
  - intros error run. subst run. split; [done|].
    intros data p. cbn. unfold forceLogoutIfNecessary.
    destruct (isSessionExpired imp error); cbn;
      intros Hin; apply list_elem_of_In in Hin; cbn in Hin;
      repeat (destruct Hin as [Hin | Hin]; try discriminate Hin); done.
Qed.

(** ** createPostImmediately *)

(** With every attached file present, [createPostImmediately] always
    shows the draft at once, under a pending identifier it generates
    itself: a [pending_post_id] of the draft is not reused and no
    outstanding send is looked for. On success the post it hands to
    the store and returns has the server's identifier and, still, the
    local timestamps. On failure it returns [{error}], hands no post
    to the store, and ends with a batch that holds the failure, the
    [removePost] thunk for the post shown and the error log. *)
Theorem createPostImmediately_outcomes (imp : Imports) (st : GlobalState)
    (now : Z) (post : Post) (files : list (option FileInfo))
    (response : ClientOutcome Post) :
  None ∉ files →
  let pendingPostId :=
    entities_users_currentUserId st +:+ ":" +:+ number_toString now in
  let run := createPostImmediately imp st now post files response in
  (∃ shown,
     ACTION (RECEIVED_NEW_POST shown) ∈ run.1
     ∧ pending_post_id shown = Some pendingPostId
     ∧ id shown = Some (default pendingPostId (id post))
     ∧ create_at shown = now ∧ message shown = message post
     ∧ match response with
       | Resolved created =>
           ∃ newPost,
             run.2 = Returns (RData (DPost newPost))
             ∧ flat_map received_posts run.1 = [plain newPost]
             ∧ newPost = set_id (id created) (set_id None shown)
       | Rejected error =>
           run.2 = Returns (RError error)
           ∧ flat_map received_posts run.1 = []
           ∧ last run.1
             = Some (BATCH [ACTION (CREATE_POST_FAILURE error);
                            removePost_thunk (plain shown);
                            ACTION (logError error)])
       end).
Proof.
  intros Hfiles pendingPostId run. subst run. unfold createPostImmediately.
  fold pendingPostId.
  assert (∀ first newPost,
            flat_map received_posts first = [] →
            pending_post_id newPost = Some pendingPostId →
            id newPost = id post → create_at newPost = now →
            message newPost = message post →
            let optimistic := createPost_optimistic_data newPost pendingPostId in
            let run :=
              match response with
              | Resolved created =>
                  (first ++
                   [ACTION (RECEIVED_NEW_POST optimistic);
                    BATCH (ACTION <$>
                       [RECEIVED_POST (plain (set_id (id created) newPost));
                        CREATE_POST_SUCCESS;
                        INCREMENT_TOTAL_MSG_COUNT
                          (channel_id (set_id (id created) newPost)) 1;
                        DECREMENT_UNREAD_MSG_COUNT
                          (channel_id (set_id (id created) newPost)) 1;
                        RECEIVED_FILES_FOR_POST
                          (id (set_id (id created) newPost)) files])],
                   Returns (RData (DPost (set_id (id created) newPost))))
              | Rejected error =>
                  (first ++ [ACTION (RECEIVED_NEW_POST optimistic)]
                     ++ (ACTION <$> forceLogoutIfNecessary imp error)
                     ++ [BATCH [ACTION (CREATE_POST_FAILURE error);
                                removePost_thunk (plain optimistic);
                                ACTION (logError error)]],
                   Returns (RError error))
              end in
            ∃ shown,
              ACTION (RECEIVED_NEW_POST shown) ∈ run.1
              ∧ pending_post_id shown = Some pendingPostId
              ∧ id shown = Some (default pendingPostId (id post))
              ∧ create_at shown = now ∧ message shown = message post
              ∧ match response with
                | Resolved created =>
                    ∃ newPost',
                      run.2 = Returns (RData (DPost newPost'))
                      ∧ flat_map received_posts run.1 = [plain newPost']
                      ∧ newPost' = set_id (id created) (set_id None shown)
                | Rejected error =>
                    run.2 = Returns (RError error)
                    ∧ flat_map received_posts run.1 = []
                    ∧ last run.1
                      = Some (BATCH [ACTION (CREATE_POST_FAILURE error);
                                     removePost_thunk (plain shown);
                                     ACTION (logError error)])
                end) as Hcontinue.
  { intros first newPost Hfirst Hpid Hid Hcreate Hmsg optimistic run.
    exists optimistic.
    assert (pending_post_id optimistic = Some pendingPostId
            ∧ id optimistic = Some (default pendingPostId (id post))
            ∧ create_at optimistic = now ∧ message optimistic = message post
            ∧ set_id None optimistic = set_id None newPost)
      as (Ho1 & Ho2 & Ho3 & Ho4 & Ho5).
    { subst optimistic. unfold createPost_optimistic_data.
      rewrite <- Hid. destruct (id newPost) eqn:Hn; cbn; by split_and!. }
    subst run. destruct response as [created | error]; cbn [fst snd].
    - split; [apply elem_of_app; right; left|].
      split_and!; try done.
      eexists. split; [reflexivity|].
      rewrite flat_map_app, Hfirst. cbn. split; [done|].
      rewrite Ho5. by destruct newPost.
    - split; [apply elem_of_app; right; left|].
      split_and!; try done.
      + rewrite !flat_map_app, Hfirst. cbn.
        unfold forceLogoutIfNecessary. by destruct (isSessionExpired imp error).
      + by rewrite !app_assoc, last_snoc. }
  destruct (negb (Nat.eqb (length files) 0)) eqn:Hlen.
  - destruct (mapM (fmap file_id) files) as [fileIds|] eqn:Hm.
    + by apply Hcontinue.
    + exfalso. apply mapM_None, Exists_exists in Hm as ([f|] & Hin & Hf);
        [discriminate | done].
  - by apply Hcontinue.
Qed.

Lemma createPostImmediately_outcomes_witness :
  let st := sample_state ∅ ["me:1500"] in
  let post := set_pending_post_id (Some "me:1500") (sample_draft "town" "hello") in
  let created := sample_post "srv1" "me" "town" "hello" in
  (None ∉ ([] : list (option FileInfo)))
  ∧ createPost reference_imports st 1600 post [] = ([], Returns (RData DTrue))
  ∧ ∃ shown,
      ACTION (RECEIVED_NEW_POST shown)
        ∈ (createPostImmediately reference_imports st 1600 post []
             (Resolved created)).1
      ∧ pending_post_id shown = Some "me:1600".
Proof.
  intros st post created.
  assert (None ∉ ([] : list (option FileInfo))) as Hfiles
    by (by intros ?%elem_of_nil).
  split_and!; [exact Hfiles | reflexivity |].
  destruct (createPostImmediately_outcomes reference_imports st 1600 post []
              (Resolved created) Hfiles)
    as (shown & Hin & Hpid & _).
  exists shown. split; [exact Hin | exact Hpid].
Defined.
